(** * internal/hcl/parser.go: directory loading and variable resolution

    A shallow embedding of the Terraform HCL [Parser]: its functional
    options, [New], [ParseDirectory], [parseDirectoryFiles], [loadVars],
    [loadAndCombineVars], [loadVarFile] and [loadDirectory].

    Go maps that are shared between a [Parser] field and a local variable
    live in a store of maps addressed by references, so that aliasing is
    visible.  The operating system, the HCL libraries and the collaborators
    of the package that are defined in other files are gathered in a record
    of oracles, [World]. *)

From Stdlib Require Import String Ascii List ZArith Lia.
From stdpp Require Import base option gmap strings list fin_maps.

Open Scope string_scope.
Open Scope list_scope.

(** ** The Go [strings] package, on byte strings *)

(** [s[n:]] *)
Definition slice_from (n : nat) (s : string) : string :=
  substring n (String.length s - n) s.

Definition strings_HasPrefix (s prefix : string) : bool :=
  String.prefix prefix s.

Definition strings_HasSuffix (s suffix : string) : bool :=
  (String.length suffix <=? String.length s)%nat
  && String.eqb (slice_from (String.length s - String.length suffix) s) suffix.

Definition strings_Index (s substr : string) : option nat :=
  String.index 0 substr s.

(** The loop of [genSplit]: cut at every occurrence of a non-empty [sep].
    Each round consumes at least one byte, so [String.length s] rounds
    are enough. *)
Fixpoint genSplit (rounds : nat) (s sep : string) : list string :=
  match rounds with
  | O => [s]
  | S rounds' =>
      match strings_Index s sep with
      | None => [s]
      | Some m =>
          substring 0 m s
          :: genSplit rounds' (slice_from (m + String.length sep) s) sep
      end
  end.

Fixpoint explode (s : string) : list string :=
  match s with
  | EmptyString => []
  | String c s' => String c EmptyString :: explode s'
  end.

Definition strings_Split (s sep : string) : list string :=
  match sep with
  | EmptyString => explode s
  | _ => genSplit (String.length s) s sep
  end.

Definition strings_Join (elems : list string) (sep : string) : string :=
  String.concat sep elems.

Definition strings_ContainsByte (cutset : string) (c : ascii) : bool :=
  existsb (Ascii.eqb c) (list_ascii_of_string cutset).

Fixpoint trim_left_bytes (cutset : string) (l : list ascii) : list ascii :=
  match l with
  | [] => []
  | c :: l' =>
      if strings_ContainsByte cutset c then trim_left_bytes cutset l' else l
  end.

Definition strings_TrimRight (s cutset : string) : string :=
  string_of_list_ascii
    (rev (trim_left_bytes cutset (rev (list_ascii_of_string s)))).

(** ** Values, diagnostics and errors *)

(** [cty.Value]: the typed values a variable can take. [cty_DynamicVal] is
    the unknown value of any type, [cty_NilVal] the zero [Value]. *)
Inductive cty_Value : Type :=
| cty_StringVal (s : string)
| cty_NumberIntVal (n : Z)
| cty_BoolVal (b : bool)
| cty_DynamicVal
| cty_NilVal.

Inductive hcl_DiagnosticSeverity : Type := hcl_DiagError | hcl_DiagWarning.

Record hcl_Diagnostic : Type := {
  Severity : hcl_DiagnosticSeverity;
  Summary : string;
}.

Definition hcl_Diagnostics : Type := list hcl_Diagnostic.

Definition is_DiagError (d : hcl_Diagnostic) : bool :=
  match Severity d with hcl_DiagError => true | hcl_DiagWarning => false end.

(** [diag != nil && diag.HasErrors()]: a nil slice has no element. *)
Definition HasErrors (diag : hcl_Diagnostics) : bool := existsb is_DiagError diag.

(** Operands of a format string; the text is kept as format and operands. *)
Inductive operand (E : Type) : Type :=
| op_string (s : string)
| op_int (n : nat)
| op_error (e : E).
Arguments op_string {E} s.
Arguments op_int {E} n.
Arguments op_error {E} e.

(** Go's [error]: what [errors.New] and [fmt.Errorf] build, and
    [hcl.Diagnostics] returned as an error. Errors of the operating system
    and of the collaborators are values of this type given by the world. *)
#[warnings="-register-all"]
Inductive error : Type :=
| errors_New (text : string)
| fmt_Errorf (format : string) (operands : list (operand error))
| Diagnostics_error (diag : hcl_Diagnostics).

(** ** HCL files *)

Record hcl_Block : Type := {
  Type_ : string;
  Labels : list string;
  DefRange_Filename : string;
}.

(** An [hcl.Expression] is used through [Value(&hcl.EvalContext{})] only:
    it is represented by what that call returns. *)
Record hcl_Expression : Type := {
  Expr_Value : cty_Value * hcl_Diagnostics;
}.

(** [hcl.Attributes]: attributes keyed by their names ([attr.Name] is the
    key, [attr.Expr] the entry). An [hcl.Body] is represented by what its
    methods return. *)
Record hcl_Body : Type := {
  JustAttributes : gmap string hcl_Expression * hcl_Diagnostics;
  (** [Content] for the schema of Terraform files *)
  Content : list hcl_Block * hcl_Diagnostics;
}.

Record hcl_File : Type := {
  Body : hcl_Body;
}.

(** ** Collaborators defined in other files of the repository

    The types below are declared in files that are not part of this
    development. A value built by one of their constructors is kept as the
    record of the arguments of the call; what the collaborators do with it
    is given by the world. *)

Inductive ui_SpinnerFunc : Type := spinner_func (id : nat).
Inductive ui_WriteWarningFunc : Type := write_warning_func (id : nat).

Inductive SetAttributesFunc : Type :=
| SetUUIDAttributes
| SetAttributes_other (id : nat).

Record BlockBuilder : Type := {
  SetAttributes : list SetAttributesFunc;
}.

(** Modelled from the spec: the [Block] type, declared in another file of
    the package: a parsed block enriched by the builder with derived
    attributes, which keeps the raw block it was made from. *)
Record Block : Type := {
  hclBlock : hcl_Block;
  derived : list (string * cty_Value);
}.

Record extclient_AuthedAPIClient : Type := {
  client_host : string;
  client_token : string;
}.

Definition extclient_NewAuthedAPIClient (host token : string) :=
  {| client_host := host; client_token := token |}.

Inductive RemoteVariablesLoaderOption : Type :=
| RemoteVariablesLoaderWithSpinner (f : ui_SpinnerFunc).

Record RemoteVariablesLoader : Type := {
  loader_client : extclient_AuthedAPIClient;
  loader_localWorkspace : string;
  loader_opts : list RemoteVariablesLoaderOption;
}.

Definition NewRemoteVariablesLoader client localWorkspace opts :=
  {| loader_client := client;
     loader_localWorkspace := localWorkspace;
     loader_opts := opts |}.

Inductive modules_LoaderOption : Type :=
| modules_LoaderWithSpinner (f : ui_SpinnerFunc).

Record modules_ModuleLoader : Type := {
  loader_path : string;
  loader_options : list modules_LoaderOption;
}.

Definition modules_NewModuleLoader (initialPath : string) opts :=
  {| loader_path := initialPath; loader_options := opts |}.

Record modules_Manifest : Type := {
  manifest_entries : list (string * string);
}.

(** [hcl.Module] (the name [Module] is reserved). *)
Record HclModule : Type := {
  Name : string;
  Source : string;
  Blocks : list Block;
  RootPath : string;
  ModulePath : string;
}.

(** The arguments [NewEvaluator] is called with; the variables are the
    content of the map at the time of the call. *)
Record Evaluator : Type := {
  ev_module : HclModule;
  ev_workingDir : string;
  ev_inputVars : gmap string cty_Value;
  ev_manifest : modules_Manifest;
  ev_workspace : string;
  ev_blockBuilder : BlockBuilder;
  ev_spinner : option ui_SpinnerFunc;
}.

Record FileInfo : Type := {
  fi_Name : string;
  fi_IsDir : bool;
}.

(** ** The world: operating system, Go runtime, libraries, collaborators *)

Record World : Type := {
  os_Environ : list string;
  (** [os.Stat]: the error, [None] when the path exists *)
  os_Stat : string -> option error;
  (** [os.ReadDir] and [ioutil.ReadDir]: the entries, sorted by name, and
      the error; [os.ReadDir] may return both *)
  os_ReadDir : string -> list FileInfo * option error;
  ioutil_ReadDir : string -> list FileInfo * option error;
  os_ReadFile : string -> string * option error;
  os_Getwd : string * option error;
  (** [path.Join] and [filepath.Join] of two elements *)
  path_Join : string -> string -> string;
  filepath_Join : string -> string -> string;
  (** the order in which a [range] loop visits the entries of a map *)
  range_order : forall V : Type, gmap string V -> list (string * V);
  hclsyntax_ParseConfig : string -> string -> hcl_File * hcl_Diagnostics;
  (** [hclparse.Parser.ParseHCLFile] and [ParseJSONFile] on a path not
      parsed before: the file object (nil when there is none) and the
      diagnostics *)
  hclparse_ParseHCLFile : string -> option hcl_File * hcl_Diagnostics;
  hclparse_ParseJSONFile : string -> option hcl_File * hcl_Diagnostics;
  loadBlocksFromFile : hcl_File -> list hcl_Block * option error;
  NewBlock : BlockBuilder -> hcl_Block -> Block;
  RemoteVariablesLoader_Load :
    RemoteVariablesLoader -> list Block -> gmap string cty_Value * option error;
  (** a method on [*ModuleLoader], which may be nil *)
  ModuleLoader_Load :
    option modules_ModuleLoader -> modules_Manifest * option error;
  Evaluator_MissingVars : Evaluator -> list string;
  Evaluator_Run : Evaluator -> option HclModule * option error;
}.

(** A [range] loop over a map visits every entry exactly once. *)
Definition range_ok (w : World) : Prop :=
  forall (V : Type) (m : gmap string V), range_order w V m ≡ₚ map_to_list m.

(** ** State: the store of maps, the package logger, the warning sink

    A map value is a reference into the store; a nil map is no reference.
    Maps that are local to one call and never shared are plain finite
    maps. *)

Definition ref : Type := nat.

Inductive Level : Type := DebugLevel | WarnLevel.

Record entry : Type := {
  level : Level;
  format : string;
  operands : list (operand error);
}.

Record State : Type := {
  next : ref;
  maps : gmap ref (gmap string cty_Value);
  logs : list entry;
  written : list entry;
}.

Definition M (A : Type) : Type := State -> A * State.

#[global] Instance M_ret : MRet M := fun A (a : A) st => (a, st).
#[global] Instance M_bind : MBind M :=
  fun A B (f : A -> M B) (m : M A) st => let '(a, st') := m st in f a st'.

(** [make(map[string]cty.Value)] *)
Definition make_map : M ref := fun st =>
  (next st,
   {| next := S (next st);
      maps := <[next st := ∅]> (maps st);
      logs := logs st;
      written := written st |}).

Definition content (st : State) (l : ref) : gmap string cty_Value :=
  default ∅ (maps st !! l).

(** [m[k] = v] *)
Definition map_store (l : ref) (k : string) (v : cty_Value) : M unit := fun st =>
  (tt,
   {| next := next st;
      maps := <[l := <[k := v]> (content st l)]> (maps st);
      logs := logs st;
      written := written st |}).

(** the entries of the map, as a [range] loop reads them *)
Definition map_load (l : ref) : M (gmap string cty_Value) := fun st =>
  (content st l, st).

Definition log_entry (e : entry) : M unit := fun st =>
  (tt,
   {| next := next st;
      maps := maps st;
      logs := logs st ++ [e];
      written := written st |}).

Definition log_Warnf (fmt : string) (ops : list (operand error)) : M unit :=
  log_entry {| level := WarnLevel; format := fmt; operands := ops |}.

Definition log_Debugf (fmt : string) (ops : list (operand error)) : M unit :=
  log_entry {| level := DebugLevel; format := fmt; operands := ops |}.

(** a call of the [writeWarning] callback *)
Definition write_warning (fmt : string) (ops : list (operand error)) : M unit :=
  fun st =>
  (tt,
   {| next := next st;
      maps := maps st;
      logs := logs st;
      written :=
        written st ++ [{| level := WarnLevel; format := fmt; operands := ops |}] |}).

(** A loop over a slice; [continue] is the end of the body. *)
Fixpoint for_each {A : Type} (l : list A) (body : A -> M unit) : M unit :=
  match l with
  | [] => mret tt
  | x :: l' => body x ;; for_each l' body
  end.

(** A loop over a slice that carries local variables. *)
Fixpoint for_acc {A S : Type} (l : list A) (body : S -> A -> M S) (s : S) : M S :=
  match l with
  | [] => mret s
  | x :: l' => s' ← body s x; for_acc l' body s'
  end.

(** A loop over a slice whose body may [return]: [inr r] leaves the
    function with [r], [inl s] goes on with the local variables [s]. *)
Fixpoint for_return {A S R : Type} (l : list A) (body : S -> A -> M (S + R)) (s : S)
  : M (S + R) :=
  match l with
  | [] => mret (inl s)
  | x :: l' =>
      r ← body s x;
      match r with
      | inl s' => for_return l' body s'
      | inr r => mret (inr r)
      end
  end.

(** ** The parser *)

Record Parser : Type := {
  initialPath : string;
  tfEnvVars : option ref;
  defaultVarFiles : list string;
  tfvarsPaths : list string;
  inputVars : option ref;
  stopOnHCLError : bool;
  workspaceName : string;
  moduleLoader : option modules_ModuleLoader;
  blockBuilder : BlockBuilder;
  newSpinner : option ui_SpinnerFunc;
  writeWarning : option ui_WriteWarningFunc;
  remoteVariablesLoader : option RemoteVariablesLoader;
}.

(** Assignments to one field of [*Parser]. *)
Definition set_tfEnvVars (v : option ref) (p : Parser) : Parser :=
  {| initialPath := initialPath p; tfEnvVars := v;
     defaultVarFiles := defaultVarFiles p; tfvarsPaths := tfvarsPaths p;
     inputVars := inputVars p; stopOnHCLError := stopOnHCLError p;
     workspaceName := workspaceName p; moduleLoader := moduleLoader p;
     blockBuilder := blockBuilder p; newSpinner := newSpinner p;
     writeWarning := writeWarning p;
     remoteVariablesLoader := remoteVariablesLoader p |}.

Definition set_defaultVarFiles (v : list string) (p : Parser) : Parser :=
  {| initialPath := initialPath p; tfEnvVars := tfEnvVars p;
     defaultVarFiles := v; tfvarsPaths := tfvarsPaths p;
     inputVars := inputVars p; stopOnHCLError := stopOnHCLError p;
     workspaceName := workspaceName p; moduleLoader := moduleLoader p;
     blockBuilder := blockBuilder p; newSpinner := newSpinner p;
     writeWarning := writeWarning p;
     remoteVariablesLoader := remoteVariablesLoader p |}.

Definition set_tfvarsPaths (v : list string) (p : Parser) : Parser :=
  {| initialPath := initialPath p; tfEnvVars := tfEnvVars p;
     defaultVarFiles := defaultVarFiles p; tfvarsPaths := v;
     inputVars := inputVars p; stopOnHCLError := stopOnHCLError p;
     workspaceName := workspaceName p; moduleLoader := moduleLoader p;
     blockBuilder := blockBuilder p; newSpinner := newSpinner p;
     writeWarning := writeWarning p;
     remoteVariablesLoader := remoteVariablesLoader p |}.

Definition set_inputVars (v : option ref) (p : Parser) : Parser :=
  {| initialPath := initialPath p; tfEnvVars := tfEnvVars p;
     defaultVarFiles := defaultVarFiles p; tfvarsPaths := tfvarsPaths p;
     inputVars := v; stopOnHCLError := stopOnHCLError p;
     workspaceName := workspaceName p; moduleLoader := moduleLoader p;
     blockBuilder := blockBuilder p; newSpinner := newSpinner p;
     writeWarning := writeWarning p;
     remoteVariablesLoader := remoteVariablesLoader p |}.

Definition set_stopOnHCLError (v : bool) (p : Parser) : Parser :=
  {| initialPath := initialPath p; tfEnvVars := tfEnvVars p;
     defaultVarFiles := defaultVarFiles p; tfvarsPaths := tfvarsPaths p;
     inputVars := inputVars p; stopOnHCLError := v;
     workspaceName := workspaceName p; moduleLoader := moduleLoader p;
     blockBuilder := blockBuilder p; newSpinner := newSpinner p;
     writeWarning := writeWarning p;
     remoteVariablesLoader := remoteVariablesLoader p |}.

Definition set_workspaceName (v : string) (p : Parser) : Parser :=
  {| initialPath := initialPath p; tfEnvVars := tfEnvVars p;
     defaultVarFiles := defaultVarFiles p; tfvarsPaths := tfvarsPaths p;
     inputVars := inputVars p; stopOnHCLError := stopOnHCLError p;
     workspaceName := v; moduleLoader := moduleLoader p;
     blockBuilder := blockBuilder p; newSpinner := newSpinner p;
     writeWarning := writeWarning p;
     remoteVariablesLoader := remoteVariablesLoader p |}.

Definition set_moduleLoader (v : option modules_ModuleLoader) (p : Parser) : Parser :=
  {| initialPath := initialPath p; tfEnvVars := tfEnvVars p;
     defaultVarFiles := defaultVarFiles p; tfvarsPaths := tfvarsPaths p;
     inputVars := inputVars p; stopOnHCLError := stopOnHCLError p;
     workspaceName := workspaceName p; moduleLoader := v;
     blockBuilder := blockBuilder p; newSpinner := newSpinner p;
     writeWarning := writeWarning p;
     remoteVariablesLoader := remoteVariablesLoader p |}.

Definition set_blockBuilder (v : BlockBuilder) (p : Parser) : Parser :=
  {| initialPath := initialPath p; tfEnvVars := tfEnvVars p;
     defaultVarFiles := defaultVarFiles p; tfvarsPaths := tfvarsPaths p;
     inputVars := inputVars p; stopOnHCLError := stopOnHCLError p;
     workspaceName := workspaceName p; moduleLoader := moduleLoader p;
     blockBuilder := v; newSpinner := newSpinner p;
     writeWarning := writeWarning p;
     remoteVariablesLoader := remoteVariablesLoader p |}.

Definition set_newSpinner (v : option ui_SpinnerFunc) (p : Parser) : Parser :=
  {| initialPath := initialPath p; tfEnvVars := tfEnvVars p;
     defaultVarFiles := defaultVarFiles p; tfvarsPaths := tfvarsPaths p;
     inputVars := inputVars p; stopOnHCLError := stopOnHCLError p;
     workspaceName := workspaceName p; moduleLoader := moduleLoader p;
     blockBuilder := blockBuilder p; newSpinner := v;
     writeWarning := writeWarning p;
     remoteVariablesLoader := remoteVariablesLoader p |}.

Definition set_writeWarning (v : option ui_WriteWarningFunc) (p : Parser) : Parser :=
  {| initialPath := initialPath p; tfEnvVars := tfEnvVars p;
     defaultVarFiles := defaultVarFiles p; tfvarsPaths := tfvarsPaths p;
     inputVars := inputVars p; stopOnHCLError := stopOnHCLError p;
     workspaceName := workspaceName p; moduleLoader := moduleLoader p;
     blockBuilder := blockBuilder p; newSpinner := newSpinner p;
     writeWarning := v;
     remoteVariablesLoader := remoteVariablesLoader p |}.

Definition set_remoteVariablesLoader (v : option RemoteVariablesLoader) (p : Parser)
  : Parser :=
  {| initialPath := initialPath p; tfEnvVars := tfEnvVars p;
     defaultVarFiles := defaultVarFiles p; tfvarsPaths := tfvarsPaths p;
     inputVars := inputVars p; stopOnHCLError := stopOnHCLError p;
     workspaceName := workspaceName p; moduleLoader := moduleLoader p;
     blockBuilder := blockBuilder p; newSpinner := newSpinner p;
     writeWarning := writeWarning p;
     remoteVariablesLoader := v |}.

(** [type Option func(p *Parser)]: the parser after the call, and the
    effects of the call on the state. *)
Definition Option : Type := Parser -> M Parser.

Definition TF_VAR_ : string := "TF_VAR_".

(** [hclparse.Parser]: the files it holds, by file name; [Files()] returns
    this map. A parse call adds the file object it produced, if any. Entries
    of one directory have distinct names, so no path is parsed twice. *)
Abbreviation hclparse_Parser := (gmap string hcl_File).

Definition hclparse_NewParser : hclparse_Parser := ∅.

Definition parse_func : Type := string -> option hcl_File * hcl_Diagnostics.

Definition call_parseFunc (parseFunc : parse_func) (path : string)
    (hclParser : hclparse_Parser) : hclparse_Parser * hcl_Diagnostics :=
  let '(file, diag) := parseFunc path in
  (match file with
   | Some f => <[path := f]> hclParser
   | None => hclParser
   end, diag).

Section Program.

Variable w : World.

(** [for k, v := range src { dst[k] = v }] *)
Definition copy_entries (src : gmap string cty_Value) (dst : ref) : M unit :=
  for_each (range_order w _ src) (fun kv => map_store dst kv.1 kv.2).

Definition OptionWithTFVarsPaths (paths : list string) : Option := fun p =>
  relative ← for_acc paths (fun relative name =>
    let tfvp := path_Join w (initialPath p) name in
    match os_Stat w tfvp with
    | Some err =>
        log_Warnf "passed tfvar file does not exist at %s" [op_string tfvp] ;;
        mret relative
    | None => mret (relative ++ [tfvp])
    end) [];
  mret (set_tfvarsPaths relative p).

Definition OptionStopOnHCLError : Option := fun p =>
  mret (set_stopOnHCLError true p).

Definition OptionWithTFEnvVars (projectEnv : gmap string string) : Option := fun p =>
  ctyVars ← make_map;
  for_each (os_Environ w) (fun v =>
    if strings_HasPrefix v TF_VAR_ then
      let pieces := strings_Split (slice_from (String.length TF_VAR_) v) "=" in
      match pieces with
      | [name; value] => map_store ctyVars name (cty_StringVal value)
      | _ => mret tt
      end
    else mret tt) ;;
  for_each (range_order w _ projectEnv) (fun kv =>
    if strings_HasPrefix kv.1 TF_VAR_ then
      map_store ctyVars (slice_from (String.length TF_VAR_) kv.1) (cty_StringVal kv.2)
    else mret tt) ;;
  mret (set_tfEnvVars (Some ctyVars) p).

(** [if p.inputVars == nil { p.inputVars = make(...) }] *)
Definition ensure_inputVars (p : Parser) : M (Parser * ref) :=
  match inputVars p with
  | Some l => mret (p, l)
  | None => l ← make_map; mret (set_inputVars (Some l) p, l)
  end.

Definition OptionWithPlanFlagVars (vs : list string) : Option := fun p =>
  '(p, vars) ← ensure_inputVars p;
  for_each vs (fun v =>
    let pieces := strings_Split v "=" in
    match pieces with
    | [name; value] => map_store vars name (cty_StringVal value)
    | _ => mret tt
    end) ;;
  mret p.

Definition OptionWithInputVars (vars : gmap string string) : Option := fun p =>
  '(p, dst) ← ensure_inputVars p;
  for_each (range_order w _ vars) (fun kv =>
    map_store dst kv.1 (cty_StringVal kv.2)) ;;
  mret p.

Definition OptionWithRemoteVarLoader (host token localWorkspace : string) : Option :=
  fun p =>
  if String.eqb host "" || String.eqb token "" then mret p
  else
    let loaderOpts :=
      match newSpinner p with
      | Some f => [RemoteVariablesLoaderWithSpinner f]
      | None => []
      end in
    let client := extclient_NewAuthedAPIClient host token in
    mret (set_remoteVariablesLoader
            (Some (NewRemoteVariablesLoader client localWorkspace loaderOpts)) p).

Definition OptionWithWorkspaceName (name : string) : Option := fun p =>
  mret (set_workspaceName name p).

Definition OptionWithBlockBuilder (b : BlockBuilder) : Option := fun p =>
  mret (set_blockBuilder b p).

Definition OptionWithSpinner (f : ui_SpinnerFunc) : Option := fun p =>
  mret (set_newSpinner (Some f) p).

Definition OptionWithWarningFunc (f : ui_WriteWarningFunc) : Option := fun p =>
  mret (set_writeWarning (Some f) p).

(** The options this package offers. The fields of [Parser] are not
    exported, so no option can be written outside the package. *)
Inductive package_option : Option -> Prop :=
| po_TFVarsPaths paths : package_option (OptionWithTFVarsPaths paths)
| po_StopOnHCLError : package_option OptionStopOnHCLError
| po_TFEnvVars projectEnv : package_option (OptionWithTFEnvVars projectEnv)
| po_PlanFlagVars vs : package_option (OptionWithPlanFlagVars vs)
| po_InputVars vars : package_option (OptionWithInputVars vars)
| po_RemoteVarLoader host token ws :
    package_option (OptionWithRemoteVarLoader host token ws)
| po_WorkspaceName name : package_option (OptionWithWorkspaceName name)
| po_BlockBuilder b : package_option (OptionWithBlockBuilder b)
| po_Spinner f : package_option (OptionWithSpinner f)
| po_WarningFunc f : package_option (OptionWithWarningFunc f).

Definition autoVarsSuffix : string := ".auto.tfvars".

(** The default variable files [New] finds in [initialPath]. *)
Definition discover_defaultVarFiles (initialPath : string) : list string :=
  let defaultVarFiles := [] in
  let defaultTfFile := path_Join w initialPath "terraform.tfvars" in
  let defaultVarFiles :=
    match os_Stat w defaultTfFile with
    | None => defaultVarFiles ++ [defaultTfFile]
    | Some _ => defaultVarFiles
    end in
  let defaultVarFiles :=
    match os_Stat w (defaultTfFile +:+ ".json") with
    | None => defaultVarFiles ++ [defaultTfFile +:+ ".json"]
    | Some _ => defaultVarFiles
    end in
  let '(infos, _) := os_ReadDir w initialPath in
  fold_left (fun defaultVarFiles info =>
    let name := fi_Name info in
    if strings_HasSuffix name autoVarsSuffix
       || strings_HasSuffix name (autoVarsSuffix +:+ ".json")
    then defaultVarFiles ++ [path_Join w initialPath name]
    else defaultVarFiles) infos defaultVarFiles.

Definition New (initialPath_ : string) (options : list Option) : M Parser :=
  let p :=
    {| initialPath := initialPath_;
       tfEnvVars := None;
       defaultVarFiles := [];
       tfvarsPaths := [];
       inputVars := None;
       stopOnHCLError := false;
       workspaceName := "default";
       moduleLoader := None;
       blockBuilder := {| SetAttributes := [SetUUIDAttributes] |};
       newSpinner := None;
       writeWarning := None;
       remoteVariablesLoader := None |} in
  let p := set_defaultVarFiles (discover_defaultVarFiles initialPath_) p in
  p ← for_acc options (fun p option => option p) p;
  let loaderOpts :=
    match newSpinner p with
    | Some f => [modules_LoaderWithSpinner f]
    | None => []
    end in
  mret (set_moduleLoader (Some (modules_NewModuleLoader initialPath_ loaderOpts)) p).

(** [loadVarFile]: the attributes of one variable file, each evaluated in
    an empty context. The map built here is local to the call. *)
Definition loadVarFile (filename : string) : M (gmap string cty_Value * option error) :=
  let inputVars : gmap string cty_Value := ∅ in
  if String.eqb filename "" then mret (inputVars, None)
  else
    log_Debugf "loading tfvars-file [%s]" [op_string filename] ;;
    let '(src, err) := os_ReadFile w filename in
    match err with
    | Some err =>
        mret (∅, Some (fmt_Errorf "could not read file %s %w"
                         [op_string filename; op_error err]))
    | None =>
        let '(variableFile, _) := hclsyntax_ParseConfig w src filename in
        let '(attrs, _) := JustAttributes (Body variableFile) in
        inputVars ← for_acc (range_order w _ attrs) (fun inputVars attr =>
          log_Debugf "Setting '%s' from tfvars file at %s"
            [op_string attr.1; op_string filename] ;;
          let '(value, _) := Expr_Value attr.2 in
          mret (<[attr.1 := value]> inputVars)) inputVars;
        mret (inputVars, None)
    end.

Definition loadAndCombineVars (filename : string) (combinedVars : ref)
  : M (option error) :=
  '(vars, err) ← loadVarFile filename;
  match err with
  | Some err =>
      mret (Some (fmt_Errorf "failed to load the tfvars. %s" [op_error err]))
  | None =>
      copy_entries vars combinedVars ;;
      mret None
  end.

(** [loadVars] after the remote variables: the default variable files, the
    explicit ones, the input variables. *)
Definition loadVars_files (p : Parser) (filenames : list string) (combinedVars : ref)
  : M (ref * option error) :=
  for_each (defaultVarFiles p) (fun name =>
    err ← loadAndCombineVars name combinedVars;
    match err with
    | Some err =>
        log_Warnf "could not load vars from auto var file %s err: %s"
          [op_string name; op_error err]
    | None => mret tt
    end) ;;
  r ← for_return filenames (fun _ filename =>
    err ← loadAndCombineVars filename combinedVars;
    match err with
    | Some err => mret (inr (combinedVars, Some err))
    | None => mret (inl tt)
    end) tt;
  match r with
  | inr result => mret result
  | inl _ =>
      match inputVars p with
      | Some vars =>
          vars ← map_load vars;
          copy_entries vars combinedVars
      | None => mret tt
      end ;;
      mret (combinedVars, None)
  end.

Definition loadVars (p : Parser) (blocks : list Block) (filenames : list string)
  : M (ref * option error) :=
  combinedVars ←
    match tfEnvVars p with
    | Some vars => mret vars
    | None => make_map
    end;
  match remoteVariablesLoader p with
  | Some loader =>
      let '(remoteVars, err) := RemoteVariablesLoader_Load w loader blocks in
      match err with
      | Some err =>
          log_Warnf "could not load vars from Terraform Cloud: %s" [op_error err] ;;
          mret (combinedVars, Some err)
      | None =>
          copy_entries remoteVars combinedVars ;;
          loadVars_files p filenames combinedVars
      end
  | None => loadVars_files p filenames combinedVars
  end.

(** The parse function [loadDirectory] selects for a file name. *)
Definition select_parseFunc (name : string) : option parse_func :=
  let parseFunc : option parse_func := None in
  let parseFunc :=
    if strings_HasSuffix name ".tf" then Some (hclparse_ParseHCLFile w)
    else parseFunc in
  let parseFunc :=
    if strings_HasSuffix name ".tf.json" then Some (hclparse_ParseJSONFile w)
    else parseFunc in
  parseFunc.

Definition loadDirectory (fullPath : string) (stopOnHCLError_ : bool)
  : M (list hcl_File * option error) :=
  let hclParser := hclparse_NewParser in
  let '(fileInfos, err) := ioutil_ReadDir w fullPath in
  match err with
  | Some err => mret ([], Some err)
  | None =>
      r ← for_return fileInfos (fun hclParser info =>
        if fi_IsDir info then mret (inl hclParser)
        else
          match select_parseFunc (fi_Name info) with
          | None => mret (inl hclParser)
          | Some parseFunc =>
              let path := filepath_Join w fullPath (fi_Name info) in
              let '(hclParser, diag) := call_parseFunc parseFunc path hclParser in
              if HasErrors diag then
                if stopOnHCLError_ then
                  mret (inr ([], Some (Diagnostics_error diag)))
                else
                  log_Warnf "skipping file: %s hcl parsing err: %s"
                    [op_string path; op_error (Diagnostics_error diag)] ;;
                  mret (inl hclParser)
              else mret (inl hclParser)
          end) hclParser;
      match r with
      | inr result => mret result
      | inl hclParser =>
          let files :=
            fold_left (fun files file => files ++ [file.2])
              (range_order w _ hclParser) [] in
          mret (files, None)
      end
  end.

Definition parseDirectoryFiles (p : Parser) (files : list hcl_File)
  : M (list Block * option error) :=
  r ← for_return files (fun blocks file =>
    let '(fileBlocks, err) := loadBlocksFromFile w file in
    match err with
    | Some err =>
        if stopOnHCLError p then mret (inr ([], Some err))
        else
          log_Warnf "skipping file could not load blocks err: %s" [op_error err] ;;
          mret (inl blocks)
    | None =>
        match fileBlocks with
        | first :: _ =>
            log_Debugf "Added %d blocks from %s..."
              [op_int (length fileBlocks); op_string (DefRange_Filename first)]
        | [] => mret tt
        end ;;
        mret (inl (fold_left (fun blocks fileBlock =>
                     blocks ++ [NewBlock w (blockBuilder p) fileBlock])
                   fileBlocks blocks))
    end) [];
  match r with
  | inr result => mret result
  | inl blocks => mret (blocks, None)
  end.

Definition no_valid_files : error :=
  errors_New "No valid terraform files found given path, try a different directory".

(** [ParseDirectory] from the evaluation of the variables on. *)
Definition evaluate (p : Parser) (blocks : list Block) (inputVars_ : ref)
  : M (option HclModule * option error) :=
  let '(modulesManifest, err) := ModuleLoader_Load w (moduleLoader p) in
  match err with
  | Some err =>
      mret (None, Some (fmt_Errorf "Error loading Terraform modules: %s" [op_error err]))
  | None =>
      log_Debugf "Evaluating expressions..." [] ;;
      let '(workingDir, err) := os_Getwd w in
      match err with
      | Some err =>
          mret (None, Some (fmt_Errorf
                  "Error could not evaluate current working directory %w"
                  [op_error err]))
      | None =>
          vars ← map_load inputVars_;
          let evaluator :=
            {| ev_module :=
                 {| Name := ""; Source := ""; Blocks := blocks;
                    RootPath := initialPath p; ModulePath := initialPath p |};
               ev_workingDir := workingDir;
               ev_inputVars := vars;
               ev_manifest := modulesManifest;
               ev_workspace := workspaceName p;
               ev_blockBuilder := blockBuilder p;
               ev_spinner := newSpinner p |} in
          let v := Evaluator_MissingVars w evaluator in
          (if (0 <? length v)%nat then
             match writeWarning p with
             | Some _ =>
                 write_warning
                   "Input values were not provided for following Terraform variables: %s. %s"
                   [op_string (strings_TrimRight (strings_Join v ", ") ", ");
                    op_string "Use --terraform-var-file or --terraform-var to specify them."]
             | None => mret tt
             end
           else mret tt) ;;
          let '(root, err) := Evaluator_Run w evaluator in
          match err with
          | Some err => mret (None, Some err)
          | None => mret (root, None)
          end
      end
  end.

Definition ParseDirectory (p : Parser) : M (option HclModule * option error) :=
  log_Debugf "Beginning parse for directory '%s'..." [op_string (initialPath p)] ;;
  '(files, err) ← loadDirectory (initialPath p) (stopOnHCLError p);
  match err with
  | Some err => mret (None, Some err)
  | None =>
      '(blocks, err) ← parseDirectoryFiles p files;
      match err with
      | Some err => mret (None, Some err)
      | None =>
          if (length blocks =? 0)%nat then mret (None, Some no_valid_files)
          else
            log_Debugf "Loading TFVars..." [] ;;
            '(inputVars_, err) ← loadVars p blocks (tfvarsPaths p);
            match err with
            | Some err => mret (None, Some err)
            | None => evaluate p blocks inputVars_
            end
      end
  end.

End Program.

(** ** What variable resolution computes

    The functions below describe, on map contents alone, what the stateful
    code above computes; the properties relate the two. *)

Definition attr_value (e : hcl_Expression) : cty_Value := (Expr_Value e).1.

Definition read_error (filename : string) (err : error) : error :=
  fmt_Errorf "could not read file %s %w" [op_string filename; op_error err].

Definition load_error (err : error) : error :=
  fmt_Errorf "failed to load the tfvars. %s" [op_error err].

(** The variables one file contributes, or why it could not be loaded. *)
Definition file_vars (w : World) (filename : string)
  : gmap string cty_Value * option error :=
  if String.eqb filename "" then (∅, None)
  else
    match os_ReadFile w filename with
    | (_, Some err) => (∅, Some (read_error filename err))
    | (src, None) =>
        (attr_value <$> (JustAttributes (Body (hclsyntax_ParseConfig w src filename).1)).1,
         None)
    end.

Definition merge_default_files (w : World) (names : list string)
    (base : gmap string cty_Value) : gmap string cty_Value :=
  fold_left (fun acc name =>
    match file_vars w name with
    | (vars, None) => vars ∪ acc
    | (_, Some _) => acc
    end) names base.

Fixpoint merge_explicit_files (w : World) (names : list string)
    (base : gmap string cty_Value) : gmap string cty_Value * option error :=
  match names with
  | [] => (base, None)
  | name :: names' =>
      match file_vars w name with
      | (_, Some err) => (base, Some (load_error err))
      | (vars, None) => merge_explicit_files w names' (vars ∪ base)
      end
  end.

Definition resolved_files (w : World) (p : Parser) (filenames : list string)
    (base inputs : gmap string cty_Value) : gmap string cty_Value * option error :=
  match merge_explicit_files w filenames
          (merge_default_files w (defaultVarFiles p) base) with
  | (m, Some err) => (m, Some err)
  | (m, None) => (inputs ∪ m, None)
  end.

Definition resolved (w : World) (p : Parser) (blocks : list Block)
    (filenames : list string) (env inputs : gmap string cty_Value)
  : gmap string cty_Value * option error :=
  match remoteVariablesLoader p with
  | Some loader =>
      match RemoteVariablesLoader_Load w loader blocks with
      | (_, Some err) => (env, Some err)
      | (remoteVars, None) => resolved_files w p filenames (remoteVars ∪ env) inputs
      end
  | None => resolved_files w p filenames env inputs
  end.

(** The content of a map field that may be nil. *)
Definition field_content (st : State) (field : option ref) : gmap string cty_Value :=
  match field with
  | Some l => content st l
  | None => ∅
  end.

(** The sources of one resolution, lowest precedence first. *)
Definition loaded_files (w : World) (names : list string)
  : list (gmap string cty_Value) :=
  omap (fun name =>
    match file_vars w name with
    | (vars, None) => Some vars
    | (_, Some _) => None
    end) names.

Definition remote_source (w : World) (p : Parser) (blocks : list Block)
  : list (gmap string cty_Value) :=
  match remoteVariablesLoader p with
  | Some loader => [(RemoteVariablesLoader_Load w loader blocks).1]
  | None => []
  end.

Definition sources (w : World) (p : Parser) (blocks : list Block)
    (filenames : list string) (env inputs : gmap string cty_Value)
  : list (gmap string cty_Value) :=
  [env] ++ remote_source w p blocks ++ loaded_files w (defaultVarFiles p)
  ++ loaded_files w filenames ++ [inputs].

(** The value of [k] in the source of highest precedence that has one. *)
Definition highest (k : string) (srcs : list (gmap string cty_Value))
  : option cty_Value :=
  head (omap (fun m : gmap string cty_Value => m !! k) (reverse srcs)).

(** The remote loader, when there is one, succeeds. *)
Definition remote_succeeds (w : World) (p : Parser) (blocks : list Block) : Prop :=
  forall loader, remoteVariablesLoader p = Some loader ->
    (RemoteVariablesLoader_Load w loader blocks).2 = None.

Definition readable (w : World) (filename : string) : Prop :=
  (file_vars w filename).2 = None.

(** The references of the parser were allocated, and its two maps are
    different maps. *)
Definition wf_parser (st : State) (p : Parser) : Prop :=
  (forall l, tfEnvVars p = Some l -> l < next st)
  /\ (forall l, inputVars p = Some l -> l < next st)
  /\ (forall l, tfEnvVars p = Some l -> inputVars p <> Some l).

(** What a call leaves of the state: the map at [dst] holds [m], nothing
    else in the store changed, the log grew. *)
Definition updates (dst : ref) (m : gmap string cty_Value) (st st' : State) : Prop :=
  content st' dst = m
  /\ next st' = next st
  /\ written st' = written st
  /\ (forall l, l <> dst -> content st' l = content st l)
  /\ logs st `prefix_of` logs st'.

(** [m[kv.1] = kv.2] on the content of a map. *)
Definition put {V : Type} (acc : gmap string V) (kv : string * V) : gmap string V :=
  <[kv.1 := kv.2]> acc.

(** The variables [OptionWithTFEnvVars] reads from the environment of the
    process and from the environment of the project. *)
Definition environ_entry (v : string) : option (string * cty_Value) :=
  if strings_HasPrefix v TF_VAR_ then
    match strings_Split (slice_from (String.length TF_VAR_) v) "=" with
    | [name; value] => Some (name, cty_StringVal value)
    | _ => None
    end
  else None.

Definition environ_vars (environ : list string) : gmap string cty_Value :=
  fold_left put (omap environ_entry environ) ∅.

Definition project_entry (kv : string * string) : option (string * cty_Value) :=
  if strings_HasPrefix kv.1 TF_VAR_
  then Some (slice_from (String.length TF_VAR_) kv.1, cty_StringVal kv.2)
  else None.

Definition project_vars (projectEnv : gmap string string) : gmap string cty_Value :=
  list_to_map (omap project_entry (map_to_list projectEnv)).

(** Merging one more source over what was merged before. *)
Definition overlay (acc m : gmap string cty_Value) : gmap string cty_Value := m ∪ acc.

(** A call that only writes to the log. *)
Definition only_logs (st st' : State) : Prop :=
  next st' = next st /\ maps st' = maps st /\ written st' = written st
  /\ logs st `prefix_of` logs st'.

(** The string has no "=". *)
Definition no_equals (s : string) : Prop := strings_Index s "=" = None.

(** What the remote loader returns, when there is one. *)
Definition remote_result (w : World) (p : Parser) (blocks : list Block)
  : option (gmap string cty_Value * option error) :=
  (fun loader => RemoteVariablesLoader_Load w loader blocks) <$> remoteVariablesLoader p.

(** The default variable files by kind: the primary file and its JSON
    counterpart, found by [os.Stat], and the auto-loaded files among the
    entries of the directory. *)
Definition primary_var_files (w : World) (initialPath_ : string) : list string :=
  let defaultTfFile := path_Join w initialPath_ "terraform.tfvars" in
  filter (fun file => os_Stat w file = None)
    [defaultTfFile; defaultTfFile +:+ ".json"].

Definition is_auto_var_file (name : string) : bool :=
  strings_HasSuffix name autoVarsSuffix
  || strings_HasSuffix name (autoVarsSuffix +:+ ".json").

Definition auto_var_files (w : World) (initialPath_ : string) (infos : list FileInfo)
  : list string :=
  path_Join w initialPath_
    <$> filter (fun name => is_auto_var_file name = true) (fi_Name <$> infos).

(** The warning [OptionWithTFVarsPaths] logs for a path it drops. *)
Definition dropped_path (tfvp : string) : entry :=
  {| level := WarnLevel;
     format := "passed tfvar file does not exist at %s";
     operands := [op_string tfvp] |}.

(** ** What loading a directory computes *)

(** The parse function for a directory entry, if it is a file to parse. *)
Definition recognized (w : World) (info : FileInfo) : option parse_func :=
  if fi_IsDir info then None else select_parseFunc w (fi_Name info).

(** The result of parsing a directory entry: the file object and the
    diagnostics; [None] for an entry that is not parsed. *)
Definition parse_result (w : World) (fullPath : string) (info : FileInfo)
  : option (option hcl_File * hcl_Diagnostics) :=
  match recognized w info with
  | Some parseFunc => Some (parseFunc (filepath_Join w fullPath (fi_Name info)))
  | None => None
  end.

Fixpoint parse_entries (w : World) (fullPath : string) (strict : bool)
    (infos : list FileInfo) (hclParser : hclparse_Parser) : hclparse_Parser + error :=
  match infos with
  | [] => inl hclParser
  | info :: infos' =>
      match recognized w info with
      | None => parse_entries w fullPath strict infos' hclParser
      | Some parseFunc =>
          let '(hclParser', diag) :=
            call_parseFunc parseFunc (filepath_Join w fullPath (fi_Name info)) hclParser in
          if HasErrors diag && strict then inr (Diagnostics_error diag)
          else parse_entries w fullPath strict infos' hclParser'
      end
  end.

Definition directory_files (w : World) (fullPath : string) (strict : bool)
  : list hcl_File * option error :=
  match ioutil_ReadDir w fullPath with
  | (_, Some err) => ([], Some err)
  | (infos, None) =>
      match parse_entries w fullPath strict infos hclparse_NewParser with
      | inr err => ([], Some err)
      | inl hclParser => ((range_order w _ hclParser).*2, None)
      end
  end.

Fixpoint files_blocks (w : World) (p : Parser) (files : list hcl_File)
    (blocks : list Block) : list Block * option error :=
  match files with
  | [] => (blocks, None)
  | file :: files' =>
      match loadBlocksFromFile w file with
      | (_, Some err) =>
          if stopOnHCLError p then ([], Some err)
          else files_blocks w p files' blocks
      | (fileBlocks, None) =>
          files_blocks w p files' (blocks ++ (NewBlock w (blockBuilder p) <$> fileBlocks))
      end
  end.

Definition directory_blocks (w : World) (p : Parser) : list Block * option error :=
  match directory_files w (initialPath p) (stopOnHCLError p) with
  | (_, Some err) => ([], Some err)
  | (files, None) => files_blocks w p files []
  end.

(** The evaluator [ParseDirectory] builds. *)
Definition new_evaluator (w : World) (p : Parser) (blocks : list Block)
    (vars : gmap string cty_Value) (manifest : modules_Manifest) : Evaluator :=
  {| ev_module :=
       {| Name := ""; Source := ""; Blocks := blocks;
          RootPath := initialPath p; ModulePath := initialPath p |};
     ev_workingDir := (os_Getwd w).1;
     ev_inputVars := vars;
     ev_manifest := manifest;
     ev_workspace := workspaceName p;
     ev_blockBuilder := blockBuilder p;
     ev_spinner := newSpinner p |}.

Definition evaluation (w : World) (p : Parser) (blocks : list Block)
    (vars : gmap string cty_Value) : option HclModule * option error :=
  match ModuleLoader_Load w (moduleLoader p) with
  | (_, Some err) =>
      (None, Some (fmt_Errorf "Error loading Terraform modules: %s" [op_error err]))
  | (manifest, None) =>
      match (os_Getwd w).2 with
      | Some err =>
          (None, Some (fmt_Errorf
                         "Error could not evaluate current working directory %w"
                         [op_error err]))
      | None =>
          match Evaluator_Run w (new_evaluator w p blocks vars manifest) with
          | (_, Some err) => (None, Some err)
          | (root, None) => (root, None)
          end
      end
  end.

(** What [ParseDirectory] returns. *)
Definition parsed (w : World) (p : Parser) (env inputs : gmap string cty_Value)
  : option HclModule * option error :=
  match directory_blocks w p with
  | (_, Some err) => (None, Some err)
  | (blocks, None) =>
      match blocks with
      | [] => (None, Some no_valid_files)
      | _ :: _ =>
          match resolved w p blocks (tfvarsPaths p) env inputs with
          | (_, Some err) => (None, Some err)
          | (vars, None) => evaluation w p blocks vars
          end
      end
  end.

(** The warning [loadDirectory] logs for a file it skips. *)
Definition skipped_file (path : string) (diag : hcl_Diagnostics) : entry :=
  {| level := WarnLevel;
     format := "skipping file: %s hcl parsing err: %s";
     operands := [op_string path; op_error (Diagnostics_error diag)] |}.

(** A call that leaves the store of maps as it is. *)
Definition same_store (st st' : State) : Prop :=
  next st' = next st /\ maps st' = maps st /\ logs st `prefix_of` logs st'.

(** The blocks a parsed file contributes when block loading errors are
    tolerated. *)
Definition yielded_blocks (w : World) (file : hcl_File) : list hcl_Block :=
  match loadBlocksFromFile w file with
  | (fileBlocks, None) => fileBlocks
  | (_, Some _) => []
  end.

(** The first entry of the directory whose parse reports errors. *)
Definition first_failure (w : World) (fullPath : string) (infos : list FileInfo)
  : option (option hcl_File * hcl_Diagnostics) :=
  head (filter (fun result => HasErrors result.2 = true)
          (omap (parse_result w fullPath) infos)).

(** What a parse call leaves in the parser, in tolerant mode. *)
Definition record_entry (w : World) (fullPath : string)
    (hclParser : hclparse_Parser) (info : FileInfo) : hclparse_Parser :=
  match parse_result w fullPath info with
  | Some (Some file, _) => <[filepath_Join w fullPath (fi_Name info) := file]> hclParser
  | _ => hclParser
  end.

#[global] Instance FileInfo_eq_dec : EqDecision FileInfo.
Proof. solve_decision. Defined.

(** ** A small world to run the parser in

    A disk given by a table of directories and a table of files, and toy
    parsers for a fragment of the syntax: a variable file is a sequence of
    lines [name = "text"], a configuration file a sequence of lines
    [type label ... label]. *)

Definition quote : string := String (ascii_of_nat 34) EmptyString.
Definition newline : string := String (ascii_of_nat 10) EmptyString.

Fixpoint assoc {A : Type} (k : string) (l : list (string * A)) : option A :=
  match l with
  | [] => None
  | (k', a) :: l' => if String.eqb k k' then Some a else assoc k l'
  end.

Definition diag_error (summary : string) : hcl_Diagnostic :=
  {| Severity := hcl_DiagError; Summary := summary |}.

Definition toy_expression (rhs : string) : hcl_Expression :=
  if strings_HasPrefix rhs quote && strings_HasSuffix rhs quote
     && (2 <=? String.length rhs)%nat
  then {| Expr_Value := (cty_StringVal (substring 1 (String.length rhs - 2) rhs), []) |}
  else {| Expr_Value := (cty_DynamicVal, [diag_error "Invalid expression"]) |}.

Definition toy_attributes (src : string) : gmap string hcl_Expression * hcl_Diagnostics :=
  fold_left (fun acc line =>
    if String.eqb line "" then acc
    else
      match strings_Split line " = " with
      | [name; rhs] => (<[name := toy_expression rhs]> acc.1, acc.2)
      | _ => (acc.1, acc.2 ++ [diag_error "Argument or block definition required"])
      end) (strings_Split src newline) (∅, []).

Definition toy_blocks (filename src : string) : list hcl_Block * hcl_Diagnostics :=
  fold_left (fun acc line =>
    if String.eqb line "" then acc
    else
      match strings_Split line " " with
      | type :: label :: labels =>
          (acc.1 ++ [{| Type_ := type; Labels := label :: labels;
                        DefRange_Filename := filename |}], acc.2)
      | _ => (acc.1, acc.2 ++ [diag_error "Invalid block definition"])
      end) (strings_Split src newline) ([], []).

Definition toy_ParseConfig (src filename : string) : hcl_File * hcl_Diagnostics :=
  let attrs := toy_attributes src in
  ({| Body := {| JustAttributes := (attrs.1, []); Content := ([], []) |} |}, attrs.2).

Record Disk : Type := {
  disk_dirs : list (string * list FileInfo);
  disk_files : list (string * string);
}.

Definition no_such_file : error := errors_New "no such file or directory".

Definition disk_Stat (d : Disk) (path : string) : option error :=
  match assoc path (disk_files d), assoc path (disk_dirs d) with
  | None, None => Some no_such_file
  | _, _ => None
  end.

Definition disk_ReadDir (d : Disk) (path : string) : list FileInfo * option error :=
  match assoc path (disk_dirs d) with
  | Some infos => (infos, None)
  | None => ([], Some no_such_file)
  end.

Definition disk_ReadFile (d : Disk) (path : string) : string * option error :=
  match assoc path (disk_files d) with
  | Some src => (src, None)
  | None => ("", Some (errors_New "cannot read"))
  end.

(** The toy parser of configuration files keeps the file object of a
    source with errors, with the blocks it could read. *)
Definition toy_ParseFile (d : Disk) (path : string) : option hcl_File * hcl_Diagnostics :=
  match disk_ReadFile d path with
  | (_, Some _) => (None, [diag_error "Failed to read file"])
  | (src, None) =>
      let blocks := toy_blocks path src in
      (Some {| Body := {| JustAttributes := (∅, []); Content := (blocks.1, []) |} |},
       blocks.2)
  end.

Definition toy_loadBlocksFromFile (file : hcl_File) : list hcl_Block * option error :=
  let '(blocks, diagnostics) := Content (Body file) in
  if HasErrors diagnostics then ([], Some (Diagnostics_error diagnostics))
  else (blocks, None).

Definition toy_NewBlock (b : BlockBuilder) (raw : hcl_Block) : Block :=
  {| hclBlock := raw;
     derived :=
       flat_map (fun f =>
         match f with
         | SetUUIDAttributes =>
             [("id", cty_StringVal (strings_Join (Type_ raw :: Labels raw) "."))]
         | SetAttributes_other _ => []
         end) (SetAttributes b) |}.

Definition join_slash (dir name : string) : string := dir +:+ "/" +:+ name.

Definition toy_world (env : list string) (d : Disk)
    (remote : gmap string cty_Value * option error) : World :=
  {| os_Environ := env;
     os_Stat := disk_Stat d;
     os_ReadDir := disk_ReadDir d;
     ioutil_ReadDir := disk_ReadDir d;
     os_ReadFile := disk_ReadFile d;
     os_Getwd := ("/work", None);
     path_Join := join_slash;
     filepath_Join := join_slash;
     range_order := fun V m => map_to_list m;
     hclsyntax_ParseConfig := toy_ParseConfig;
     hclparse_ParseHCLFile := toy_ParseFile d;
     hclparse_ParseJSONFile := toy_ParseFile d;
     loadBlocksFromFile := toy_loadBlocksFromFile;
     NewBlock := toy_NewBlock;
     RemoteVariablesLoader_Load := fun _ _ => remote;
     ModuleLoader_Load := fun _ => ({| manifest_entries := [] |}, None);
     Evaluator_MissingVars := fun _ => [];
     Evaluator_Run := fun ev => (Some (ev_module ev), None) |}.

Definition empty_state : State :=
  {| next := 0; maps := ∅; logs := []; written := [] |}.

Definition file_info (name : string) : FileInfo :=
  {| fi_Name := name; fi_IsDir := false |}.

Definition assignment (name text : string) : string :=
  name +:+ " = " +:+ quote +:+ text +:+ quote +:+ newline.

(** The directory of the precedence scenario. *)
Definition region_disk : Disk :=
  {| disk_dirs :=
       [("proj", [file_info "a.auto.tfvars"; file_info "main.tf";
                  file_info "terraform.tfvars"])];
     disk_files :=
       [("proj/a.auto.tfvars", assignment "region" "us-west-2");
        ("proj/main.tf", "resource aws_instance web" +:+ newline);
        ("proj/terraform.tfvars", assignment "region" "us-east-1")] |}.

Definition region_world : World := toy_world [] region_disk (∅, None).

(** ** Scenarios *)

(** The precedence scenario: the parser [New] builds for "proj" with the
    given options, and what [loadVars] resolves [region] to. *)
Definition region_resolution (options : list Option) : option cty_Value * option error :=
  let '(p, st) := New region_world "proj" options empty_state in
  let '((vars, err), st') := loadVars region_world p [] (tfvarsPaths p) st in
  (content st' vars !! "region", err).

Definition direct_region : Option :=
  OptionWithInputVars region_world {[ "region" := "eu-west-1" ]}.

(** A variable file with one well-formed and one malformed attribute, and a
    remote loader that fails. *)
Definition zone_disk : Disk :=
  {| disk_dirs := [("proj", [file_info "main.tf"; file_info "prod.tfvars"])];
     disk_files :=
       [("proj/main.tf", "resource aws_instance web" +:+ newline);
        ("proj/prod.tfvars",
         assignment "region" "us-east-1" +:+ "zone = us-east-1a" +:+ newline)] |}.

Definition remote_failure : error := errors_New "unauthorized".

Definition zone_world : World := toy_world [] zone_disk (∅, Some remote_failure).

Definition cloud_loader : RemoteVariablesLoader :=
  NewRemoteVariablesLoader (extclient_NewAuthedAPIClient "app.terraform.io" "token")
    "default" [].

(** Directories with files that do not parse. *)
Definition broken_disk : Disk :=
  {| disk_dirs :=
       [("proj", [file_info "README.md"; file_info "bad.tf";
                  file_info "worse.tf.json"])];
     disk_files :=
       [("proj/README.md", "notes" +:+ newline);
        ("proj/bad.tf", "{{{" +:+ newline);
        ("proj/worse.tf.json", "]" +:+ newline)] |}.

Definition broken_world : World := toy_world [] broken_disk (∅, None).

Definition mixed_disk : Disk :=
  {| disk_dirs := [("proj", [file_info "bad.tf"; file_info "main.tf"])];
     disk_files :=
       [("proj/bad.tf", "{{{" +:+ newline);
        ("proj/main.tf", "resource aws_instance web" +:+ newline)] |}.

Definition mixed_world : World := toy_world [] mixed_disk (∅, None).

Definition web_block : hcl_Block :=
  {| Type_ := "resource"; Labels := ["aws_instance"; "web"];
     DefRange_Filename := "proj/main.tf" |}.

(** A world whose directory "gone" does not exist. *)
Definition missing_world : World := toy_world [] mixed_disk (∅, None).

(** A directory with an explicit variable file that is not valid HCL. *)
Definition malformed_disk : Disk :=
  {| disk_dirs := [("proj", [file_info "broken.tfvars"; file_info "main.tf"]);
                   ("proj/modules", [])];
     disk_files :=
       [("proj/broken.tfvars", "region us-east-1" +:+ newline +:+ "{{" +:+ newline);
        ("proj/main.tf", "resource aws_instance web" +:+ newline)] |}.

Definition malformed_world : World := toy_world [] malformed_disk (∅, None).

(** An environment with a value that contains the separator. *)
Definition tagged_environ : list string :=
  ["HOME=/root"; "TF_VAR_region=us-east-1"; "TF_VAR_tags=env=prod"].

Definition tagged_world : World := toy_world tagged_environ region_disk (∅, None).

(** The variables [OptionWithTFEnvVars] leaves in the parser's map. *)
Definition tf_env_vars (w : World) (projectEnv : gmap string string)
  : gmap string cty_Value :=
  let '(p, st) := New w "proj" [OptionWithTFEnvVars w projectEnv] empty_state in
  field_content st (tfEnvVars p).

(** The same world, with [range] visiting the entries of a map in the
    opposite order. *)
Definition reversed (w : World) : World :=
  {| os_Environ := os_Environ w;
     os_Stat := os_Stat w;
     os_ReadDir := os_ReadDir w;
     ioutil_ReadDir := ioutil_ReadDir w;
     os_ReadFile := os_ReadFile w;
     os_Getwd := os_Getwd w;
     path_Join := path_Join w;
     filepath_Join := filepath_Join w;
     range_order := fun V m => reverse (range_order w V m);
     hclsyntax_ParseConfig := hclsyntax_ParseConfig w;
     hclparse_ParseHCLFile := hclparse_ParseHCLFile w;
     hclparse_ParseJSONFile := hclparse_ParseJSONFile w;
     loadBlocksFromFile := loadBlocksFromFile w;
     NewBlock := NewBlock w;
     RemoteVariablesLoader_Load := RemoteVariablesLoader_Load w;
     ModuleLoader_Load := ModuleLoader_Load w;
     Evaluator_MissingVars := Evaluator_MissingVars w;
     Evaluator_Run := Evaluator_Run w |}.

Definition owner_input : gmap string string :=
  {[ "owner" := "platform"; "region" := "eu-west-1" ]}.

(** Two parsers for the same sources, in stores laid out differently. *)
Definition first_run : Parser * State :=
  New region_world "proj" [OptionWithInputVars region_world owner_input] empty_state.

Definition second_run : Parser * State :=
  New (reversed region_world) "proj"
    [OptionWithTFEnvVars (reversed region_world) ∅;
     OptionWithInputVars (reversed region_world) owner_input]
    empty_state.

(** A parser that reads the environment and takes a direct input. *)
Definition tagged_parser : Parser * State :=
  New tagged_world "proj"
    [OptionWithTFEnvVars tagged_world ∅;
     OptionWithInputVars tagged_world {[ "owner" := "platform" ]}]
    empty_state.

(** A file of which the toy parser reads one block before it fails. *)
Definition partial_disk : Disk :=
  {| disk_dirs := [("proj", [file_info "bad.tf"; file_info "main.tf"])];
     disk_files :=
       [("proj/bad.tf", "resource aws_s3_bucket logs" +:+ newline +:+ "{{{" +:+ newline);
        ("proj/main.tf", "resource aws_instance web" +:+ newline)] |}.

Definition partial_world : World := toy_world [] partial_disk (∅, None).

(** A directory whose only file to parse fails after its first block. *)
Definition bucket_block : hcl_Block :=
  {| Type_ := "resource"; Labels := ["aws_s3_bucket"; "logs"];
     DefRange_Filename := "proj/bad.tf" |}.

Definition lone_disk : Disk :=
  {| disk_dirs := [("proj", [file_info "README.md"; file_info "bad.tf"])];
     disk_files :=
       [("proj/README.md", "notes" +:+ newline);
        ("proj/bad.tf", "resource aws_s3_bucket logs" +:+ newline +:+ "{{{" +:+ newline)] |}.

Definition lone_world : World := toy_world [] lone_disk (∅, None).

(** The blocks of the module a run of [ParseDirectory] returns, as they
    were read from the files. *)
Definition module_blocks (result : option HclModule * option error)
  : option (list hcl_Block) :=
  (fun root => hclBlock <$> Blocks root) <$> result.1.

(** A default variable file that is well formed, and an explicit one that
    sets the same variable with a malformed expression. *)
Definition override_disk : Disk :=
  {| disk_dirs :=
       [("proj", [file_info "main.tf"; file_info "prod.tfvars";
                  file_info "terraform.tfvars"])];
     disk_files :=
       [("proj/main.tf", "resource aws_instance web" +:+ newline);
        ("proj/prod.tfvars", "region = us-east-1a" +:+ newline);
        ("proj/terraform.tfvars", assignment "region" "us-east-1")] |}.

Definition override_world : World := toy_world [] override_disk (∅, None).

(** The same world, with a directory that cannot be listed; what is in it
    can still be reached by its path. *)
Definition permission_denied : error := errors_New "permission denied".

Definition unlistable (dir : string) (w : World) : World :=
  let ReadDir (read : string -> list FileInfo * option error) (path : string) :=
    if String.eqb path dir then ([], Some permission_denied) else read path in
  {| os_Environ := os_Environ w;
     os_Stat := os_Stat w;
     os_ReadDir := ReadDir (os_ReadDir w);
     ioutil_ReadDir := ReadDir (ioutil_ReadDir w);
     os_ReadFile := os_ReadFile w;
     os_Getwd := os_Getwd w;
     path_Join := path_Join w;
     filepath_Join := filepath_Join w;
     range_order := range_order w;
     hclsyntax_ParseConfig := hclsyntax_ParseConfig w;
     hclparse_ParseHCLFile := hclparse_ParseHCLFile w;
     hclparse_ParseJSONFile := hclparse_ParseJSONFile w;
     loadBlocksFromFile := loadBlocksFromFile w;
     NewBlock := NewBlock w;
     RemoteVariablesLoader_Load := RemoteVariablesLoader_Load w;
     ModuleLoader_Load := ModuleLoader_Load w;
     Evaluator_MissingVars := Evaluator_MissingVars w;
     Evaluator_Run := Evaluator_Run w |}.

Definition locked_world : World := unlistable "proj" region_world.

(** ** What the options leave in the input map *)

(** The variable a flag [name=value] sets; a flag that does not split in
    two at "=" sets none. *)
Definition flag_entry (v : string) : option (string * cty_Value) :=
  match strings_Split v "=" with
  | [name; value] => Some (name, cty_StringVal value)
  | _ => None
  end.

(** The warning [ParseDirectory] writes for the variables [v] that have no
    value. *)
Definition missing_vars_warning (v : list string) : entry :=
  {| level := WarnLevel;
     format := "Input values were not provided for following Terraform variables: %s. %s";
     operands :=
       [op_string (strings_TrimRight (strings_Join v ", ") ", ");
        op_string "Use --terraform-var-file or --terraform-var to specify them."] |}.

(** The same world with other collaborators for the stages after variable
    resolution: the module loader, the working directory, the variables
    the evaluator misses. *)
Definition with_stages
    (load : option modules_ModuleLoader -> modules_Manifest * option error)
    (getwd : string * option error) (missing : Evaluator -> list string)
    (w : World) : World :=
  {| os_Environ := os_Environ w;
     os_Stat := os_Stat w;
     os_ReadDir := os_ReadDir w;
     ioutil_ReadDir := ioutil_ReadDir w;
     os_ReadFile := os_ReadFile w;
     os_Getwd := getwd;
     path_Join := path_Join w;
     filepath_Join := filepath_Join w;
     range_order := range_order w;
     hclsyntax_ParseConfig := hclsyntax_ParseConfig w;
     hclparse_ParseHCLFile := hclparse_ParseHCLFile w;
     hclparse_ParseJSONFile := hclparse_ParseJSONFile w;
     loadBlocksFromFile := loadBlocksFromFile w;
     NewBlock := NewBlock w;
     RemoteVariablesLoader_Load := RemoteVariablesLoader_Load w;
     ModuleLoader_Load := load;
     Evaluator_MissingVars := missing;
     Evaluator_Run := Evaluator_Run w |}.

(** A configuration with variables nobody gave a value. *)
Definition asking_world : World :=
  with_stages (ModuleLoader_Load region_world) (os_Getwd region_world)
    (fun _ => ["zone"; "owner"]) region_world.

(** A world in which the modules cannot be fetched. *)
Definition network_unreachable : error := errors_New "network unreachable".

Definition offline_world : World :=
  with_stages (fun _ => ({| manifest_entries := [] |}, Some network_unreachable))
    (os_Getwd region_world) (fun _ => ["zone"; "owner"]) region_world.

(** The warning [loadVars] logs for a default variable file it skips. *)
Definition skipped_var_file (name : string) (err : error) : entry :=
  {| level := WarnLevel;
     format := "could not load vars from auto var file %s err: %s";
     operands := [op_string name; op_error err] |}.

(** A directory with an entry that has the name of an auto-loaded variable
    file and is a directory. *)
Definition auto_dir_disk : Disk :=
  {| disk_dirs :=
       [("proj", [{| fi_Name := "conf.auto.tfvars"; fi_IsDir := true |};
                  file_info "main.tf"; file_info "terraform.tfvars"]);
        ("proj/conf.auto.tfvars", [])];
     disk_files :=
       [("proj/main.tf", "resource aws_instance web" +:+ newline);
        ("proj/terraform.tfvars", assignment "region" "us-east-1")] |}.

Definition auto_dir_world : World := toy_world [] auto_dir_disk (∅, None).

(** ** The logger of package config

    The sorting function [ConfigureLogger] gives the text formatter of the
    logger: it works on the slice of the keys of a log entry, in place. *)

(** [keys[i], keys[j] = keys[j], keys[i]], for indices of the slice. *)
Definition swap_keys (keys : list string) (i j : nat) : list string :=
  match keys !! i, keys !! j with
  | Some a, Some b => <[j := a]> (<[i := b]> keys)
  | _, _ => keys
  end.

(** The loop over [keys], at index [i] with [rest] to visit; the swap is
    followed by [break]. *)
Fixpoint SortingFunc_loop (keys : list string) (i : nat) (rest : list string)
  : list string :=
  match rest with
  | [] => keys
  | key :: rest' =>
      if String.eqb key "msg" && negb (i =? length keys - 1)%nat
      then swap_keys keys i (length keys - 1)
      else SortingFunc_loop keys (S i) rest'
  end.

Definition SortingFunc (keys : list string) : list string :=
  SortingFunc_loop keys 0 keys.

(** * Properties *)

(** ** Maps and the store *)

Ltac run := unfold mbind, M_bind, mret, M_ret in *; simpl in *.

Section Maps.
Context {V : Type}.
Implicit Types (m base : gmap string V) (l : list (string * V)).

Lemma fold_left_put l base :
  fold_left put l base = list_to_map (reverse l) ∪ base.
Proof.
  revert base. induction l as [|[k v] l IH]; intros base; simpl.
  - change (reverse []) with (@nil (string * V)). simpl. by rewrite (left_id_L ∅ (∪)).
  - rewrite IH, reverse_cons, list_to_map_app. simpl.
    rewrite <- (assoc_L (∪)). f_equal. unfold put. simpl.
    rewrite insert_empty. by rewrite <- insert_union_singleton_l.
Qed.

Lemma fold_left_put_range l m base :
  l ≡ₚ map_to_list m -> fold_left put l base = m ∪ base.
Proof.
  intros Hl. rewrite fold_left_put. f_equal.
  assert (NoDup l.*1) as Hnd.
  { rewrite Hl. apply NoDup_fst_map_to_list. }
  rewrite <- (list_to_map_to_list m).
  apply list_to_map_proper.
  - rewrite reverse_Permutation. done.
  - by rewrite reverse_Permutation.
Qed.
End Maps.

Lemma only_logs_refl st : only_logs st st.
Proof. by repeat split. Qed.

Lemma only_logs_trans st1 st2 st3 :
  only_logs st1 st2 -> only_logs st2 st3 -> only_logs st1 st3.
Proof.
  intros (?&?&?&?) (?&?&?&?). repeat split; try congruence.
  by etrans.
Qed.

Lemma only_logs_content st st' l : only_logs st st' -> content st' l = content st l.
Proof. intros (_&Hm&_). unfold content. by rewrite Hm. Qed.

Lemma log_entry_only_logs e st : only_logs st (log_entry e st).2.
Proof. repeat split; simpl. by apply prefix_app_r. Qed.

Lemma updates_refl dst st : updates dst (content st dst) st st.
Proof. by repeat split. Qed.

Lemma updates_trans dst m m' st1 st2 st3 :
  updates dst m st1 st2 -> updates dst m' st2 st3 -> updates dst m' st1 st3.
Proof.
  intros (?&?&?&Hf1&?) (?&?&?&Hf2&?). repeat split; try congruence.
  - intros l Hl. rewrite Hf2, Hf1; done.
  - by etrans.
Qed.

Lemma only_logs_updates dst st st' :
  only_logs st st' -> updates dst (content st dst) st st'.
Proof.
  intros H. pose proof (only_logs_content _ _ dst H).
  destruct H as (?&?&?&?). repeat split; try done.
  intros l _. unfold content. congruence.
Qed.

Lemma only_logs_then_updates dst m st1 st2 st3 :
  only_logs st1 st2 -> updates dst m st2 st3 -> updates dst m st1 st3.
Proof.
  intros H1 H2. eapply updates_trans; [|exact H2].
  apply only_logs_updates, H1.
Qed.

Lemma only_logs_then dst (f : gmap string cty_Value -> gmap string cty_Value) st1 st2 st3 :
  only_logs st1 st2 -> updates dst (f (content st2 dst)) st2 st3 ->
  updates dst (f (content st1 dst)) st1 st3.
Proof.
  intros H1 H2. rewrite <- (only_logs_content _ _ dst H1).
  by eapply only_logs_then_updates.
Qed.

Lemma updates_then dst m (f : gmap string cty_Value -> gmap string cty_Value) st1 st2 st3 :
  updates dst m st1 st2 -> updates dst (f (content st2 dst)) st2 st3 ->
  updates dst (f m) st1 st3.
Proof.
  intros H1 H2. pose proof H1 as (<-&_). by eapply updates_trans.
Qed.

Lemma content_map_store dst k v st l :
  content (map_store dst k v st).2 l
  = if decide (l = dst) then <[k := v]> (content st dst) else content st l.
Proof.
  unfold content at 1. simpl. case_decide as Hl.
  - subst. by rewrite lookup_insert_eq.
  - by rewrite lookup_insert_ne.
Qed.

Lemma map_store_updates dst k v st :
  updates dst (<[k := v]> (content st dst)) st (map_store dst k v st).2
  /\ logs (map_store dst k v st).2 = logs st.
Proof.
  repeat split; try done.
  - rewrite content_map_store. by case_decide.
  - intros l Hl. rewrite content_map_store. by case_decide.
Qed.

Lemma for_each_store l dst st :
  let st' := (for_each l (fun kv : string * cty_Value => map_store dst kv.1 kv.2) st).2 in
  updates dst (fold_left put l (content st dst)) st st' /\ logs st' = logs st.
Proof.
  revert st. induction l as [|[k v] l IH]; intros st; simpl.
  - split; [apply updates_refl | done].
  - run. destruct (IH (map_store dst k v st).2) as [IH1 IH2].
    destruct (map_store_updates dst k v st) as [H1 H2].
    split.
    + eapply updates_trans; [exact H1|].
      destruct H1 as (H1&_). rewrite H1 in IH1. exact IH1.
    + simpl in *. exact IH2.
Qed.

Lemma copy_entries_updates w src dst st :
  range_ok w ->
  updates dst (src ∪ content st dst) st (copy_entries w src dst st).2
  /\ logs (copy_entries w src dst st).2 = logs st.
Proof.
  intros Hw. unfold copy_entries.
  pose proof (for_each_store (range_order w _ src) dst st) as H. simpl in H.
  rewrite (fold_left_put_range _ src) in H by apply Hw. exact H.
Qed.

Lemma loadVarFile_attrs filename (l : list (string * hcl_Expression)) acc st :
  let r := for_acc l (fun (inputVars : gmap string cty_Value) attr =>
      log_Debugf "Setting '%s' from tfvars file at %s"
        [op_string attr.1; op_string filename] ;;
      let '(value, _) := Expr_Value attr.2 in
      mret (<[attr.1 := value]> inputVars)) acc st in
  r.1 = fold_left put (prod_map id attr_value <$> l) acc /\ only_logs st r.2.
Proof.
  revert acc st. induction l as [|[k e] l IH]; intros acc st; simpl.
  - split; [done | apply only_logs_refl].
  - run. unfold log_Debugf.
    destruct (Expr_Value e) as [value d] eqn:He. simpl.
    match goal with |- context [for_acc l ?b ?a ?s] =>
      destruct (IH a s) as [IH1 IH2] end.
    split.
    + rewrite IH1. unfold put at 3, attr_value. simpl. by rewrite He.
    + eapply only_logs_trans; [|exact IH2]. apply log_entry_only_logs.
Qed.

Lemma loadVarFile_spec w filename st :
  range_ok w ->
  (loadVarFile w filename st).1 = file_vars w filename
  /\ only_logs st (loadVarFile w filename st).2.
Proof.
  intros Hw. unfold loadVarFile, file_vars.
  destruct (String.eqb filename "") eqn:Hn.
  { split; [done | apply only_logs_refl]. }
  run. unfold log_Debugf.
  destruct (os_ReadFile w filename) as [src [err|]] eqn:Hr.
  { simpl. split; [done | apply log_entry_only_logs]. }
  destruct (hclsyntax_ParseConfig w src filename) as [variableFile d1] eqn:Hp.
  destruct (JustAttributes (Body variableFile)) as [attrs d2] eqn:Ha.
  match goal with |- context [for_acc ?l ?b ?a ?s] =>
    pose proof (loadVarFile_attrs filename l a s) as [H1 H2]; run;
    destruct (for_acc l b a s) as [vars st'] eqn:Hf end.
  simpl in *. split.
  - f_equal. rewrite H1.
    rewrite (fold_left_put_range _ (attr_value <$> attrs)).
    + rewrite Ha. simpl. by rewrite (right_id_L ∅ (∪)).
    + rewrite (Hw _ attrs). by rewrite map_to_list_fmap.
  - eapply only_logs_trans; [|exact H2]. apply log_entry_only_logs.
Qed.

Lemma loadAndCombineVars_spec w filename dst st :
  range_ok w ->
  let r := loadAndCombineVars w filename dst st in
  match file_vars w filename with
  | (_, Some err) => r.1 = Some (load_error err) /\ only_logs st r.2
  | (vars, None) => r.1 = None /\ updates dst (vars ∪ content st dst) st r.2
  end.
Proof.
  intros Hw. unfold loadAndCombineVars. run.
  destruct (loadVarFile_spec w filename st Hw) as [H1 H2].
  destruct (loadVarFile w filename st) as [[vars err] st1]. simpl in *.
  rewrite <- H1. destruct err as [err|]; simpl.
  - done.
  - destruct (copy_entries_updates w vars dst st1 Hw) as [H3 _].
    destruct (copy_entries w vars dst st1) as [[] st2]. simpl in *.
    split; [done|].
    eapply only_logs_then_updates; [exact H2|].
    by rewrite (only_logs_content _ _ dst H2) in H3.
Qed.

Lemma default_files_spec w names dst st :
  range_ok w ->
  let r := for_each names (fun name =>
    err ← loadAndCombineVars w name dst;
    match err with
    | Some err =>
        log_Warnf "could not load vars from auto var file %s err: %s"
          [op_string name; op_error err]
    | None => mret tt
    end) st in
  updates dst (merge_default_files w names (content st dst)) st r.2.
Proof.
  intros Hw. revert st. induction names as [|name names IH]; intros st; simpl.
  - apply updates_refl.
  - run. pose proof (loadAndCombineVars_spec w name dst st Hw) as H. simpl in H.
    destruct (loadAndCombineVars w name dst st) as [err st1]. simpl in *.
    destruct (file_vars w name) as [vars [e|]]; destruct H as [-> H]; simpl.
    + unfold log_Warnf.
      match goal with |- context [for_each names ?b ?s] =>
        pose proof (IH s) as IH' end.
      assert (only_logs st (log_entry
        {| level := WarnLevel;
           format := "could not load vars from auto var file %s err: %s";
           operands := [op_string name; op_error (load_error e)] |} st1).2) as Hl.
      { eapply only_logs_trans; [exact H|]. apply log_entry_only_logs. }
      exact (only_logs_then dst (merge_default_files w names) _ _ _ Hl IH').
    + pose proof (IH st1) as IH'.
      exact (updates_then dst _ (merge_default_files w names) _ _ _ H IH').
Qed.

Lemma explicit_files_spec w names dst st :
  range_ok w ->
  let r := for_return names (fun (_ : unit) filename =>
    err ← loadAndCombineVars w filename dst;
    match err with
    | Some err => mret (inr (dst, Some err))
    | None => mret (inl tt)
    end) tt st in
  let spec := merge_explicit_files w names (content st dst) in
  updates dst spec.1 st r.2
  /\ r.1 = match spec.2 with
           | Some err => inr (dst, Some err)
           | None => inl tt
           end.
Proof.
  intros Hw. revert st. induction names as [|name names IH]; intros st; simpl.
  - split; [apply updates_refl | done].
  - run. pose proof (loadAndCombineVars_spec w name dst st Hw) as H. simpl in H.
    destruct (loadAndCombineVars w name dst st) as [err st1]. simpl in *.
    destruct (file_vars w name) as [vars [e|]]; destruct H as [-> H]; simpl.
    + split; [|done]. by apply only_logs_updates.
    + destruct (IH st1) as [IH1 IH2].
      match goal with |- context [for_return names ?b ?a ?s] =>
        destruct (for_return names b a s) as [res st2] end.
      simpl in *. pose proof H as (Hc&_). rewrite Hc in IH1, IH2.
      split.
      * eapply updates_trans; [exact H | exact IH1].
      * exact IH2.
Qed.

Lemma loadVars_files_spec w p filenames dst st :
  range_ok w ->
  (forall l, inputVars p = Some l -> l <> dst) ->
  let r := loadVars_files w p filenames dst st in
  let spec := resolved_files w p filenames (content st dst)
                (field_content st (inputVars p)) in
  r.1 = (dst, spec.2) /\ updates dst spec.1 st r.2.
Proof.
  intros Hw Hin. unfold loadVars_files, resolved_files. run.
  match goal with |- context [for_each (defaultVarFiles p) ?b st] =>
    pose proof (default_files_spec w (defaultVarFiles p) dst st Hw) as Hd;
    run; destruct (for_each (defaultVarFiles p) b st) as [[] st1] end.
  simpl in Hd.
  match goal with |- context [for_return filenames ?b tt st1] =>
    pose proof (explicit_files_spec w filenames dst st1 Hw) as He;
    run; destruct (for_return filenames b tt st1) as [res st2] end.
  simpl in He. destruct He as [He1 He2].
  pose proof Hd as (Hc&_). rewrite Hc in He1, He2.
  destruct (merge_explicit_files w filenames
              (merge_default_files w (defaultVarFiles p) (content st dst)))
    as [m [err|]]; simpl in *; subst res; simpl.
  - split; [done|]. eapply updates_trans; eauto.
  - assert (updates dst m st st2) as H2 by (eapply updates_trans; eauto).
    destruct (inputVars p) as [li|] eqn:Hli; simpl.
    + destruct (copy_entries_updates w (content st2 li) dst st2 Hw) as [H3 _].
      destruct (copy_entries w (content st2 li) dst st2) as [[] st3]. simpl in *.
      split; [done|].
      pose proof H2 as (Hc2&_&_&Hf&_).
      rewrite Hc2, (Hf li) in H3 by (by apply Hin).
      eapply updates_trans; eauto.
    + split; [done|]. by rewrite (left_id_L ∅ (∪)).
Qed.

Lemma make_map_content st l :
  content (make_map st).2 l = if decide (l = next st) then ∅ else content st l.
Proof.
  unfold content at 1. simpl. case_decide as Hl.
  - subst. by rewrite lookup_insert_eq.
  - by rewrite lookup_insert_ne.
Qed.

Lemma loadVars_from w p blocks filenames (st st1 : State) dst env :
  range_ok w ->
  (forall l, inputVars p = Some l -> l <> dst) ->
  content st1 dst = env ->
  (forall l, l <> dst -> content st1 l = content st l) ->
  written st1 = written st -> logs st1 = logs st ->
  let r :=
    match remoteVariablesLoader p with
    | Some loader =>
        let '(remoteVars, err) := RemoteVariablesLoader_Load w loader blocks in
        match err with
        | Some err =>
            log_Warnf "could not load vars from Terraform Cloud: %s" [op_error err] ;;
            mret (dst, Some err)
        | None =>
            copy_entries w remoteVars dst ;;
            loadVars_files w p filenames dst
        end
    | None => loadVars_files w p filenames dst
    end st1 in
  let spec := resolved w p blocks filenames env (field_content st (inputVars p)) in
  r.1 = (dst, spec.2)
  /\ content r.2 dst = spec.1
  /\ (forall l, l <> dst -> content r.2 l = content st l)
  /\ written r.2 = written st
  /\ logs st `prefix_of` logs r.2.
Proof.
  intros Hw Hin Hdst Hframe Hwr Hlg. unfold resolved.
  assert (forall base st2, content st2 dst = base ->
            (forall l, l <> dst -> content st2 l = content st l) ->
            written st2 = written st -> logs st `prefix_of` logs st2 ->
            let r := loadVars_files w p filenames dst st2 in
            let spec := resolved_files w p filenames base
                          (field_content st (inputVars p)) in
            r.1 = (dst, spec.2) /\ content r.2 dst = spec.1
            /\ (forall l, l <> dst -> content r.2 l = content st l)
            /\ written r.2 = written st /\ logs st `prefix_of` logs r.2) as Hfiles.
  { intros base st2 Hb Hf2 Hw2 Hl2.
    destruct (loadVars_files_spec w p filenames dst st2 Hw Hin) as [H1 H2].
    assert (field_content st2 (inputVars p) = field_content st (inputVars p)) as Hi2.
    { destruct (inputVars p) as [li|] eqn:Hli; simpl; [|done]. by apply Hf2, Hin. }
    rewrite Hb, Hi2 in H1, H2. simpl. split; [exact H1|].
    destruct H2 as (?&?&?&Hf3&?). repeat split; try congruence.
    - intros l Hl. rewrite Hf3, Hf2; done.
    - by etrans. }
  destruct (remoteVariablesLoader p) as [loader|].
  - destruct (RemoteVariablesLoader_Load w loader blocks) as [remoteVars [err|]].
    + run. rewrite Hlg. repeat split; try done. by apply prefix_app_r.
    + run. destruct (copy_entries_updates w remoteVars dst st1 Hw) as [H3 H4].
      destruct (copy_entries w remoteVars dst st1) as [[] st2]. simpl in *.
      destruct H3 as (?&?&?&Hf3&?).
      apply Hfiles; try congruence;
        try (intros l Hl; rewrite Hf3, Hframe; done);
        try (rewrite H4, Hlg; done).
  - apply Hfiles; try done. by rewrite Hlg.
Qed.

Lemma loadVars_spec w p blocks filenames st :
  range_ok w -> wf_parser st p ->
  let r := loadVars w p blocks filenames st in
  let dst := default (next st) (tfEnvVars p) in
  let spec := resolved w p blocks filenames (field_content st (tfEnvVars p))
                (field_content st (inputVars p)) in
  r.1 = (dst, spec.2)
  /\ content r.2 dst = spec.1
  /\ (forall l, l <> dst -> content r.2 l = content st l)
  /\ written r.2 = written st
  /\ logs st `prefix_of` logs r.2.
Proof.
  intros Hw (Hwf1&Hwf2&Hwf3).
  destruct (tfEnvVars p) as [l|] eqn:Htf; simpl.
  - pose proof (loadVars_from w p blocks filenames st st l (content st l) Hw) as H.
    unfold loadVars. rewrite Htf. apply H; try done.
    intros li Hli ->. by eapply Hwf3.
  - pose proof (loadVars_from w p blocks filenames st (make_map st).2 (next st) ∅ Hw) as H.
    unfold loadVars. rewrite Htf. apply H; try done.
    + intros li Hli. apply Hwf2 in Hli. lia.
    + rewrite make_map_content. by case_decide.
    + intros l Hl. rewrite make_map_content. by case_decide.
Qed.

(** ** Precedence of the sources *)

Lemma highest_snoc k srcs m :
  highest k (srcs ++ [m])
  = match m !! k with Some v => Some v | None => highest k srcs end.
Proof.
  unfold highest. rewrite reverse_app. simpl.
  change (reverse [m]) with [m]. simpl. by destruct (m !! k).
Qed.

Lemma lookup_overlay_all k srcs base :
  fold_left overlay srcs base !! k
  = match highest k srcs with Some v => Some v | None => base !! k end.
Proof.
  induction srcs as [|m srcs IH] using rev_ind.
  - done.
  - rewrite fold_left_app, highest_snoc. simpl. unfold overlay at 1.
    rewrite lookup_union, IH.
    destruct (m !! k), (highest k srcs), (base !! k); done.
Qed.

Lemma merge_default_files_overlay w names base :
  merge_default_files w names base = fold_left overlay (loaded_files w names) base.
Proof.
  revert base. unfold merge_default_files, loaded_files.
  induction names as [|name names IH]; intros base; simpl; [done|].
  rewrite IH. by destruct (file_vars w name) as [vars [e|]].
Qed.

Lemma merge_explicit_files_overlay w names base :
  Forall (readable w) names ->
  merge_explicit_files w names base
  = (fold_left overlay (loaded_files w names) base, None).
Proof.
  intros H. revert base. unfold loaded_files.
  induction H as [|name names Hr _ IH]; intros base; simpl; [done|].
  unfold readable in Hr. destruct (file_vars w name) as [vars [e|]]; [done|].
  simpl. by rewrite IH.
Qed.

Lemma resolved_sources w p blocks filenames env inputs :
  remote_succeeds w p blocks -> Forall (readable w) filenames ->
  resolved w p blocks filenames env inputs
  = (fold_left overlay (sources w p blocks filenames env inputs) ∅, None).
Proof.
  intros Hr Hf. unfold resolved, resolved_files, sources, remote_source.
  assert (forall base,
    (let (m, o) := merge_explicit_files w filenames
                     (merge_default_files w (defaultVarFiles p) base) in
     match o with Some err => (m, Some err) | None => (inputs ∪ m, None) end)
    = (fold_left overlay (loaded_files w (defaultVarFiles p)
                          ++ loaded_files w filenames ++ [inputs]) base, None)) as H.
  { intros base. rewrite merge_default_files_overlay.
    rewrite merge_explicit_files_overlay by done.
    by rewrite !fold_left_app. }
  simpl. unfold overlay at 2. rewrite (right_id_L ∅ (∪)).
  destruct (remoteVariablesLoader p) as [loader|] eqn:Hl.
  - specialize (Hr loader Hl).
    destruct (RemoteVariablesLoader_Load w loader blocks) as [rv err].
    simpl in *. subst err. simpl. by rewrite H.
  - simpl. by rewrite H.
Qed.

(** ** Variables from the environment *)

Lemma substring_0_length s : substring 0 (String.length s) s = s.
Proof. induction s as [|c s IH]; simpl; [done | by rewrite IH]. Qed.

Lemma slice_from_0 s : slice_from 0 s = s.
Proof. unfold slice_from. rewrite Nat.sub_0_r. apply substring_0_length. Qed.

Lemma slice_from_S n c s : slice_from (S n) (String c s) = slice_from n s.
Proof. done. Qed.

Lemma HasPrefix_split s prefix :
  strings_HasPrefix s prefix = true ->
  s = prefix +:+ slice_from (String.length prefix) s.
Proof.
  unfold strings_HasPrefix. revert s.
  induction prefix as [|a prefix IH]; intros s H; simpl.
  - by rewrite slice_from_0.
  - destruct s as [|b s]; simpl in H; [done|].
    destruct (ascii_dec a b) as [->|]; [|done].
    rewrite slice_from_S.
    change (String b s = String b (prefix +:+ slice_from (String.length prefix) s)).
    f_equal. by apply IH.
Qed.

Lemma HasPrefix_app prefix s : strings_HasPrefix (prefix +:+ s) prefix = true.
Proof.
  unfold strings_HasPrefix. induction prefix as [|a prefix IH]; simpl.
  - by destruct s.
  - by destruct (ascii_dec a a).
Qed.

Lemma slice_from_app prefix s : slice_from (String.length prefix) (prefix +:+ s) = s.
Proof.
  induction prefix as [|a prefix IH].
  - apply slice_from_0.
  - exact IH.
Qed.

Lemma project_entry_key kv name v :
  project_entry kv = Some (name, v) ->
  kv.1 = TF_VAR_ +:+ name /\ v = cty_StringVal kv.2.
Proof.
  unfold project_entry. destruct (strings_HasPrefix kv.1 TF_VAR_) eqn:H; [|done].
  intros [= <- <-]. split; [|done]. by apply HasPrefix_split.
Qed.

Lemma project_entries_NoDup (projectEnv : gmap string string) :
  NoDup (omap project_entry (map_to_list projectEnv)).*1.
Proof.
  pose proof (NoDup_fst_map_to_list projectEnv) as Hnd.
  induction (map_to_list projectEnv) as [|kv l IH]; simpl; [constructor|].
  inversion Hnd as [|? ? Hnotin Hnd']; subst.
  destruct (project_entry kv) as [[name v]|] eqn:Hkv; simpl; [|by apply IH].
  constructor; [|by apply IH].
  intros Hin. apply Hnotin.
  apply list_elem_of_fmap in Hin as ([name' v']&Hname&Hin). simpl in Hname. subst name'.
  apply list_elem_of_omap in Hin as (kv'&Hin&Hkv').
  apply project_entry_key in Hkv as [Hk _].
  apply project_entry_key in Hkv' as [Hk' _].
  apply list_elem_of_fmap. exists kv'. split; [congruence | done].
Qed.

Lemma lookup_project_vars projectEnv name :
  project_vars projectEnv !! name
  = cty_StringVal <$> projectEnv !! (TF_VAR_ +:+ name).
Proof.
  unfold project_vars.
  destruct (projectEnv !! (TF_VAR_ +:+ name)) as [v|] eqn:Hv; simpl.
  - apply elem_of_list_to_map; [apply project_entries_NoDup|].
    apply list_elem_of_omap. exists (TF_VAR_ +:+ name, v). split.
    + by apply elem_of_map_to_list.
    + unfold project_entry. cbn [fst snd].
      by rewrite HasPrefix_app, slice_from_app.
  - apply not_elem_of_list_to_map. intros Hin.
    apply list_elem_of_fmap in Hin as ([name' v']&Hname&Hin). simpl in Hname. subst name'.
    apply list_elem_of_omap in Hin as ([k v]&Hin&Hkv).
    apply project_entry_key in Hkv as [Hk _]. simpl in Hk. subst k.
    apply elem_of_map_to_list in Hin. congruence.
Qed.

Lemma for_each_entries {A : Type} (l : list A) (f : A -> option (string * cty_Value))
    (body : A -> M unit) dst st :
  (forall a, body a = match f a with
                      | Some kv => map_store dst kv.1 kv.2
                      | None => mret tt
                      end) ->
  updates dst (fold_left put (omap f l) (content st dst)) st (for_each l body st).2
  /\ logs (for_each l body st).2 = logs st.
Proof.
  intros Hbody. revert st. induction l as [|a l IH]; intros st; simpl.
  - split; [apply updates_refl | done].
  - run. rewrite Hbody. destruct (f a) as [[k v]|]; simpl.
    + destruct (IH (map_store dst k v st).2) as [IH1 IH2].
      destruct (map_store_updates dst k v st) as [H1 H2].
      split; [|exact IH2].
      exact (updates_then dst _ (fold_left put (omap f l)) _ _ _ H1 IH1).
    + apply IH.
Qed.

Lemma OptionWithTFEnvVars_spec w projectEnv p st :
  range_ok w ->
  let r := OptionWithTFEnvVars w projectEnv p st in
  r.1 = set_tfEnvVars (Some (next st)) p
  /\ content r.2 (next st) = project_vars projectEnv ∪ environ_vars (os_Environ w)
  /\ (forall l, l <> next st -> content r.2 l = content st l)
  /\ next r.2 = S (next st)
  /\ logs r.2 = logs st /\ written r.2 = written st.
Proof.
  intros Hw. unfold OptionWithTFEnvVars. unfold mbind, M_bind, mret, M_ret.
  assert (make_map st = (next st, (make_map st).2)) as Hmk by done.
  rewrite Hmk. clear Hmk.
  set (dst := next st). set (st0 := (make_map st).2). cbn beta iota zeta.
  match goal with |- context [for_each (os_Environ w) ?b st0] =>
    destruct (for_each_entries (os_Environ w) environ_entry b dst st0) as [H1 H2] end.
  { intros v. unfold environ_entry. destruct (strings_HasPrefix v TF_VAR_); [|done].
    destruct (strings_Split _ "=") as [|? [|? [|? ?]]]; done. }
  match goal with |- context [for_each (os_Environ w) ?b st0] =>
    destruct (for_each (os_Environ w) b st0) as [[] st1] end.
  cbn [fst snd] in *.
  match goal with |- context [for_each (range_order w _ projectEnv) ?b st1] =>
    destruct (for_each_entries (range_order w _ projectEnv) project_entry b dst st1)
      as [H3 H4] end.
  { intros kv. unfold project_entry. by destruct (strings_HasPrefix kv.1 TF_VAR_). }
  match goal with |- context [for_each (range_order w _ projectEnv) ?b st1] =>
    destruct (for_each (range_order w _ projectEnv) b st1) as [[] st2] end.
  cbn [fst snd] in *.
  assert (content st0 dst = ∅) as Hc0.
  { subst st0 dst. rewrite make_map_content. by case_decide. }
  assert (next st0 = S (next st) /\ logs st0 = logs st /\ written st0 = written st)
    as (Hn0&Hl0&Hw0) by done.
  destruct H1 as (Hc1&Hn1&Hw1&Hf1&_). destruct H3 as (Hc3&Hn3&Hw3&Hf3&_).
  split; [done|]. split; [|split; [|repeat split; subst dst; congruence]].
  - rewrite Hc3, Hc1, Hc0. fold (environ_vars (os_Environ w)).
    rewrite fold_left_put. f_equal. unfold project_vars.
    apply list_to_map_proper.
    + rewrite reverse_Permutation, (Hw _ projectEnv). apply project_entries_NoDup.
    + by rewrite reverse_Permutation, (Hw _ projectEnv).
  - intros l Hl. rewrite Hf3, Hf1 by done. subst st0 dst.
    rewrite make_map_content. by case_decide.
Qed.

(** ** Resolution of variables *)

(** C1. Variable precedence. The variables of the environment are merged
    first, those of the process and then those of the project; [loadVars]
    then merges the remote variables, the default and auto variable files,
    the explicit variable files and the direct input, in this order, and
    every name resolves to the value of the last source of this order that
    has it. In the directory whose terraform.tfvars sets region to
    us-east-1 and whose a.auto.tfvars sets it to us-west-2, [loadVars]
    resolves region to eu-west-1 with that direct input, and to us-west-2
    without direct input. *)
Theorem loadVars_precedence :
  (forall w projectEnv p st k, range_ok w ->
     let r := OptionWithTFEnvVars w projectEnv p st in
     tfEnvVars r.1 = Some (next st)
     /\ content r.2 (next st) !! k
        = highest k [environ_vars (os_Environ w); project_vars projectEnv])
  /\ (forall w p blocks filenames st k,
        range_ok w -> wf_parser st p ->
        remote_succeeds w p blocks -> Forall (readable w) filenames ->
        let r := loadVars w p blocks filenames st in
        r.1.2 = None
        /\ content r.2 r.1.1 !! k
           = highest k (sources w p blocks filenames
                          (field_content st (tfEnvVars p))
                          (field_content st (inputVars p))))
  /\ region_resolution [direct_region] = (Some (cty_StringVal "eu-west-1"), None)
  /\ region_resolution [] = (Some (cty_StringVal "us-west-2"), None).
Proof.
  split; [|split; [|split]].
  - intros w projectEnv p st k Hw r.
    destruct (OptionWithTFEnvVars_spec w projectEnv p st Hw) as (H1&H2&_).
    fold r in H1, H2. rewrite H1, H2. split; [done|].
    rewrite lookup_union. unfold highest.
    rewrite !reverse_cons, reverse_nil. simpl.
    by destruct (project_vars projectEnv !! k),
              (environ_vars (os_Environ w) !! k).
  - intros w p blocks filenames st k Hw Hwf Hr Hf r.
    destruct (loadVars_spec w p blocks filenames st Hw Hwf) as (H1&H2&_).
    fold r in H1, H2. rewrite (resolved_sources _ _ _ _ _ _ Hr Hf) in H1, H2.
    cbn [fst snd] in H1, H2. rewrite H1. cbn [fst snd]. split; [done|].
    rewrite H2, lookup_overlay_all, lookup_empty.
    by destruct (highest k _).
  - by vm_compute.
  - by vm_compute.
Qed.

Lemma loadVars_precedence_witness :
  let r := New region_world "proj" [direct_region] empty_state in
  let r' := loadVars region_world r.1 [] (tfvarsPaths r.1) r.2 in
  r'.1.2 = None
  /\ content r'.2 r'.1.1 !! "region"
     = highest "region"
         (sources region_world r.1 [] (tfvarsPaths r.1)
            (field_content r.2 (tfEnvVars r.1)) (field_content r.2 (inputVars r.1))).
Proof.
  apply (proj1 (proj2 loadVars_precedence)).
  - intros V m. reflexivity.
  - repeat split; intros l; vm_compute; intros H; inversion H; lia.
  - intros loader. vm_compute. discriminate.
  - vm_compute. constructor.
Defined.

(** C3. When the remote loader is configured and its [Load] fails,
    [loadVars] returns that error, and with it the map of the variables
    merged so far: the variables derived from the environment (the
    parser's own map when it has one), and nothing else. A warning is
    logged. *)
Theorem loadVars_remote_failure :
  forall w p blocks filenames st loader err,
    remoteVariablesLoader p = Some loader ->
    (RemoteVariablesLoader_Load w loader blocks).2 = Some err ->
    let r := loadVars w p blocks filenames st in
    r.1.2 = Some err
    /\ content r.2 r.1.1 = field_content st (tfEnvVars p)
    /\ (forall l, tfEnvVars p = Some l -> r.1.1 = l)
    /\ {| level := WarnLevel;
          format := "could not load vars from Terraform Cloud: %s";
          operands := [op_error err] |} ∈ logs r.2.
Proof.
  intros w p blocks filenames st loader err Hl He r. subst r.
  unfold loadVars. rewrite Hl.
  destruct (RemoteVariablesLoader_Load w loader blocks) as [remoteVars e].
  simpl in He. subst e.
  destruct (tfEnvVars p) as [l|]; run.
  - repeat split; try done.
    + by intros l' [= ->].
    + apply elem_of_app. right. by apply list_elem_of_singleton.
  - repeat split; try done.
    + unfold content. simpl. by rewrite lookup_insert_eq.
    + apply elem_of_app. right. by apply list_elem_of_singleton.
Qed.

Lemma loadVars_remote_failure_witness :
  let r0 := New zone_world "proj"
              [OptionWithRemoteVarLoader "app.terraform.io" "token" "default"]
              empty_state in
  let r := loadVars zone_world r0.1 [] [] r0.2 in
  r.1.2 = Some remote_failure
  /\ content r.2 r.1.1 = field_content r0.2 (tfEnvVars r0.1)
  /\ (forall l, tfEnvVars r0.1 = Some l -> r.1.1 = l)
  /\ {| level := WarnLevel;
        format := "could not load vars from Terraform Cloud: %s";
        operands := [op_error remote_failure] |} ∈ logs r.2.
Proof.
  apply (loadVars_remote_failure zone_world _ [] [] _ cloud_loader); reflexivity.
Defined.

(** C4. A variable file that can be read is never rejected, and a
    malformed attribute expression does not keep the other attributes of
    the file from being evaluated and returned. The key of the malformed
    attribute is not left unset: the diagnostics of its evaluation are
    dropped and the key is bound to the value the evaluation returned with
    them. This value then prevails over the values sources of lower
    precedence give the key: with the file as the last explicit variable
    file and no direct input for the key, it is what [loadVars] resolves
    the key to. The code does not look at the diagnostics, so that an
    attribute is bound in the same way whether its expression is malformed
    or not. *)
Theorem loadVarFile_malformed_attribute :
  forall w filename src st name expr,
    range_ok w -> filename <> "" ->
    os_ReadFile w filename = (src, None) ->
    let attrs := (JustAttributes (Body (hclsyntax_ParseConfig w src filename).1)).1 in
    attrs !! name = Some expr ->
    HasErrors (Expr_Value expr).2 = true ->
    let r := loadVarFile w filename st in
    r.1.2 = None
    /\ r.1.1 !! name = Some (Expr_Value expr).1
    /\ (forall name' expr', attrs !! name' = Some expr' ->
          r.1.1 !! name' = Some (Expr_Value expr').1)
    /\ dom r.1.1 = dom attrs
    /\ (forall p blocks before st',
          wf_parser st' p -> remote_succeeds w p blocks ->
          Forall (readable w) before ->
          field_content st' (inputVars p) !! name = None ->
          let r' := loadVars w p blocks (before ++ [filename]) st' in
          r'.1.2 = None
          /\ content r'.2 r'.1.1 !! name = Some (Expr_Value expr).1).
Proof.
  intros w filename src st name expr Hw Hn Hr attrs Ha _ r.
  assert (file_vars w filename = (attr_value <$> attrs, None)) as Hfile.
  { unfold file_vars. apply String.eqb_neq in Hn. by rewrite Hn, Hr. }
  destruct (loadVarFile_spec w filename st Hw) as [H _]. fold r in H.
  rewrite H, Hfile. cbn [fst snd].
  assert (forall name' expr', attrs !! name' = Some expr' ->
            (attr_value <$> attrs) !! name' = Some (Expr_Value expr').1) as Hall.
  { intros name' expr' Hin. by rewrite lookup_fmap, Hin. }
  refine (conj eq_refl (conj (Hall _ _ Ha) (conj Hall (conj _ _))));
    [by rewrite dom_fmap_L|].
  intros p blocks before st' Hwf Hrem Hbefore Hinput.
  set (r' := loadVars w p blocks (before ++ [filename]) st').
  assert (Forall (readable w) (before ++ [filename])) as Hfiles.
  { apply Forall_app. split; [done|]. apply Forall_singleton.
    unfold readable. by rewrite Hfile. }
  destruct (loadVars_spec w p blocks (before ++ [filename]) st' Hw Hwf) as (H1&H2&_).
  fold r' in H1, H2. rewrite (resolved_sources _ _ _ _ _ _ Hrem Hfiles) in H1, H2.
  cbn [fst snd] in H1, H2. rewrite H1. cbn [fst snd]. split; [done|].
  rewrite H2, lookup_overlay_all. unfold sources.
  rewrite !(assoc_L (++)), highest_snoc, Hinput.
  unfold loaded_files at 2. rewrite omap_app, !(assoc_L (++)).
  change (omap _ [filename])
    with (match (match file_vars w filename with
                 | (vars, None) => Some vars
                 | (_, Some _) => None
                 end) with
          | Some vars => [vars]
          | None => []
          end).
  rewrite Hfile, highest_snoc. by rewrite (Hall _ _ Ha).
Qed.

Lemma loadVarFile_malformed_attribute_witness :
  let r := loadVarFile zone_world "proj/prod.tfvars" empty_state in
  r.1.2 = None
  /\ r.1.1 !! "zone" = Some cty_DynamicVal
  /\ r.1.1 !! "region" = Some (cty_StringVal "us-east-1").
Proof.
  pose proof (loadVarFile_malformed_attribute zone_world "proj/prod.tfvars"
    (assignment "region" "us-east-1" +:+ "zone = us-east-1a" +:+ newline)
    empty_state "zone" (toy_expression "us-east-1a")) as H.
  destruct H as (H1&H2&H3&_).
  - intros V m. reflexivity.
  - discriminate.
  - reflexivity.
  - by vm_compute.
  - reflexivity.
  - split; [exact H1|]. split; [exact H2|].
    apply (H3 "region" (toy_expression (quote +:+ "us-east-1" +:+ quote))).
    by vm_compute.
Defined.

(** The sentence of C4 as it was fails on the code: the key of a malformed
    attribute is set. The explicit file prod.tfvars has the malformed
    attribute [region = us-east-1a]; the key region is bound in what
    [loadVarFile] returns, and [loadVars], which resolves region to
    us-east-1 from terraform.tfvars without the file, resolves it with the
    file to the value returned with the diagnostics. *)
Lemma malformed_attribute_is_set :
  let w := override_world in
  let file := loadVarFile w "proj/prod.tfvars" empty_state in
  let without := New w "proj" [] empty_state in
  let r := New w "proj" [OptionWithTFVarsPaths w ["prod.tfvars"]] empty_state in
  let resolution (r : Parser * State) := loadVars w r.1 [] (tfvarsPaths r.1) r.2 in
  (exists expr,
     (JustAttributes
        (Body (hclsyntax_ParseConfig w (os_ReadFile w "proj/prod.tfvars").1
                 "proj/prod.tfvars").1)).1 !! "region" = Some expr
     /\ HasErrors (Expr_Value expr).2 = true)
  /\ file.1.1 !! "region" = Some cty_DynamicVal
  /\ content (resolution without).2 (resolution without).1.1 !! "region"
     = Some (cty_StringVal "us-east-1")
  /\ content (resolution r).2 (resolution r).1.1 !! "region" = Some cty_DynamicVal.
Proof.
  split; [|by vm_compute].
  exists (toy_expression "us-east-1a"). by vm_compute.
Qed.

(** ** Loading a directory *)

Lemma fold_left_snoc_map {A B : Type} (f : A -> B) (l : list A) (acc : list B) :
  fold_left (fun acc a => acc ++ [f a]) l acc = acc ++ (f <$> l).
Proof.
  revert acc. induction l as [|a l IH]; intros acc; simpl.
  - by rewrite app_nil_r.
  - rewrite IH. by rewrite <- app_assoc.
Qed.

Lemma loadDirectory_entries (w : World) (fullPath : string) (strict : bool)
    (infos : list FileInfo) (hclParser : hclparse_Parser) (st : State) :
  let r := for_return (S := hclparse_Parser) (R := list hcl_File * option error)
      infos (fun hclParser info =>
      if fi_IsDir info then mret (inl hclParser)
      else
        match select_parseFunc w (fi_Name info) with
        | None => mret (inl hclParser)
        | Some parseFunc =>
            let path := filepath_Join w fullPath (fi_Name info) in
            let '(hclParser, diag) := call_parseFunc parseFunc path hclParser in
            if HasErrors diag then
              if strict then
                mret (inr ([], Some (Diagnostics_error diag)))
              else
                log_Warnf "skipping file: %s hcl parsing err: %s"
                  [op_string path; op_error (Diagnostics_error diag)] ;;
                mret (inl hclParser)
            else mret (inl hclParser)
        end) hclParser st in
  r.1 = match parse_entries w fullPath strict infos hclParser with
        | inl hclParser' => inl hclParser'
        | inr err => inr ([], Some err)
        end
  /\ only_logs st r.2
  /\ (strict = false ->
      forall info file diag, info ∈ infos ->
        parse_result w fullPath info = Some (file, diag) ->
        HasErrors diag = true ->
        skipped_file (filepath_Join w fullPath (fi_Name info)) diag ∈ logs r.2).
Proof.
  revert hclParser st. induction infos as [|info infos IH]; intros hclParser st.
  { simpl. split; [done|]. split; [apply only_logs_refl|].
    intros _ info file diag Hin. by apply elem_of_nil in Hin. }
  cbn [for_return parse_entries]. unfold mbind, M_bind, mret, M_ret.
  unfold parse_result, recognized in *.
  destruct (fi_IsDir info) eqn:Hdir.
  { cbn beta iota zeta. destruct (IH hclParser st) as (H1&H2&H3).
    split; [exact H1|]. split; [exact H2|].
    intros Hs info' file diag Hin Hp Hd.
    apply elem_of_cons in Hin as [->|Hin]; [by rewrite Hdir in Hp|].
    by eapply H3. }
  destruct (select_parseFunc w (fi_Name info)) as [parseFunc|] eqn:Hsel.
  2:{ cbn beta iota zeta. destruct (IH hclParser st) as (H1&H2&H3).
      split; [exact H1|]. split; [exact H2|].
      intros Hs info' file diag Hin Hp Hd.
      apply elem_of_cons in Hin as [->|Hin]; [by rewrite Hdir, Hsel in Hp|].
      by eapply H3. }
  cbn beta iota zeta. unfold call_parseFunc.
  destruct (parseFunc (filepath_Join w fullPath (fi_Name info))) as [file0 diag0] eqn:Hpf.
  cbn beta iota zeta.
  set (hp' := match file0 with
              | Some f => <[filepath_Join w fullPath (fi_Name info):=f]> hclParser
              | None => hclParser
              end).
  destruct (HasErrors diag0) eqn:Herr; cbn [andb].
  - destruct strict.
    + cbn beta iota zeta. split; [done|]. split; [apply only_logs_refl|]. done.
    + cbn beta iota zeta. unfold log_Warnf.
      match goal with |- context [log_entry ?e st] =>
        pose proof (log_entry_only_logs e st) as Hlog;
        destruct (log_entry e st) as [[] st1] eqn:Hst1 end.
      cbn [fst snd] in *.
      destruct (IH hp' st1) as (H1&H2&H3).
      split; [exact H1|]. split; [by eapply only_logs_trans|].
      intros _ info' file diag Hin Hp Hd.
      apply elem_of_cons in Hin as [->|Hin]; [|by eapply H3].
      rewrite Hdir, Hsel, Hpf in Hp. injection Hp as <- <-.
      destruct H2 as (_&_&_&Hpre). eapply elem_of_prefix; [|exact Hpre].
      unfold log_entry in Hst1. injection Hst1 as <-. simpl.
      apply elem_of_app. right. by apply list_elem_of_singleton.
  - cbn beta iota zeta. destruct (IH hp' st) as (H1&H2&H3).
    split; [exact H1|]. split; [exact H2|].
    intros Hs info' file diag Hin Hp Hd.
    apply elem_of_cons in Hin as [->|Hin]; [|by eapply H3].
    rewrite Hdir, Hsel, Hpf in Hp. injection Hp as <- <-. congruence.
Qed.

Lemma loadDirectory_spec (w : World) (fullPath : string) (strict : bool) (st : State) :
  let r := loadDirectory w fullPath strict st in
  r.1 = directory_files w fullPath strict
  /\ only_logs st r.2
  /\ (strict = false ->
      forall infos info file diag,
        ioutil_ReadDir w fullPath = (infos, None) -> info ∈ infos ->
        parse_result w fullPath info = Some (file, diag) ->
        HasErrors diag = true ->
        skipped_file (filepath_Join w fullPath (fi_Name info)) diag ∈ logs r.2).
Proof.
  unfold loadDirectory, directory_files.
  destruct (ioutil_ReadDir w fullPath) as [fileInfos [err|]].
  { split; [done|]. split; [apply only_logs_refl|]. done. }
  unfold mbind, M_bind, mret, M_ret.
  match goal with |- context [for_return fileInfos ?b hclparse_NewParser st] =>
    pose proof (loadDirectory_entries w fullPath strict fileInfos hclparse_NewParser st)
      as (H1&H2&H3);
    unfold mbind, M_bind, mret, M_ret in H1, H2, H3;
    destruct (for_return fileInfos b hclparse_NewParser st) as [res st1] end.
  cbn [fst snd] in *. subst res.
  destruct (parse_entries w fullPath strict fileInfos hclparse_NewParser)
    as [hclParser|err]; cbn [fst snd].
  - split; [|split; [exact H2|]].
    + f_equal. exact (fold_left_snoc_map snd _ []).
    + intros Hs infos info file diag [= <-]. by apply H3.
  - split; [done|]. split; [exact H2|].
    intros Hs infos info file diag [= <-]. by apply H3.
Qed.

Lemma parseDirectoryFiles_loop (w : World) (p : Parser) (files : list hcl_File)
    (blocks : list Block) (st : State) :
  let r := for_return (S := list Block) (R := list Block * option error)
      files (fun blocks file =>
      let '(fileBlocks, err) := loadBlocksFromFile w file in
      match err with
      | Some err =>
          if stopOnHCLError p then mret (inr ([], Some err))
          else
            log_Warnf "skipping file could not load blocks err: %s" [op_error err] ;;
            mret (inl blocks)
      | None =>
          match fileBlocks with
          | first :: _ =>
              log_Debugf "Added %d blocks from %s..."
                [op_int (length fileBlocks); op_string (DefRange_Filename first)]
          | [] => mret tt
          end ;;
          mret (inl (fold_left (fun blocks fileBlock =>
                       blocks ++ [NewBlock w (blockBuilder p) fileBlock])
                     fileBlocks blocks))
      end) blocks st in
  r.1 = match files_blocks w p files blocks with
        | (blocks', None) => inl blocks'
        | (_, Some err) => inr ([], Some err)
        end
  /\ only_logs st r.2.
Proof.
  revert blocks st. induction files as [|file files IH]; intros blocks st.
  { simpl. split; [done | apply only_logs_refl]. }
  cbn [for_return files_blocks]. unfold mbind, M_bind, mret, M_ret.
  destruct (loadBlocksFromFile w file) as [fileBlocks [err|]].
  - destruct (stopOnHCLError p).
    + cbn beta iota zeta. split; [done | apply only_logs_refl].
    + cbn beta iota zeta. unfold log_Warnf.
      match goal with |- context [log_entry ?e st] =>
        pose proof (log_entry_only_logs e st) as Hlog;
        destruct (log_entry e st) as [[] st1] end.
      cbn [fst snd] in *. destruct (IH blocks st1) as [H1 H2].
      split; [exact H1 | by eapply only_logs_trans].
  - rewrite (fold_left_snoc_map (NewBlock w (blockBuilder p)) fileBlocks blocks).
    destruct fileBlocks as [|first fileBlocks].
    + cbn beta iota zeta. apply IH.
    + unfold log_Debugf.
      match goal with |- context [log_entry ?e st] =>
        pose proof (log_entry_only_logs e st) as Hlog;
        destruct (log_entry e st) as [[] st1] end.
      cbn [fst snd] in *. cbn beta iota zeta.
      match goal with |- context [for_return files _ ?b st1] =>
        destruct (IH b st1) as [H1 H2] end.
      split; [exact H1 | by eapply only_logs_trans].
Qed.

Lemma files_blocks_error w p files blocks err :
  (files_blocks w p files blocks).2 = Some err ->
  (files_blocks w p files blocks).1 = [].
Proof.
  revert blocks. induction files as [|file files IH]; intros blocks; simpl; [done|].
  destruct (loadBlocksFromFile w file) as [fileBlocks [e|]]; [|by apply IH].
  destruct (stopOnHCLError p); [done | by apply IH].
Qed.

Lemma parseDirectoryFiles_spec (w : World) (p : Parser) (files : list hcl_File)
    (st : State) :
  let r := parseDirectoryFiles w p files st in
  r.1 = files_blocks w p files [] /\ only_logs st r.2.
Proof.
  unfold parseDirectoryFiles. unfold mbind, M_bind, mret, M_ret.
  match goal with |- context [for_return files ?b [] st] =>
    pose proof (parseDirectoryFiles_loop w p files [] st) as [H1 H2];
    unfold mbind, M_bind, mret, M_ret in H1, H2;
    destruct (for_return files b [] st) as [res st1] end.
  cbn [fst snd] in *. subst res.
  pose proof (files_blocks_error w p files []) as He.
  destruct (files_blocks w p files []) as [blocks [err|]]; cbn [fst snd] in *.
  - split; [|done]. by rewrite (He err).
  - done.
Qed.

Lemma evaluate_spec (w : World) (p : Parser) (blocks : list Block) (vars : ref)
    (st : State) :
  let r := evaluate w p blocks vars st in
  r.1 = evaluation w p blocks (content st vars) /\ same_store st r.2.
Proof.
  unfold evaluate, evaluation, new_evaluator, same_store.
  unfold mbind, M_bind, mret, M_ret.
  destruct (ModuleLoader_Load w (moduleLoader p)) as [manifest [err|]].
  { by repeat split. }
  unfold log_Debugf, log_entry. cbn beta iota zeta.
  destruct (os_Getwd w) as [workingDir [err|]]; cbn [fst snd].
  { repeat split. simpl. by apply prefix_app_r. }
  unfold map_load, content. cbn beta iota zeta. cbn [maps].
  match goal with |- context [Evaluator_Run w ?ev] =>
    destruct (Evaluator_Run w ev) as [root [err|]] end.
  all: match goal with |- context [Evaluator_MissingVars ?w' ?ev] =>
    destruct (0 <? length (Evaluator_MissingVars w' ev))%nat end.
  all: destruct (writeWarning p); cbn; repeat split; by apply prefix_app_r.
Qed.

Lemma only_logs_field st st' field :
  only_logs st st' -> field_content st' field = field_content st field.
Proof. intros H. destruct field; simpl; [by apply only_logs_content | done]. Qed.

Lemma ParseDirectory_spec (w : World) (p : Parser) (st : State) :
  range_ok w -> wf_parser st p ->
  let r := ParseDirectory w p st in
  let env := field_content st (tfEnvVars p) in
  let inputs := field_content st (inputVars p) in
  let dst := default (next st) (tfEnvVars p) in
  r.1 = parsed w p env inputs
  /\ logs st `prefix_of` logs r.2
  /\ (forall blocks, directory_blocks w p = (blocks, None) -> blocks <> [] ->
        content r.2 dst = (resolved w p blocks (tfvarsPaths p) env inputs).1)
  /\ (forall l, l <> dst -> content r.2 l = content st l)
  /\ (stopOnHCLError p = false ->
      forall infos info file diag,
        ioutil_ReadDir w (initialPath p) = (infos, None) -> info ∈ infos ->
        parse_result w (initialPath p) info = Some (file, diag) ->
        HasErrors diag = true ->
        skipped_file (filepath_Join w (initialPath p) (fi_Name info)) diag ∈ logs r.2).
Proof.
  intros Hw Hwf r env inputs dst.
  destruct r as [res st'] eqn:Heq. subst r. cbn [fst snd].
  unfold parsed, directory_blocks.
  unfold ParseDirectory in Heq. unfold mbind, M_bind, mret, M_ret in Heq.
  unfold log_Debugf at 1 in Heq.
  match type of Heq with context [log_entry ?e st] =>
    pose proof (log_entry_only_logs e st) as H0;
    destruct (log_entry e st) as [[] st0] end.
  cbn [fst snd] in H0.
  destruct (loadDirectory_spec w (initialPath p) (stopOnHCLError p) st0) as (Hd1&Hd2&Hd3).
  destruct (loadDirectory w (initialPath p) (stopOnHCLError p) st0) as [[files err] st1].
  cbn [fst snd] in Hd1, Hd2, Hd3. rewrite <- Hd1. cbn beta iota zeta.
  assert (only_logs st st1) as H1 by (by eapply only_logs_trans).
  assert (forall st2, logs st1 `prefix_of` logs st2 ->
    stopOnHCLError p = false ->
    forall infos info file diag,
      ioutil_ReadDir w (initialPath p) = (infos, None) -> info ∈ infos ->
      parse_result w (initialPath p) info = Some (file, diag) ->
      HasErrors diag = true ->
      skipped_file (filepath_Join w (initialPath p) (fi_Name info)) diag ∈ logs st2)
    as Hwarn.
  { intros st2 Hpre Hs infos info file diag Hr Hin Hp He.
    eapply elem_of_prefix; [|exact Hpre]. by eapply Hd3. }
  assert (forall st2, only_logs st st2 ->
            forall l, l <> dst -> content st2 l = content st l) as Hsame.
  { intros st2 H2 l _. by apply only_logs_content. }
  destruct err as [err|].
  { injection Heq as <- <-. split; [done|].
    split; [apply H1|]. split; [done|]. split; [by apply Hsame|].
    apply Hwarn. done. }
  destruct (parseDirectoryFiles_spec w p files st1) as [Hb1 Hb2].
  destruct (parseDirectoryFiles w p files st1) as [[blocks err] st2].
  cbn [fst snd] in Hb1, Hb2. rewrite <- Hb1. cbn beta iota zeta.
  assert (only_logs st st2) as H2 by (by eapply only_logs_trans).
  destruct err as [err|].
  { injection Heq as <- <-. split; [done|].
    split; [apply H2|]. split; [done|]. split; [by apply Hsame|].
    apply Hwarn. apply Hb2. }
  destruct blocks as [|b blocks].
  { cbn [Nat.eqb length] in Heq. injection Heq as <- <-. split; [done|].
    split; [apply H2|]. split; [by intros ? [= <-]|]. split; [by apply Hsame|].
    apply Hwarn. apply Hb2. }
  cbn [Nat.eqb length] in Heq. unfold log_Debugf at 1 in Heq.
  match type of Heq with context [log_entry ?e st2] =>
    pose proof (log_entry_only_logs e st2) as H3;
    destruct (log_entry e st2) as [[] st3] end.
  cbn [fst snd] in H3.
  assert (only_logs st st3) as H3' by (by eapply only_logs_trans).
  assert (wf_parser st3 p) as Hwf3.
  { destruct H3' as (Hn&_). unfold wf_parser in *. by rewrite Hn. }
  destruct (loadVars_spec w p (b :: blocks) (tfvarsPaths p) st3 Hw Hwf3)
    as (Hv1&Hv2&Hv3&_&Hv5).
  rewrite !(only_logs_field _ _ _ H3') in Hv1, Hv2.
  assert (default (next st3) (tfEnvVars p) = dst) as Hdst.
  { subst dst. destruct H3' as (Hn&_). by rewrite Hn. }
  rewrite Hdst in Hv1, Hv2, Hv3.
  destruct (loadVars w p (b :: blocks) (tfvarsPaths p) st3) as [[vars err] st4].
  cbn [fst snd] in Hv1, Hv2, Hv3, Hv5. fold env inputs in Hv1, Hv2.
  injection Hv1 as -> Herr.
  assert (logs st1 `prefix_of` logs st4) as Hpre4.
  { etrans; [apply Hb2|]. etrans; [apply H3|]. exact Hv5. }
  assert (forall l, l <> dst -> content st4 l = content st l) as Hframe4.
  { intros l Hl. rewrite Hv3 by done. by apply only_logs_content. }
  destruct (resolved w p (b :: blocks) (tfvarsPaths p) env inputs) as [m o] eqn:Hres.
  cbn [fst snd] in *. subst o m.
  destruct err as [err|].
  { injection Heq as <- <-. split; [done|].
    split; [etrans; [apply H1|]; exact Hpre4|].
    split; [intros ? [= <-] _; by rewrite Hres|].
    split; [exact Hframe4|]. by apply Hwarn. }
  destruct (evaluate_spec w p (b :: blocks) dst st4) as [He1 (Hn5&Hm5&Hl5)].
  rewrite Heq in He1, Hn5, Hm5, Hl5. cbn [fst snd] in *.
  assert (forall l, content st' l = content st4 l) as Hc5.
  { intros l. unfold content. by rewrite Hm5. }
  split; [exact He1|].
  split; [etrans; [apply H1|]; etrans; [exact Hpre4 | exact Hl5]|].
  split; [intros ? [= <-] _; by rewrite Hc5, Hres|].
  split; [intros l Hl; rewrite Hc5; by apply Hframe4|].
  apply Hwarn. by etrans.
Qed.

Lemma ParseDirectory_stops (w : World) (p : Parser) (st : State) :
  match directory_blocks w p with
  | (_, Some err) => (ParseDirectory w p st).1 = (None, Some err)
  | (blocks, None) =>
      blocks = [] -> (ParseDirectory w p st).1 = (None, Some no_valid_files)
  end.
Proof.
  unfold directory_blocks.
  destruct (ParseDirectory w p st) as [res st'] eqn:Heq. cbn [fst].
  unfold ParseDirectory in Heq. unfold mbind, M_bind, mret, M_ret in Heq.
  unfold log_Debugf at 1 in Heq.
  match type of Heq with context [log_entry ?e st] =>
    destruct (log_entry e st) as [[] st0] end.
  destruct (loadDirectory_spec w (initialPath p) (stopOnHCLError p) st0) as (Hd1&_).
  destruct (loadDirectory w (initialPath p) (stopOnHCLError p) st0) as [[files err] st1].
  cbn [fst snd] in Hd1. rewrite <- Hd1. cbn beta iota zeta.
  destruct err as [err|]; [injection Heq as <- <-; done|].
  destruct (parseDirectoryFiles_spec w p files st1) as [Hb1 _].
  destruct (parseDirectoryFiles w p files st1) as [[blocks err] st2].
  cbn [fst snd] in Hb1. rewrite <- Hb1. cbn beta iota zeta.
  destruct err as [err|]; [injection Heq as <- <-; done|].
  intros ->. cbn [Nat.eqb length] in Heq. injection Heq as <- <-. done.
Qed.

Lemma parse_entries_tolerant w fullPath infos hclParser :
  parse_entries w fullPath false infos hclParser
  = inl (fold_left (record_entry w fullPath) infos hclParser).
Proof.
  revert hclParser. induction infos as [|info infos IH]; intros hclParser; [done|].
  cbn [parse_entries fold_left]. unfold record_entry at 2, parse_result.
  destruct (recognized w info) as [parseFunc|]; [|apply IH].
  unfold call_parseFunc.
  destruct (parseFunc (filepath_Join w fullPath (fi_Name info))) as [[file|] diag];
    rewrite andb_false_r; apply IH.
Qed.

Lemma parse_entries_strict w fullPath infos hclParser file diag :
  first_failure w fullPath infos = Some (file, diag) ->
  parse_entries w fullPath true infos hclParser = inr (Diagnostics_error diag).
Proof.
  unfold first_failure. revert hclParser.
  induction infos as [|info infos IH]; intros hclParser Hf; [done|].
  cbn [parse_entries]. cbn [omap list_omap] in Hf. unfold parse_result in Hf.
  destruct (recognized w info) as [parseFunc|]; [|by apply IH].
  unfold call_parseFunc.
  destruct (parseFunc (filepath_Join w fullPath (fi_Name info))) as [file0 diag0].
  rewrite filter_cons in Hf. cbn [snd] in Hf.
  case_decide as He.
  - rewrite He. cbn [andb]. simpl in Hf. by injection Hf as _ <-.
  - apply not_true_is_false in He. rewrite He. cbn [andb]. by apply IH.
Qed.

Lemma files_blocks_tolerant w p files blocks :
  stopOnHCLError p = false ->
  files_blocks w p files blocks
  = (blocks ++ flat_map (fun file => NewBlock w (blockBuilder p) <$> yielded_blocks w file)
                 files, None).
Proof.
  intros Hs. revert blocks.
  induction files as [|file files IH]; intros blocks; simpl.
  - by rewrite app_nil_r.
  - unfold yielded_blocks at 1. rewrite Hs.
    destruct (loadBlocksFromFile w file) as [fileBlocks [err|]];
      rewrite IH; [done|]. by rewrite <- app_assoc.
Qed.

(** Every file the parser holds after tolerant parsing was recorded for an
    entry of the directory. *)
Lemma recorded_files w fullPath infos hclParser path file :
  fold_left (record_entry w fullPath) infos hclParser !! path = Some file ->
  hclParser !! path = Some file
  \/ exists info diag, info ∈ infos
       /\ parse_result w fullPath info = Some (Some file, diag)
       /\ path = filepath_Join w fullPath (fi_Name info).
Proof.
  revert hclParser. induction infos as [|info infos IH]; intros hclParser H.
  { by left. }
  cbn [fold_left] in H. apply IH in H as [H|(info'&diag&Hin&Hp&->)].
  - unfold record_entry in H.
    destruct (parse_result w fullPath info) as [[[file0|] diag]|] eqn:Hp;
      try (by left).
    cbn beta iota in H.
    destruct (decide (filepath_Join w fullPath (fi_Name info) = path)) as [<-|Hne].
    + rewrite lookup_insert_eq in H. injection H as <-.
      right. exists info, diag. split; [by left | done].
    + rewrite lookup_insert_ne in H by done. by left.
  - right. exists info', diag. split; [by right | done].
Qed.

Lemma recorded_file_stays w fullPath infos hclParser good file diag :
  good ∈ infos ->
  parse_result w fullPath good = Some (Some file, diag) ->
  (forall info file' diag', info ∈ infos ->
     parse_result w fullPath info = Some (Some file', diag') ->
     filepath_Join w fullPath (fi_Name info) = filepath_Join w fullPath (fi_Name good) ->
     file' = file) ->
  fold_left (record_entry w fullPath) infos hclParser
    !! filepath_Join w fullPath (fi_Name good) = Some file.
Proof.
  intros Hin Hp Hsame.
  assert (forall infos hclParser,
    (forall info file' diag', info ∈ infos ->
       parse_result w fullPath info = Some (Some file', diag') ->
       filepath_Join w fullPath (fi_Name info) = filepath_Join w fullPath (fi_Name good) ->
       file' = file) ->
    hclParser !! filepath_Join w fullPath (fi_Name good) = Some file ->
    fold_left (record_entry w fullPath) infos hclParser
      !! filepath_Join w fullPath (fi_Name good) = Some file) as Hkeep.
  { clear. intros infos. induction infos as [|info infos IH]; intros hp Hsame Hhp; [done|].
    cbn [fold_left]. apply IH.
    - intros info' file' diag' Hin'. apply Hsame. by right.
    - unfold record_entry.
      destruct (parse_result w fullPath info) as [[[file0|] diag0]|] eqn:Hp; try done.
      destruct (decide (filepath_Join w fullPath (fi_Name info)
                        = filepath_Join w fullPath (fi_Name good))) as [Heq|Hne].
      + rewrite Heq, lookup_insert_eq. f_equal. eapply Hsame; [by left | done | done].
      + by rewrite lookup_insert_ne. }
  revert hclParser. induction infos as [|info infos IH]; intros hclParser.
  { by apply elem_of_nil in Hin. }
  cbn [fold_left]. apply elem_of_cons in Hin as [<-|Hin].
  - apply Hkeep.
    + intros info' file' diag' Hin'. apply Hsame. by right.
    + unfold record_entry. rewrite Hp. by rewrite lookup_insert_eq.
  - apply IH; [done|]. intros info' file' diag' Hin'. apply Hsame. by right.
Qed.

Lemma flat_map_none {A B : Type} (g : A -> list B) (l : list (string * A)) :
  (forall k a, (k, a) ∈ l -> g a = []) -> flat_map g l.*2 = [].
Proof.
  induction l as [|[k0 a0] l IH]; intros H; [done|].
  cbn [fmap list_fmap flat_map snd].
  rewrite (H k0 a0) by (by left). simpl. apply IH.
  intros k a Hin. apply (H k). by right.
Qed.

Lemma flat_map_single {A B : Type} (g : A -> list B) (l : list (string * A)) k a :
  NoDup l.*1 -> (k, a) ∈ l ->
  (forall k' a', (k', a') ∈ l -> k' <> k -> g a' = []) ->
  flat_map g l.*2 = g a.
Proof.
  induction l as [|[k0 a0] l IH]; intros Hnd Hin Hother.
  { by apply elem_of_nil in Hin. }
  cbn [fmap list_fmap flat_map snd].
  apply NoDup_cons in Hnd as [Hnotin Hnd]. cbn [fst] in Hnotin.
  apply elem_of_cons in Hin as [[= <- <-]|Hin].
  - rewrite flat_map_none; [by rewrite app_nil_r|].
    intros k' a' Hin'. apply (Hother k'); [by right|].
    intros ->. apply Hnotin. apply list_elem_of_fmap. by exists (k, a').
  - rewrite (Hother k0 a0); [|by left|].
    + simpl. apply IH; [done | done |].
      intros k' a' Hin'. apply Hother. by right.
    + intros ->. apply Hnotin. apply list_elem_of_fmap. by exists (k, a).
Qed.


(** ** Directories with files that do not parse *)

Lemma tolerant_directory_files w fullPath infos :
  ioutil_ReadDir w fullPath = (infos, None) ->
  directory_files w fullPath false
  = ((range_order w _ (fold_left (record_entry w fullPath) infos ∅)).*2, None).
Proof.
  intros Hr. unfold directory_files. by rewrite Hr, parse_entries_tolerant.
Qed.

(** C5 fails on the code in tolerant mode. The directory has one file to
    parse, bad.tf, whose parse reports an error after one block was read.
    [loadDirectory] logs that it skips the file, and returns all the same
    the file object the parser recorded for it: its block is constructed,
    and [ParseDirectory] returns a module with this block and no error,
    where the claim has the error that no valid terraform file was found.
    In strict mode the diagnostics of the file are returned, as the claim
    has it; and in the directory whose files leave no block when their
    parse fails, tolerant mode ends in the error of the claim. *)
Theorem ParseDirectory_only_unparseable :
  let p := (New lone_world "proj" [] empty_state).1 in
  let strict := (New lone_world "proj" [OptionStopOnHCLError] empty_state).1 in
  let r := ParseDirectory lone_world p empty_state in
  omap (parse_result lone_world "proj") (ioutil_ReadDir lone_world "proj").1
  = [(Some {| Body := {| JustAttributes := (∅, []);
                         Content := ([bucket_block], []) |} |},
      [diag_error "Invalid block definition"])]
  /\ skipped_file "proj/bad.tf" [diag_error "Invalid block definition"] ∈ logs r.2
  /\ r.1.2 = None
  /\ module_blocks r.1 = Some [bucket_block]
  /\ (ParseDirectory lone_world strict empty_state).1
     = (None, Some (Diagnostics_error [diag_error "Invalid block definition"]))
  /\ (ParseDirectory broken_world (New broken_world "proj" [] empty_state).1
        empty_state).1
     = (None, Some no_valid_files).
Proof.
  split; [by vm_compute|]. split; [|by vm_compute].
  vm_compute. repeat constructor.
Qed.

(** C6 fails on the code. The directory has the valid file main.tf and the
    file bad.tf, whose parse reports an error after one block was read. In
    tolerant mode [ParseDirectory] succeeds and a warning is logged for
    bad.tf, as the claim has it; but the file object the parser recorded
    for bad.tf is returned by [loadDirectory] with that of main.tf, and the
    blocks of the module are the block of main.tf and the block of bad.tf,
    not those of the valid file only. When the parse of bad.tf leaves no
    block, the blocks are those of main.tf. *)
Theorem ParseDirectory_skips_unparseable :
  let p := (New partial_world "proj" [] empty_state).1 in
  let r := ParseDirectory partial_world p empty_state in
  let files := loadDirectory partial_world "proj" false empty_state in
  omap (parse_result partial_world "proj") (ioutil_ReadDir partial_world "proj").1
  = [(Some {| Body := {| JustAttributes := (∅, []);
                         Content := ([bucket_block], []) |} |},
      [diag_error "Invalid block definition"]);
     (Some {| Body := {| JustAttributes := (∅, []);
                         Content := ([web_block], []) |} |}, [])]
  /\ skipped_file "proj/bad.tf" [diag_error "Invalid block definition"] ∈ logs r.2
  /\ length files.1.1 = 2
  /\ r.1.2 = None
  /\ module_blocks r.1 = Some [web_block; bucket_block]
  /\ module_blocks
       (ParseDirectory mixed_world (New mixed_world "proj" [] empty_state).1
          empty_state).1
     = Some [web_block].
Proof.
  split; [by vm_compute|]. split; [|by vm_compute].
  vm_compute. repeat constructor.
Qed.

(** ** Construction *)

Lemma for_each_next {A : Type} (l : list A) (body : A -> M unit) st :
  (forall a st, next (body a st).2 = next st) ->
  next (for_each l body st).2 = next st.
Proof.
  intros Hbody. revert st. induction l as [|a l IH]; intros st; [done|].
  cbn [for_each]. unfold mbind, M_bind.
  pose proof (Hbody a st) as Ha. destruct (body a st) as [[] st1].
  cbn [snd] in Ha. by rewrite IH.
Qed.

Lemma OptionWithTFVarsPaths_loop w initialPath_ paths relative st :
  let r := for_acc paths (fun relative name =>
    let tfvp := path_Join w initialPath_ name in
    match os_Stat w tfvp with
    | Some err =>
        log_Warnf "passed tfvar file does not exist at %s" [op_string tfvp] ;;
        mret relative
    | None => mret (relative ++ [tfvp])
    end) relative st in
  r.1 = relative ++ filter (fun tfvp => os_Stat w tfvp = None)
                      (path_Join w initialPath_ <$> paths)
  /\ only_logs st r.2
  /\ (forall name, name ∈ paths ->
        os_Stat w (path_Join w initialPath_ name) <> None ->
        {| level := WarnLevel;
           format := "passed tfvar file does not exist at %s";
           operands := [op_string (path_Join w initialPath_ name)] |} ∈ logs r.2).
Proof.
  unfold mbind, M_bind, mret, M_ret.
  revert relative st. induction paths as [|name paths IH]; intros relative st.
  { cbn. rewrite app_nil_r. split; [done|]. split; [apply only_logs_refl|].
    intros name Hin. by apply elem_of_nil in Hin. }
  cbn [for_acc fmap list_fmap]. unfold mbind, M_bind, mret, M_ret.
  rewrite filter_cons.
  destruct (os_Stat w (path_Join w initialPath_ name)) as [err|] eqn:Hstat.
  - unfold log_Warnf.
    match goal with |- context [log_entry ?e st] =>
      pose proof (log_entry_only_logs e st) as Hlog;
      destruct (log_entry e st) as [[] st1] eqn:Hst1 end.
    cbn [fst snd] in *. destruct (IH relative st1) as (H1&H2&H3).
    case_decide; [done|]. split; [exact H1|]. split; [by eapply only_logs_trans|].
    intros name' Hin Hne. apply elem_of_cons in Hin as [->|Hin]; [|by apply H3].
    destruct H2 as (_&_&_&Hpre). eapply elem_of_prefix; [|exact Hpre].
    unfold log_entry in Hst1. injection Hst1 as <-. cbn [logs].
    apply elem_of_app. right. by apply list_elem_of_singleton.
  - destruct (IH (relative ++ [path_Join w initialPath_ name]) st) as (H1&H2&H3).
    case_decide; [|done]. split; [by rewrite H1, <- app_assoc|]. split; [exact H2|].
    intros name' Hin Hne. apply elem_of_cons in Hin as [->|Hin]; [congruence|].
    by apply H3.
Qed.

Lemma OptionWithTFVarsPaths_spec w paths p st :
  let r := OptionWithTFVarsPaths w paths p st in
  r.1 = set_tfvarsPaths
          (filter (fun tfvp => os_Stat w tfvp = None)
             (path_Join w (initialPath p) <$> paths)) p
  /\ only_logs st r.2
  /\ (forall name, name ∈ paths ->
        os_Stat w (path_Join w (initialPath p) name) <> None ->
        {| level := WarnLevel;
           format := "passed tfvar file does not exist at %s";
           operands := [op_string (path_Join w (initialPath p) name)] |} ∈ logs r.2).
Proof.
  unfold OptionWithTFVarsPaths. unfold mbind, M_bind, mret, M_ret.
  match goal with |- context [for_acc paths ?b [] st] =>
    pose proof (OptionWithTFVarsPaths_loop w (initialPath p) paths [] st) as H;
    unfold mbind, M_bind, mret, M_ret in H;
    destruct (for_acc paths b [] st) as [relative st1] end.
  cbn [fst snd app] in *. destruct H as (->&H2&H3). done.
Qed.

Lemma ensure_inputVars_spec p st :
  let r := ensure_inputVars p st in
  r.1.1 = set_inputVars (Some r.1.2) p
  /\ (inputVars p = Some r.1.2 /\ r.2 = st
      \/ inputVars p = None /\ r.1.2 = next st /\ next r.2 = S (next st)).
Proof.
  unfold ensure_inputVars. destruct (inputVars p) as [l|] eqn:Hl; cbn.
  - split; [|by left]. destruct p; cbn in *. by subst.
  - split; [done | by right].
Qed.

Lemma wf_parser_mono st st' p p' :
  tfEnvVars p' = tfEnvVars p -> inputVars p' = inputVars p ->
  next st <= next st' -> wf_parser st p -> wf_parser st' p'.
Proof.
  intros Ht Hi Hn (H1&H2&H3). unfold wf_parser. rewrite Ht, Hi.
  repeat split.
  - intros l Hl. apply H1 in Hl. lia.
  - intros l Hl. apply H2 in Hl. lia.
  - exact H3.
Qed.

(** The options of the package leave the directory and its default
    variable files alone, and keep the parser well formed. *)
Lemma package_option_invariant w option p st :
  package_option w option ->
  let r := option p st in
  initialPath r.1 = initialPath p
  /\ defaultVarFiles r.1 = defaultVarFiles p
  /\ next st <= next r.2
  /\ (wf_parser st p -> wf_parser r.2 r.1).
Proof.
  intros Ho. destruct Ho; cbn zeta.
  - destruct (OptionWithTFVarsPaths_spec w paths p st) as (H1&H2&_).
    rewrite H1. destruct H2 as (Hn&_).
    refine (conj _ (conj _ (conj _ _)));
      [done | done | lia | apply wf_parser_mono; [done | done | lia]].
  - refine (conj _ (conj _ (conj _ _))); try done; by apply wf_parser_mono.
  - unfold OptionWithTFEnvVars. unfold mbind, M_bind, mret, M_ret.
    assert (make_map st = (next st, (make_map st).2)) as Hmk by done.
    rewrite Hmk. clear Hmk. cbn beta iota zeta.
    match goal with |- context [for_each (os_Environ w) ?b ?s] =>
      assert (next (for_each (os_Environ w) b s).2 = next s) as H1;
      [apply for_each_next; intros v s';
       destruct (strings_HasPrefix v TF_VAR_); [|done];
       by destruct (strings_Split _ "=") as [|? [|? [|? ?]]]|];
      destruct (for_each (os_Environ w) b s) as [[] st1] end.
    match goal with |- context [for_each (range_order w _ projectEnv) ?b ?s] =>
      assert (next (for_each (range_order w _ projectEnv) b s).2 = next s) as H2;
      [apply for_each_next; intros v s';
       by destruct (strings_HasPrefix v.1 TF_VAR_)|];
      destruct (for_each (range_order w _ projectEnv) b s) as [[] st2] end.
    cbn [fst snd] in *. cbn in H1.
    cbn. refine (conj _ (conj _ (conj _ _))); try done; try lia.
    intros (_&Hi&_). repeat split.
    + intros l [= <-]. lia.
    + intros l Hl. apply Hi in Hl. lia.
    + intros l [= <-] Hl. apply Hi in Hl. lia.
  - unfold OptionWithPlanFlagVars. unfold mbind, M_bind, mret, M_ret.
    destruct (ensure_inputVars_spec p st) as (H1&H2).
    destruct (ensure_inputVars p st) as [[p1 vars] st1]. cbn [fst snd] in *.
    match goal with |- context [for_each vs ?b ?s] =>
      assert (next (for_each vs b s).2 = next s) as H3;
      [apply for_each_next; intros v s';
       by destruct (strings_Split v "=") as [|? [|? [|? ?]]]|];
      destruct (for_each vs b s) as [[] st2] end.
    cbn [fst snd] in *. rewrite H3.
    subst p1. cbn.
    destruct H2 as [[Hi ->]|(Hi&->&Hn)].
    + refine (conj _ (conj _ (conj _ _))); try done; try lia.
      intros (Ht&Hin&Hd). repeat split; rewrite ?H3.
      * exact Ht.
      * intros l [= <-]. by apply Hin.
      * intros l Hl [= <-]. by eapply Hd.
    + refine (conj _ (conj _ (conj _ _))); try done; try lia.
      intros (Ht&_). repeat split; rewrite ?H3, ?Hn.
      * intros l Hl. apply Ht in Hl. lia.
      * intros l [= <-]. lia.
      * intros l Hl [= <-]. apply Ht in Hl. lia.
  - unfold OptionWithInputVars. unfold mbind, M_bind, mret, M_ret.
    destruct (ensure_inputVars_spec p st) as (H1&H2).
    destruct (ensure_inputVars p st) as [[p1 dst] st1]. cbn [fst snd] in *.
    match goal with |- context [for_each ?l ?b ?s] =>
      assert (next (for_each l b s).2 = next s) as H3;
      [by apply for_each_next|];
      destruct (for_each l b s) as [[] st2] end.
    cbn [fst snd] in *. rewrite H3.
    subst p1. cbn.
    destruct H2 as [[Hi ->]|(Hi&->&Hn)].
    + refine (conj _ (conj _ (conj _ _))); try done; try lia.
      intros (Ht&Hin&Hd). repeat split; rewrite ?H3.
      * exact Ht.
      * intros l [= <-]. by apply Hin.
      * intros l Hl [= <-]. by eapply Hd.
    + refine (conj _ (conj _ (conj _ _))); try done; try lia.
      intros (Ht&_). repeat split; rewrite ?H3, ?Hn.
      * intros l Hl. apply Ht in Hl. lia.
      * intros l [= <-]. lia.
      * intros l Hl [= <-]. apply Ht in Hl. lia.
  - unfold OptionWithRemoteVarLoader.
    destruct (String.eqb host "" || String.eqb token "");
      (refine (conj _ (conj _ (conj _ _))); try done; by apply wf_parser_mono).
  - refine (conj _ (conj _ (conj _ _))); try done; by apply wf_parser_mono.
  - refine (conj _ (conj _ (conj _ _))); try done; by apply wf_parser_mono.
  - refine (conj _ (conj _ (conj _ _))); try done; by apply wf_parser_mono.
  - refine (conj _ (conj _ (conj _ _))); try done; by apply wf_parser_mono.
Qed.

Lemma New_options w (options : list Option) p st :
  Forall (package_option w) options ->
  let r := for_acc options (fun p option => option p) p st in
  initialPath r.1 = initialPath p
  /\ defaultVarFiles r.1 = defaultVarFiles p
  /\ next st <= next r.2
  /\ (wf_parser st p -> wf_parser r.2 r.1).
Proof.
  intros Ho. revert p st. induction Ho as [|option options Hopt _ IH]; intros p st.
  { cbn. refine (conj _ (conj _ (conj _ _))); try done; lia. }
  cbn [for_acc]. unfold mbind, M_bind.
  destruct (package_option_invariant w option p st Hopt) as (H1&H2&H3&H4).
  destruct (option p st) as [p1 st1]. cbn [fst snd] in *.
  destruct (IH p1 st1) as (I1&I2&I3&I4).
  refine (conj _ (conj _ (conj _ _))); try congruence; [lia|].
  intros H. by apply I4, H4.
Qed.

Lemma New_spec w initialPath_ options st :
  Forall (package_option w) options ->
  let r := New w initialPath_ options st in
  initialPath r.1 = initialPath_
  /\ defaultVarFiles r.1 = discover_defaultVarFiles w initialPath_
  /\ wf_parser r.2 r.1.
Proof.
  intros Ho. unfold New. unfold mbind, M_bind, mret, M_ret.
  match goal with |- context [for_acc options ?b ?p0 st] =>
    pose proof (New_options w options p0 st Ho) as (H1&H2&H3&H4);
    destruct (for_acc options b p0 st) as [p1 st1] end.
  cbn [fst snd] in *. cbn.
  refine (conj H1 (conj H2 _)).
  eapply (wf_parser_mono st1 st1 p1); try done. apply H4.
  by repeat split.
Qed.

Lemma discover_defaultVarFiles_spec w initialPath_ :
  discover_defaultVarFiles w initialPath_
  = primary_var_files w initialPath_
    ++ auto_var_files w initialPath_ (os_ReadDir w initialPath_).1.
Proof.
  unfold discover_defaultVarFiles, primary_var_files, auto_var_files.
  destruct (os_ReadDir w initialPath_) as [infos err]. cbn [fst].
  set (tf := path_Join w initialPath_ "terraform.tfvars").
  assert (forall acc,
    fold_left (fun defaultVarFiles info =>
      let name := fi_Name info in
      if strings_HasSuffix name autoVarsSuffix
         || strings_HasSuffix name (autoVarsSuffix +:+ ".json")
      then defaultVarFiles ++ [path_Join w initialPath_ name]
      else defaultVarFiles) infos acc
    = acc ++ (path_Join w initialPath_
                <$> filter (fun name => is_auto_var_file name = true)
                      (fi_Name <$> infos))) as Hfold.
  { induction infos as [|info infos IH]; intros acc.
    - cbn. by rewrite app_nil_r.
    - cbn [fold_left fmap list_fmap]. rewrite filter_cons. cbn zeta.
      fold (is_auto_var_file (fi_Name info)).
      destruct (is_auto_var_file (fi_Name info)).
      + rewrite IH. case_decide; [|done]. by rewrite <- app_assoc.
      + rewrite IH. by case_decide. }
  rewrite Hfold. f_equal. rewrite !filter_cons, filter_nil.
  destruct (os_Stat w tf), (os_Stat w (tf +:+ ".json")); by repeat case_decide.
Qed.

Lemma filter_none {A : Type} (P : A -> Prop) `{forall x, Decision (P x)}
    (l : list A) :
  (forall x, x ∈ l -> ~ P x) -> filter P l = [].
Proof.
  induction l as [|x l IH]; intros Hl; [done|].
  rewrite filter_cons_False.
  - apply IH. intros y Hy. apply Hl, elem_of_cons. by right.
  - apply Hl, elem_of_cons. by left.
Qed.

(** C10. [New] has no error to return: the error of reading the directory
    is dropped. The default variable files are then the primary files that
    [os.Stat] finds, which are looked up before the directory is listed and
    whatever the listing does, and the auto-loaded files among the entries
    the failed listing returned: the list is empty exactly when there is
    none of these, as for a directory that is missing. The error of the
    directory comes out of [ParseDirectory], which reads the directory
    again. *)
Theorem New_unreadable_directory :
  forall w initialPath_ options st infos err,
    Forall (package_option w) options ->
    os_ReadDir w initialPath_ = (infos, Some err) ->
    let r := New w initialPath_ options st in
    let defaultTfFile := path_Join w initialPath_ "terraform.tfvars" in
    defaultVarFiles r.1
    = primary_var_files w initialPath_ ++ auto_var_files w initialPath_ infos
    /\ (defaultVarFiles r.1 = [] <->
        os_Stat w defaultTfFile <> None
        /\ os_Stat w (defaultTfFile +:+ ".json") <> None
        /\ forall info, info ∈ infos -> is_auto_var_file (fi_Name info) = false)
    /\ (forall err', (ioutil_ReadDir w initialPath_).2 = Some err' ->
          (ParseDirectory w r.1 r.2).1 = (None, Some err')).
Proof.
  intros w initialPath_ options st infos err Ho Hr r defaultTfFile.
  destruct (New_spec w initialPath_ options st Ho) as (H1&H2&_). fold r in H1, H2.
  rewrite discover_defaultVarFiles_spec, Hr in H2. cbn [fst] in H2.
  split; [exact H2|]. split.
  - rewrite H2. unfold primary_var_files, auto_var_files. fold defaultTfFile.
    rewrite !filter_cons, filter_nil.
    split.
    + intros Hnil. apply app_eq_nil in Hnil as [Hp Ha].
      apply fmap_nil_inv in Ha.
      split; [|split].
      * by repeat case_decide.
      * by repeat case_decide.
      * intros info Hin. apply not_true_is_false. intros Hauto.
        assert (fi_Name info ∈ filter (fun name => is_auto_var_file name = true)
                                  (fi_Name <$> infos)) as Hname.
        { apply list_elem_of_filter. split; [done|].
          apply list_elem_of_fmap. by exists info. }
        rewrite Ha in Hname. by apply elem_of_nil in Hname.
    + intros (Hs1&Hs2&Hauto).
      rewrite (filter_none (fun name => is_auto_var_file name = true)).
      * by repeat case_decide.
      * intros name Hin. apply list_elem_of_fmap in Hin as (info&->&Hin).
        by rewrite (Hauto _ Hin).
  - intros err' He. pose proof (ParseDirectory_stops w r.1 r.2) as H.
    unfold directory_blocks, directory_files in H. rewrite H1 in H.
    destruct (ioutil_ReadDir w initialPath_) as [fileInfos o]. cbn [snd] in He.
    by subst o.
Qed.

Lemma New_unreadable_directory_witness :
  let r := New missing_world "gone" [OptionStopOnHCLError] empty_state in
  defaultVarFiles r.1 = []
  /\ (ParseDirectory missing_world r.1 r.2).1 = (None, Some no_such_file).
Proof.
  destruct (New_unreadable_directory missing_world "gone" [OptionStopOnHCLError]
              empty_state [] no_such_file) as (_&H2&H3).
  - repeat constructor.
  - reflexivity.
  - split.
    + apply H2. split; [discriminate|]. split; [discriminate|].
      intros info Hin. by apply elem_of_nil in Hin.
    + apply H3. reflexivity.
Defined.

(** The sentence of C10 as it was fails on the code: for a directory that
    cannot be listed but whose terraform.tfvars [os.Stat] finds, the list
    of default variable files [New] builds holds this file. *)
Lemma unlistable_directory_keeps_primary_file :
  let r := New locked_world "proj" [] empty_state in
  os_ReadDir locked_world "proj" = ([], Some permission_denied)
  /\ defaultVarFiles r.1 = ["proj/terraform.tfvars"]
  /\ (ParseDirectory locked_world r.1 r.2).1 = (None, Some permission_denied).
Proof. by vm_compute. Qed.

(** ** Explicit variable files *)

Lemma readable_read w filename :
  (os_ReadFile w filename).2 = None -> readable w filename.
Proof.
  intros H. unfold readable, file_vars.
  destruct (String.eqb filename ""); [done|].
  destruct (os_ReadFile w filename) as [src o]. cbn [snd] in H. by subst o.
Qed.

Lemma merge_explicit_files_failure w before filename after err base :
  Forall (readable w) before ->
  filename <> "" -> (os_ReadFile w filename).2 = Some err ->
  (merge_explicit_files w (before ++ filename :: after) base).2
  = Some (load_error (read_error filename err)).
Proof.
  intros Hb Hn Hr. revert base.
  induction Hb as [|name before Hname _ IH]; intros base.
  - cbn [app merge_explicit_files]. unfold file_vars.
    apply String.eqb_neq in Hn. rewrite Hn.
    destruct (os_ReadFile w filename) as [src o]. cbn [snd] in Hr. by subst o.
  - cbn [app merge_explicit_files]. unfold readable in Hname.
    destruct (file_vars w name) as [vars o]. cbn [snd] in Hname. subst o.
    apply IH.
Qed.

(** C2, amended. An explicit variable file whose path does not exist is
    dropped by [OptionWithTFVarsPaths] with a warning, and resolution never
    sees it. An explicit variable file that exists and cannot be read makes
    [loadVars] stop with an error. A file that can be read raises no error,
    whatever its content: the diagnostics of parsing it are dropped. *)
Theorem explicit_var_files :
  (forall w paths p st,
     let r := OptionWithTFVarsPaths w paths p st in
     tfvarsPaths r.1
     = filter (fun tfvp => os_Stat w tfvp = None) (path_Join w (initialPath p) <$> paths)
     /\ forall name, name ∈ paths ->
          os_Stat w (path_Join w (initialPath p) name) <> None ->
          (path_Join w (initialPath p) name ∉ tfvarsPaths r.1)
          /\ dropped_path (path_Join w (initialPath p) name) ∈ logs r.2)
  /\ (forall w p blocks filenames st,
        range_ok w -> wf_parser st p -> remote_succeeds w p blocks ->
        let r := loadVars w p blocks filenames st in
        (Forall (fun filename => (os_ReadFile w filename).2 = None) filenames ->
           r.1.2 = None)
        /\ (forall before filename after err,
              filenames = before ++ filename :: after ->
              Forall (fun filename => (os_ReadFile w filename).2 = None) before ->
              filename <> "" ->
              (os_ReadFile w filename).2 = Some err ->
              r.1.2 = Some (load_error (read_error filename err)))).
Proof.
  split.
  - intros w paths p st r.
    destruct (OptionWithTFVarsPaths_spec w paths p st) as (H1&_&H3).
    fold r in H1, H3. rewrite H1. cbn [tfvarsPaths set_tfvarsPaths].
    split; [done|]. intros name Hin Hs. split; [|by apply H3].
    intros Hf. apply list_elem_of_filter in Hf as [Hf _]. done.
  - intros w p blocks filenames st Hw Hwf Hrem r.
    destruct (loadVars_spec w p blocks filenames st Hw Hwf) as (H1&_).
    fold r in H1. rewrite H1. cbn [snd]. split.
    + intros Hf. rewrite resolved_sources; [done | done |].
      eapply Forall_impl; [exact Hf|]. intros f. apply readable_read.
    + intros before filename after err -> Hb Hn Hr.
      assert (Forall (readable w) before) as Hb'.
      { eapply Forall_impl; [exact Hb|]. intros f. apply readable_read. }
      unfold resolved, resolved_files.
      assert (forall base inputs,
        (let (m, o) := merge_explicit_files w (before ++ filename :: after)
                         (merge_default_files w (defaultVarFiles p) base) in
         match o with Some err => (m, Some err) | None => (inputs ∪ m, None) end).2
        = Some (load_error (read_error filename err))) as H.
      { intros base inputs.
        pose proof (merge_explicit_files_failure w before filename after err
          (merge_default_files w (defaultVarFiles p) base) Hb' Hn Hr) as He.
        destruct (merge_explicit_files _ _ _) as [m o]. cbn [snd] in He. by subst o. }
      destruct (remoteVariablesLoader p) as [loader|] eqn:Hl; [|apply H].
      specialize (Hrem loader Hl).
      destruct (RemoteVariablesLoader_Load w loader blocks) as [rv o].
      cbn [snd] in Hrem. subst o. apply H.
Qed.

Lemma explicit_var_files_witness :
  let w := malformed_world in
  let r := New w "proj" [OptionWithTFVarsPaths w ["modules"]] empty_state in
  (loadVars w r.1 [] (tfvarsPaths r.1) r.2).1.2
  = Some (load_error (read_error "proj/modules" (errors_New "cannot read"))).
Proof.
  intros w r.
  apply (proj2 (proj2 explicit_var_files w r.1 [] (tfvarsPaths r.1) r.2
          ltac:(intros V m; reflexivity)
          ltac:(repeat split; intros l; vm_compute; intros H; inversion H)
          ltac:(intros loader; vm_compute; discriminate))
          [] "proj/modules" [] (errors_New "cannot read")).
  - reflexivity.
  - constructor.
  - discriminate.
  - reflexivity.
Defined.

(** The second half of C2 as the specification states it fails: a
    variable file that exists and is not valid HCL does not make [loadVars]
    return an error. *)
Lemma malformed_explicit_file_is_accepted :
  let w := malformed_world in
  let r := New w "proj" [OptionWithTFVarsPaths w ["broken.tfvars"]] empty_state in
  tfvarsPaths r.1 = ["proj/broken.tfvars"]
  /\ os_Stat w "proj/broken.tfvars" = None
  /\ HasErrors (hclsyntax_ParseConfig w (os_ReadFile w "proj/broken.tfvars").1
                  "proj/broken.tfvars").2 = true
  /\ ~ is_Some ((loadVars w r.1 [] (tfvarsPaths r.1) r.2).1.2).
Proof.
  repeat split; try by vm_compute.
  vm_compute. intros [e He]. discriminate.
Qed.


(** ** Entries of the environment *)

Lemma string_app_assoc (a b c : string) : (a +:+ b) +:+ c = a +:+ b +:+ c.
Proof.
  induction a as [|x a IH]; [done|].
  change (String x ((a +:+ b) +:+ c) = String x (a +:+ b +:+ c)). by rewrite IH.
Qed.

Lemma string_length_app (a b : string) :
  String.length (a +:+ b) = String.length a + String.length b.
Proof.
  induction a as [|x a IH]; [done|].
  change (S (String.length (a +:+ b)) = S (String.length a + String.length b)).
  by rewrite IH.
Qed.

Lemma substring_app_l (a b : string) : substring 0 (String.length a) (a +:+ b) = a.
Proof.
  induction a as [|x a IH]; [by destruct b|].
  change (String x (substring 0 (String.length a) (a +:+ b)) = String x a).
  by rewrite IH.
Qed.

Lemma Index_equals_app (name rest : string) :
  no_equals name ->
  strings_Index (name +:+ "=" +:+ rest) "=" = Some (String.length name).
Proof.
  unfold no_equals, strings_Index.
  induction name as [|c name IH]; intros H.
  { change ("" +:+ "=" +:+ rest) with (String "=" rest).
    destruct rest; cbn [index String.prefix String.length];
      by destruct (ascii_dec "=" "="). }
  change (String c name +:+ "=" +:+ rest) with (String c (name +:+ "=" +:+ rest)).
  cbn [index] in *. cbn [String.prefix] in *.
  destruct (ascii_dec "=" c) as [->|Hc].
  - by destruct name.
  - destruct (index 0 "=" name) eqn:Hi; [done|]. by rewrite IH.
Qed.

Lemma genSplit_step rounds (name rest : string) :
  no_equals name ->
  genSplit (S rounds) (name +:+ "=" +:+ rest) "="
  = name :: genSplit rounds rest "=".
Proof.
  intros H. cbn [genSplit]. rewrite (Index_equals_app _ _ H).
  rewrite substring_app_l. f_equal.
  change (String.length "=") with 1.
  replace (String.length name + 1) with (String.length (name +:+ "=")).
  - by rewrite <- string_app_assoc, slice_from_app.
  - by rewrite string_length_app.
Qed.

Lemma genSplit_no_equals rounds (value : string) :
  no_equals value -> genSplit rounds value "=" = [value].
Proof. intros H. destruct rounds; [done|]. cbn [genSplit]. by rewrite H. Qed.

Lemma genSplit_nonempty rounds (s sep : string) : genSplit rounds s sep <> [].
Proof. destruct rounds; [done|]. cbn [genSplit]. by destruct (strings_Index s sep). Qed.

Lemma length_substring_le n m s : String.length (substring n m s) <= m.
Proof.
  revert n m. induction s as [|c s IH]; intros n m.
  - destruct n, m; simpl; lia.
  - destruct n as [|n].
    + destruct m as [|m]; simpl; [lia|]. specialize (IH 0 m). lia.
    + simpl. apply IH.
Qed.

(** The rounds [strings_Split] gives [genSplit] are enough: more rounds
    cut the string in the same pieces. *)
Lemma genSplit_rounds rounds extra (s sep : string) :
  sep <> "" -> String.length s <= rounds ->
  genSplit (rounds + extra) s sep = genSplit rounds s sep.
Proof.
  intros Hsep. revert s. induction rounds as [|rounds IH]; intros s Hlen.
  - destruct s; [|simpl in Hlen; lia].
    destruct extra; [done|]. cbn [Nat.add genSplit]. unfold strings_Index.
    by destruct sep.
  - cbn [Nat.add genSplit]. destruct (strings_Index s sep) as [m|]; [|done].
    f_equal. apply IH. unfold slice_from.
    pose proof (length_substring_le (m + String.length sep)
                  (String.length s - (m + String.length sep)) s).
    destruct sep; [done|]. simpl in *. lia.
Qed.

(** An entry [TF_VAR_name=value] without "=" in the value sets [name]. *)
Lemma environ_entry_plain (name value : string) :
  no_equals name -> no_equals value ->
  environ_entry (TF_VAR_ +:+ name +:+ "=" +:+ value)
  = Some (name, cty_StringVal value).
Proof.
  intros Hn Hv. unfold environ_entry.
  rewrite HasPrefix_app, slice_from_app. unfold strings_Split.
  rewrite string_length_app. change (String.length ("=" +:+ value))
    with (S (String.length value)).
  rewrite Nat.add_succ_r, (genSplit_step _ _ _ Hn).
  by rewrite (genSplit_no_equals _ _ Hv).
Qed.

(** An entry whose value contains "=" sets nothing. *)
Lemma environ_entry_equals_in_value (name value rest : string) :
  no_equals name -> no_equals value ->
  environ_entry (TF_VAR_ +:+ name +:+ "=" +:+ value +:+ "=" +:+ rest) = None.
Proof.
  intros Hn Hv. unfold environ_entry.
  rewrite HasPrefix_app, slice_from_app. unfold strings_Split.
  rewrite !string_length_app.
  change (String.length "=") with 1.
  replace (String.length name + (1 + (String.length value + (1 + String.length rest))))
    with (S (S (String.length name + String.length value + String.length rest)))
    by lia.
  rewrite (genSplit_step _ _ _ Hn), (genSplit_step _ _ _ Hv).
  pose proof (genSplit_nonempty
    (String.length name + String.length value + String.length rest) rest "=") as H.
  by destruct (genSplit _ rest "=").
Qed.

(** The variables of the project's environment are taken as they are. *)
Lemma OptionWithTFEnvVars_project w projectEnv p st name value :
  range_ok w ->
  projectEnv !! (TF_VAR_ +:+ name) = Some value ->
  content (OptionWithTFEnvVars w projectEnv p st).2 (next st) !! name
  = Some (cty_StringVal value).
Proof.
  intros Hw Hv.
  destruct (OptionWithTFEnvVars_spec w projectEnv p st Hw) as (_&H&_).
  rewrite H. apply lookup_union_Some_l. by rewrite lookup_project_vars, Hv.
Qed.

(** C7 fails on the code for a value that contains "=": the entry
    TF_VAR_tags=env=prod of the process environment sets no variable, where
    the same entry in the project's environment sets tags to env=prod. *)
Theorem OptionWithTFEnvVars_value_with_equals :
  tf_env_vars tagged_world ∅ !! "region" = Some (cty_StringVal "us-east-1")
  /\ tf_env_vars tagged_world ∅ !! "tags" = None
  /\ tf_env_vars tagged_world {[ "TF_VAR_tags" := "env=prod" ]} !! "tags"
     = Some (cty_StringVal "env=prod")
  /\ tf_env_vars tagged_world {[ "TF_VAR_region" := "eu-west-1" ]} !! "region"
     = Some (cty_StringVal "eu-west-1").
Proof. repeat split; by vm_compute. Qed.

(** ** Aliasing and determinism *)

Lemma loadVars_next w p blocks filenames st :
  range_ok w -> wf_parser st p ->
  next st <= next (loadVars w p blocks filenames st).2.
Proof.
  intros Hw (Hwf1&Hwf2&Hwf3). unfold loadVars. unfold mbind, M_bind, mret, M_ret.
  assert (forall dst st1, (forall l, inputVars p = Some l -> l <> dst) ->
            next st <= next st1 ->
            next st <= next (loadVars_files w p filenames dst st1).2) as Hfiles.
  { intros dst st1 Hin Hn.
    destruct (loadVars_files_spec w p filenames dst st1 Hw Hin) as (_&_&H&_).
    cbn zeta in H. lia. }
  assert (forall dst st1, (forall l, inputVars p = Some l -> l <> dst) ->
            next st <= next st1 ->
            next st <= next (match remoteVariablesLoader p with
              | Some loader =>
                  let '(remoteVars, err) := RemoteVariablesLoader_Load w loader blocks in
                  match err with
                  | Some err => fun st0 =>
                      let '(_, st') := log_Warnf "could not load vars from Terraform Cloud: %s"
                                         [op_error err] st0 in
                      (dst, Some err, st')
                  | None => fun st0 =>
                      let '(_, st') := copy_entries w remoteVars dst st0 in
                      loadVars_files w p filenames dst st'
                  end
              | None => loadVars_files w p filenames dst
              end st1).2) as Hrest.
  { intros dst st1 Hin Hn. destruct (remoteVariablesLoader p) as [loader|].
    - destruct (RemoteVariablesLoader_Load w loader blocks) as [remoteVars [err|]].
      + done.
      + destruct (copy_entries_updates w remoteVars dst st1 Hw) as [(_&H&_) _].
        destruct (copy_entries w remoteVars dst st1) as [[] st2]. cbn [snd] in H.
        apply Hfiles; [done | lia].
    - by apply Hfiles. }
  destruct (tfEnvVars p) as [l|] eqn:Htf.
  - apply Hrest; [|done]. intros li Hli ->. by eapply Hwf3.
  - cbn beta iota zeta. apply Hrest; cbn; [|lia].
    intros li Hli. apply Hwf2 in Hli. lia.
Qed.

Lemma merge_default_files_base w names base :
  merge_default_files w names base = merge_default_files w names ∅ ∪ base.
Proof.
  rewrite !merge_default_files_overlay. generalize (loaded_files w names).
  intros srcs. apply map_eq. intros k. rewrite lookup_union, !lookup_overlay_all.
  rewrite lookup_empty. by destruct (highest k srcs), (base !! k).
Qed.

Lemma merge_explicit_files_base w names base :
  merge_explicit_files w names base
  = ((merge_explicit_files w names ∅).1 ∪ base, (merge_explicit_files w names ∅).2).
Proof.
  assert (forall acc base,
    merge_explicit_files w names (acc ∪ base)
    = ((merge_explicit_files w names acc).1 ∪ base,
       (merge_explicit_files w names acc).2)) as H.
  { induction names as [|name names IH]; intros acc base'; [done|].
    cbn [merge_explicit_files].
    destruct (file_vars w name) as [vars [err|]]; [done|].
    by rewrite (assoc_L (∪)), IH. }
  rewrite <- (H ∅ base). by rewrite (left_id_L ∅ (∪)).
Qed.

Lemma resolved_files_base w p filenames base inputs :
  resolved_files w p filenames base inputs
  = ((resolved_files w p filenames ∅ inputs).1 ∪ base,
     (resolved_files w p filenames ∅ inputs).2).
Proof.
  unfold resolved_files.
  rewrite (merge_default_files_base w _ base).
  rewrite (merge_explicit_files_base w filenames (_ ∪ base)).
  rewrite (merge_explicit_files_base w filenames (merge_default_files _ _ ∅)).
  destruct (merge_explicit_files w filenames ∅) as [m [err|]]; cbn [fst snd].
  - by rewrite (assoc_L (∪)).
  - by rewrite !(assoc_L (∪)).
Qed.

Lemma resolved_base w p blocks filenames env inputs :
  resolved w p blocks filenames env inputs
  = ((resolved w p blocks filenames ∅ inputs).1 ∪ env,
     (resolved w p blocks filenames ∅ inputs).2).
Proof.
  unfold resolved. destruct (remoteVariablesLoader p) as [loader|].
  - destruct (RemoteVariablesLoader_Load w loader blocks) as [remoteVars [err|]].
    + cbn [fst snd]. by rewrite (left_id_L ∅ (∪)).
    + rewrite (resolved_files_base w p filenames (remoteVars ∪ env)).
      rewrite (resolved_files_base w p filenames (remoteVars ∪ ∅)).
      cbn [fst snd]. by rewrite (right_id_L ∅ (∪)), (assoc_L (∪)).
  - rewrite (resolved_files_base w p filenames env). done.
Qed.

(** Resolving again over what was resolved changes nothing. *)
Lemma resolved_again w p blocks filenames env inputs :
  resolved w p blocks filenames (resolved w p blocks filenames env inputs).1 inputs
  = resolved w p blocks filenames env inputs.
Proof.
  rewrite (resolved_base w p blocks filenames (resolved _ _ _ _ env _).1).
  rewrite (resolved_base w p blocks filenames env). cbn [fst snd].
  by rewrite (assoc_L (∪)), (idemp_L (∪)).
Qed.

Lemma file_vars_same w1 w2 filename :
  os_ReadFile w1 filename = os_ReadFile w2 filename ->
  (forall src name, hclsyntax_ParseConfig w1 src name = hclsyntax_ParseConfig w2 src name) ->
  file_vars w1 filename = file_vars w2 filename.
Proof.
  intros Hr Hp. unfold file_vars. rewrite Hr.
  destruct (String.eqb filename ""); [done|].
  destruct (os_ReadFile w2 filename) as [src [err|]]; [done|]. by rewrite Hp.
Qed.

Lemma merge_default_files_same w1 w2 names base :
  (forall name, name ∈ names -> file_vars w1 name = file_vars w2 name) ->
  merge_default_files w1 names base = merge_default_files w2 names base.
Proof.
  unfold merge_default_files. revert base.
  induction names as [|name names IH]; intros base H; [done|].
  cbn [fold_left]. rewrite (H name) by (by left). apply IH.
  intros name' Hin. apply H. by right.
Qed.

Lemma merge_explicit_files_same w1 w2 names base :
  (forall name, name ∈ names -> file_vars w1 name = file_vars w2 name) ->
  merge_explicit_files w1 names base = merge_explicit_files w2 names base.
Proof.
  revert base. induction names as [|name names IH]; intros base H; [done|].
  cbn [merge_explicit_files]. rewrite (H name) by (by left).
  destruct (file_vars w2 name) as [vars [err|]]; [done|]. apply IH.
  intros name' Hin. apply H. by right.
Qed.

Lemma resolved_same w1 w2 p1 p2 blocks1 blocks2 filenames env inputs :
  remote_result w1 p1 blocks1 = remote_result w2 p2 blocks2 ->
  defaultVarFiles p1 = defaultVarFiles p2 ->
  (forall name, name ∈ defaultVarFiles p1 ++ filenames ->
     file_vars w1 name = file_vars w2 name) ->
  resolved w1 p1 blocks1 filenames env inputs
  = resolved w2 p2 blocks2 filenames env inputs.
Proof.
  intros Hrem Hd Hf. unfold resolved, resolved_files, remote_result in *.
  rewrite <- Hd.
  assert (forall base,
    merge_explicit_files w1 filenames (merge_default_files w1 (defaultVarFiles p1) base)
    = merge_explicit_files w2 filenames (merge_default_files w2 (defaultVarFiles p1) base))
    as H.
  { intros base. rewrite (merge_default_files_same w1 w2).
    - apply merge_explicit_files_same. intros name Hin. apply Hf.
      apply elem_of_app. by right.
    - intros name Hin. apply Hf. apply elem_of_app. by left. }
  destruct (remoteVariablesLoader p1) as [l1|], (remoteVariablesLoader p2) as [l2|];
    cbn in Hrem; try done.
  - injection Hrem as ->.
    destruct (RemoteVariablesLoader_Load w2 l2 blocks2) as [rv [err|]]; [done|].
    by rewrite H.
  - by rewrite H.
Qed.

(** C8. Variable resolution is deterministic: two runs of [loadVars], in
    stores laid out differently and with [range] loops visiting the maps
    in different orders, over the same variables of the environment, the
    same remote result, the same variable files with the same content and
    the same direct inputs, return the same mapping and the same error. *)
Theorem loadVars_deterministic :
  forall w1 w2 p1 p2 blocks1 blocks2 filenames st1 st2,
    range_ok w1 -> range_ok w2 ->
    wf_parser st1 p1 -> wf_parser st2 p2 ->
    field_content st1 (tfEnvVars p1) = field_content st2 (tfEnvVars p2) ->
    remote_result w1 p1 blocks1 = remote_result w2 p2 blocks2 ->
    defaultVarFiles p1 = defaultVarFiles p2 ->
    (forall filename, filename ∈ defaultVarFiles p1 ++ filenames ->
       os_ReadFile w1 filename = os_ReadFile w2 filename) ->
    (forall src filename,
       hclsyntax_ParseConfig w1 src filename = hclsyntax_ParseConfig w2 src filename) ->
    field_content st1 (inputVars p1) = field_content st2 (inputVars p2) ->
    let r1 := loadVars w1 p1 blocks1 filenames st1 in
    let r2 := loadVars w2 p2 blocks2 filenames st2 in
    content r1.2 r1.1.1 = content r2.2 r2.1.1 /\ r1.1.2 = r2.1.2.
Proof.
  intros w1 w2 p1 p2 blocks1 blocks2 filenames st1 st2 Hw1 Hw2 Hwf1 Hwf2
    Henv Hrem Hd Hfiles Hparse Hin r1 r2.
  destruct (loadVars_spec w1 p1 blocks1 filenames st1 Hw1 Hwf1) as (A1&A2&_).
  destruct (loadVars_spec w2 p2 blocks2 filenames st2 Hw2 Hwf2) as (B1&B2&_).
  fold r1 in A1, A2. fold r2 in B1, B2.
  rewrite A1, B1. cbn [fst snd]. rewrite A2, B2, Henv, Hin.
  rewrite (resolved_same w1 w2 p1 p2 blocks1 blocks2); [done | done | done |].
  intros name Hname. apply file_vars_same; [by apply Hfiles | exact Hparse].
Qed.

Lemma reversed_range_ok w : range_ok w -> range_ok (reversed w).
Proof. intros Hw V m. cbn. by rewrite reverse_Permutation. Qed.

Lemma loadVars_deterministic_witness :
  let r1 := loadVars region_world first_run.1 [] [] first_run.2 in
  let r2 := loadVars (reversed region_world) second_run.1 [] [] second_run.2 in
  content r1.2 r1.1.1 = content r2.2 r2.1.1 /\ r1.1.2 = r2.1.2.
Proof.
  apply loadVars_deterministic.
  - intros V m. reflexivity.
  - apply reversed_range_ok. intros V m. reflexivity.
  - repeat split; intros l; vm_compute; intros H; inversion H; lia.
  - repeat split; intros l; vm_compute; intros H; inversion H; try lia.
    intros H'. inversion H'.
  - by vm_compute.
  - reflexivity.
  - reflexivity.
  - reflexivity.
  - reflexivity.
  - by vm_compute.
Defined.

(** A second run on the same parser, which starts from the map the first
    run wrote to, returns the same mapping and the same error. *)
Lemma loadVars_twice w p blocks filenames st :
  range_ok w -> wf_parser st p ->
  let r1 := loadVars w p blocks filenames st in
  let r2 := loadVars w p blocks filenames r1.2 in
  content r2.2 r2.1.1 = content r1.2 r1.1.1 /\ r2.1.2 = r1.1.2.
Proof.
  intros Hw Hwf r1 r2.
  assert (wf_parser r1.2 p) as Hwf'.
  { eapply wf_parser_mono; [done | done | | exact Hwf]. by apply loadVars_next. }
  destruct (loadVars_spec w p blocks filenames st Hw Hwf) as (A1&A2&A3&_).
  destruct (loadVars_spec w p blocks filenames r1.2 Hw Hwf') as (B1&B2&B3&_).
  fold r1 in A1, A2, A3, B1, B2, B3. fold r2 in B1, B2, B3.
  assert (field_content r1.2 (inputVars p) = field_content st (inputVars p)) as Hin.
  { destruct (inputVars p) as [li|] eqn:Hli; [|done]. cbn. apply A3.
    destruct Hwf as (_&Hi&Hd). destruct (tfEnvVars p) as [l|] eqn:Hl; cbn.
    - intros ->. by eapply Hd.
    - apply Hi in Hli. lia. }
  rewrite Hin in B1, B2. rewrite B1, A1. cbn [fst snd]. rewrite B2, A2.
  destruct (tfEnvVars p) as [l|] eqn:Hl;
    cbn [field_content default from_option id] in *.
  - rewrite A2. by rewrite resolved_again.
  - done.
Qed.

(** C9. [loadVars] works on the parser's own map when it has one: the map
    it returns is the map of the field [tfEnvVars], which afterwards holds
    the merged variables, so that every name resolves in it to the value of
    the highest source, and the direct inputs are in it. The same holds
    after a call of [ParseDirectory] that reaches variable resolution. *)
Theorem loadVars_aliases_tfEnvVars :
  forall w p blocks filenames st l,
    range_ok w -> wf_parser st p -> tfEnvVars p = Some l ->
    let r := loadVars w p blocks filenames st in
    let after := ParseDirectory w p st in
    let inputs := field_content st (inputVars p) in
    r.1.1 = l
    /\ content r.2 l = (resolved w p blocks filenames (content st l) inputs).1
    /\ (remote_succeeds w p blocks -> Forall (readable w) filenames ->
        (forall k, content r.2 l !! k
                   = highest k (sources w p blocks filenames (content st l) inputs))
        /\ (forall k v, inputs !! k = Some v -> content r.2 l !! k = Some v))
    /\ (forall blocks', directory_blocks w p = (blocks', None) -> blocks' <> [] ->
          content after.2 l
          = (resolved w p blocks' (tfvarsPaths p) (content st l) inputs).1).
Proof.
  intros w p blocks filenames st l Hw Hwf Hl r after inputs.
  destruct (loadVars_spec w p blocks filenames st Hw Hwf) as (H1&H2&_).
  fold r in H1, H2. rewrite Hl in H1, H2. cbn [default from_option id field_content] in H1, H2.
  fold inputs in H1, H2.
  split; [by rewrite H1|]. split; [exact H2|]. split.
  - intros Hrem Hfiles.
    assert (forall k, content r.2 l !! k
              = highest k (sources w p blocks filenames (content st l) inputs)) as Hk.
    { intros k. rewrite H2, (resolved_sources _ _ _ _ _ _ Hrem Hfiles). cbn [fst].
      rewrite lookup_overlay_all, lookup_empty. by destruct (highest k _). }
    split; [exact Hk|]. intros k v Hv. rewrite Hk. unfold sources.
    rewrite !app_assoc, highest_snoc. by rewrite Hv.
  - intros blocks' Hb Hne.
    destruct (ParseDirectory_spec w p st Hw Hwf) as (_&_&H3&_).
    fold after in H3. rewrite Hl in H3. cbn [default from_option id field_content] in H3.
    by apply H3.
Qed.

Lemma loadVars_aliases_tfEnvVars_witness :
  let p := tagged_parser.1 in
  let st := tagged_parser.2 in
  let r := loadVars tagged_world p [] [] st in
  tfEnvVars p = Some r.1.1
  /\ content st r.1.1 !! "owner" = None
  /\ content r.2 r.1.1 !! "owner" = Some (cty_StringVal "platform").
Proof.
  intros p st r.
  destruct (loadVars_aliases_tfEnvVars tagged_world p [] [] st 0) as (H1&_&H3&_).
  - intros V m. reflexivity.
  - repeat split; intros l; vm_compute; intros H; inversion H; try lia.
    intros H'. inversion H'.
  - reflexivity.
  - fold r in H1, H3. rewrite H1. split; [reflexivity|]. split; [by vm_compute|].
    apply H3.
    + intros loader. vm_compute. discriminate.
    + constructor.
    + by vm_compute.
Defined.

(** * The options *)

Lemma for_each_app {A : Type} (l1 l2 : list A) (body : A -> M unit) st :
  for_each (l1 ++ l2) body st = for_each l2 body (for_each l1 body st).2.
Proof.
  revert st. induction l1 as [|a l1 IH]; intros st; [done|].
  cbn [app for_each]. unfold mbind, M_bind.
  destruct (body a st) as [[] st1]. apply IH.
Qed.

Lemma omap_Some_fmap {A B : Type} (g : A -> B) (l : list A) :
  omap (fun a => Some (g a)) l = g <$> l.
Proof. induction l as [|a l IH]; [done|]. cbn. by rewrite IH. Qed.

Lemma Split_plain (name value : string) :
  no_equals name -> no_equals value ->
  strings_Split (name +:+ "=" +:+ value) "=" = [name; value].
Proof.
  intros Hn Hv. unfold strings_Split.
  rewrite string_length_app. change (String.length ("=" +:+ value))
    with (S (String.length value)).
  rewrite Nat.add_succ_r, (genSplit_step _ _ _ Hn).
  by rewrite (genSplit_no_equals _ _ Hv).
Qed.

Lemma Split_no_equals (s : string) : no_equals s -> strings_Split s "=" = [s].
Proof. intros H. unfold strings_Split. by apply genSplit_no_equals. Qed.

Lemma Split_two_equals (a b rest : string) :
  no_equals a -> no_equals b ->
  exists pieces, pieces <> []
    /\ strings_Split (a +:+ "=" +:+ b +:+ "=" +:+ rest) "=" = a :: b :: pieces.
Proof.
  intros Ha Hb. unfold strings_Split.
  rewrite !string_length_app.
  change (String.length "=") with 1.
  replace (String.length a + (1 + (String.length b + (1 + String.length rest))))
    with (S (S (String.length a + String.length b + String.length rest)))
    by lia.
  rewrite (genSplit_step _ _ _ Ha), (genSplit_step _ _ _ Hb).
  eexists. split; [|done]. apply genSplit_nonempty.
Qed.

(** The input map after [ensure_inputVars]: the parser's own, or a new and
    empty one. *)
Lemma ensure_inputVars_content p st :
  let r := ensure_inputVars p st in
  let dst := default (next st) (inputVars p) in
  r.1 = (set_inputVars (Some dst) p, dst)
  /\ content r.2 dst = field_content st (inputVars p)
  /\ (forall l, l <> dst -> content r.2 l = content st l)
  /\ next r.2 = match inputVars p with Some _ => next st | None => S (next st) end
  /\ logs r.2 = logs st /\ written r.2 = written st.
Proof.
  unfold ensure_inputVars. destruct (inputVars p) as [l|] eqn:Hl.
  - cbn. repeat split. destruct p; cbn in *. by subst.
  - unfold mbind, M_bind, mret, M_ret.
    assert (make_map st = (next st, (make_map st).2)) as -> by done.
    cbn [fst snd default from_option id field_content].
    repeat split.
    + rewrite make_map_content. by case_decide.
    + intros l Hl'. rewrite make_map_content. by case_decide.
Qed.

Lemma input_entries {A : Type} (l : list A) (f : A -> option (string * cty_Value))
    (body : ref -> A -> M unit) p st :
  (forall dst a, body dst a = match f a with
                              | Some kv => map_store dst kv.1 kv.2
                              | None => mret tt
                              end) ->
  let r := ('(p, dst) ← ensure_inputVars p; for_each l (body dst) ;; mret p) st in
  let dst := default (next st) (inputVars p) in
  r.1 = set_inputVars (Some dst) p
  /\ content r.2 dst = fold_left put (omap f l) (field_content st (inputVars p))
  /\ (forall l, l <> dst -> content r.2 l = content st l)
  /\ next r.2 = match inputVars p with Some _ => next st | None => S (next st) end
  /\ logs r.2 = logs st /\ written r.2 = written st.
Proof.
  intros Hbody. unfold mbind, M_bind, mret, M_ret. cbn zeta.
  destruct (ensure_inputVars_content p st) as (H1&H2&H3&H4&H5&H6).
  destruct (ensure_inputVars p st) as [[p1 dst] st1]. cbn [fst snd] in *.
  injection H1 as -> ->.
  destruct (for_each_entries l f (body (default (next st) (inputVars p)))
              (default (next st) (inputVars p)) st1) as [(U1&U2&U3&U4&_) U5];
    [apply Hbody|].
  destruct (for_each l _ st1) as [[] st2]. cbn [fst snd] in *.
  rewrite U1, H2, U2, U3, U5. repeat split; try done.
  intros l' Hl'. by rewrite U4, H3.
Qed.

Lemma OptionWithPlanFlagVars_spec vs p st :
  let r := OptionWithPlanFlagVars vs p st in
  let dst := default (next st) (inputVars p) in
  r.1 = set_inputVars (Some dst) p
  /\ content r.2 dst = fold_left put (omap flag_entry vs) (field_content st (inputVars p))
  /\ (forall l, l <> dst -> content r.2 l = content st l)
  /\ next r.2 = match inputVars p with Some _ => next st | None => S (next st) end
  /\ logs r.2 = logs st /\ written r.2 = written st.
Proof.
  apply (input_entries vs flag_entry (fun vars v =>
    match strings_Split v "=" with
    | [name; value] => map_store vars name (cty_StringVal value)
    | _ => mret tt
    end)).
  intros dst v. unfold flag_entry.
  by destruct (strings_Split v "=") as [|? [|? [|? ?]]].
Qed.

(** X1. [OptionWithInputVars] adds every given variable, as a string
    value, to the input map of the parser: to the map the parser has, whose
    other entries stay, or to a new map when it has none. Nothing else in
    the parser or in the store changes, nothing is logged, and the result
    does not depend on the order in which the given map is visited. *)
Theorem OptionWithInputVars_merges w vars p st :
  range_ok w ->
  let r := OptionWithInputVars w vars p st in
  let dst := default (next st) (inputVars p) in
  r.1 = set_inputVars (Some dst) p
  /\ content r.2 dst = (cty_StringVal <$> vars) ∪ field_content st (inputVars p)
  /\ (forall l, l <> dst -> content r.2 l = content st l)
  /\ logs r.2 = logs st.
Proof.
  intros Hw r dst.
  destruct (input_entries (range_order w _ vars)
              (fun kv => Some (kv.1, cty_StringVal kv.2))
              (fun dst kv => map_store dst kv.1 (cty_StringVal kv.2)) p st)
    as (H1&H2&H3&_&H5&_); [done|].
  refine (conj H1 (conj _ (conj H3 H5))).
  unfold r, dst, OptionWithInputVars. rewrite H2, omap_Some_fmap.
  apply fold_left_put_range.
  rewrite (Hw _ vars), map_to_list_fmap. done.
Qed.

Lemma OptionWithInputVars_merges_witness :
  let p := (New region_world "proj" [] empty_state).1 in
  let r := OptionWithInputVars region_world owner_input p empty_state in
  r.1 = set_inputVars (Some 0) p
  /\ content r.2 0 = (cty_StringVal <$> owner_input) ∪ ∅
  /\ (forall l, l <> 0 -> content r.2 l = content empty_state l)
  /\ logs r.2 = [].
Proof.
  apply (OptionWithInputVars_merges region_world owner_input
           (New region_world "proj" [] empty_state).1 empty_state).
  intros V m. reflexivity.
Defined.

(** X2. [OptionWithPlanFlagVars] sets the variable of a flag [name=value]
    to the string [value]; the last flag of the list prevails over the
    flags before it and over what the input map held. *)
Theorem OptionWithPlanFlagVars_last_flag vs name value p st :
  no_equals name -> no_equals value ->
  let r := OptionWithPlanFlagVars (vs ++ [name +:+ "=" +:+ value]) p st in
  exists dst, inputVars r.1 = Some dst
    /\ content r.2 dst !! name = Some (cty_StringVal value).
Proof.
  intros Hn Hv r.
  destruct (OptionWithPlanFlagVars_spec (vs ++ [name +:+ "=" +:+ value]) p st)
    as (H1&H2&_).
  fold r in H1, H2. eexists. split; [by rewrite H1|].
  assert (omap flag_entry [name +:+ "=" +:+ value] = [(name, cty_StringVal value)])
    as Hlast.
  { change (omap flag_entry [name +:+ "=" +:+ value])
      with (match flag_entry (name +:+ "=" +:+ value) with
            | Some y => [y]
            | None => []
            end).
    unfold flag_entry. by rewrite (Split_plain _ _ Hn Hv). }
  rewrite H2, omap_app, fold_left_app, Hlast. apply lookup_insert_eq.
Qed.

Lemma OptionWithPlanFlagVars_last_flag_witness :
  let r := OptionWithPlanFlagVars
             (["region=us-east-1"] ++ ["region" +:+ "=" +:+ "eu-west-1"])
             (New region_world "proj" [] empty_state).1 empty_state in
  exists dst, inputVars r.1 = Some dst
    /\ content r.2 dst !! "region" = Some (cty_StringVal "eu-west-1").
Proof.
  apply (OptionWithPlanFlagVars_last_flag ["region=us-east-1"] "region" "eu-west-1");
    reflexivity.
Defined.

(** X3. A flag without "=", or with more than one, is ignored by
    [OptionWithPlanFlagVars]: the parser and the state are those the
    option leaves without this flag, and nothing is logged for it. *)
Theorem OptionWithPlanFlagVars_ignores_malformed before flag after p st :
  (no_equals flag
   \/ exists a b rest, no_equals a /\ no_equals b
        /\ flag = a +:+ "=" +:+ b +:+ "=" +:+ rest) ->
  OptionWithPlanFlagVars (before ++ flag :: after) p st
  = OptionWithPlanFlagVars (before ++ after) p st.
Proof.
  intros Hflag. unfold OptionWithPlanFlagVars. unfold mbind, M_bind, mret, M_ret.
  destruct (ensure_inputVars p st) as [[p1 vars] st1].
  rewrite !for_each_app. cbn [for_each]. unfold mbind, M_bind, mret, M_ret.
  destruct (for_each before _ st1) as [[] st2]. cbn [snd].
  assert (exists pieces, strings_Split flag "=" = pieces
            /\ forall name value, pieces <> [name; value]) as (pieces&->&Hp).
  { destruct Hflag as [H|(a&b&rest&Ha&Hb&->)].
    - rewrite (Split_no_equals _ H). by eexists.
    - destruct (Split_two_equals a b rest Ha Hb) as (pieces&Hne&->).
      eexists. split; [done|]. intros name value [= _ _ ->]. done. }
  destruct pieces as [|? [|? [|? ?]]]; try done. by destruct (Hp s s0).
Qed.

Lemma OptionWithPlanFlagVars_ignores_malformed_witness :
  OptionWithPlanFlagVars (["region=us-east-1"] ++ "verbose" :: ["zone=a"])
    (New region_world "proj" [] empty_state).1 empty_state
  = OptionWithPlanFlagVars (["region=us-east-1"] ++ ["zone=a"])
      (New region_world "proj" [] empty_state).1 empty_state.
Proof.
  apply (OptionWithPlanFlagVars_ignores_malformed ["region=us-east-1"] "verbose").
  left. reflexivity.
Defined.

(** X4. [OptionWithPlanFlagVars] works on the input map the parser has,
    when it has one: a variable that no flag of the list names keeps the
    value an earlier option gave it. *)
Theorem OptionWithPlanFlagVars_keeps vs p st k :
  (forall v value, v ∈ vs -> strings_Split v "=" <> [k; value]) ->
  let r := OptionWithPlanFlagVars vs p st in
  let dst := default (next st) (inputVars p) in
  inputVars r.1 = Some dst
  /\ content r.2 dst !! k = field_content st (inputVars p) !! k.
Proof.
  intros Hk r dst.
  destruct (OptionWithPlanFlagVars_spec vs p st) as (H1&H2&_).
  fold r in H1, H2. fold dst in H1, H2. split; [by rewrite H1|].
  rewrite H2, fold_left_put, lookup_union.
  rewrite (proj1 (not_elem_of_list_to_map _ k)); [by rewrite (left_id_L None _)|].
  rewrite fmap_reverse, elem_of_reverse, list_elem_of_fmap.
  intros ([k' x]&->&Hin). apply list_elem_of_omap in Hin as (v&Hv&Hentry).
  unfold flag_entry in Hentry.
  destruct (strings_Split v "=") as [|name [|value [|? ?]]] eqn:Hs; try done.
  injection Hentry as <- <-. by eapply Hk.
Qed.

Lemma OptionWithPlanFlagVars_keeps_witness :
  let r0 := OptionWithInputVars region_world owner_input
              (New region_world "proj" [] empty_state).1 empty_state in
  let r := OptionWithPlanFlagVars ["region=us-east-1"] r0.1 r0.2 in
  inputVars r.1 = inputVars r0.1
  /\ content r.2 0 !! "owner" = Some (cty_StringVal "platform").
Proof.
  apply (OptionWithPlanFlagVars_keeps ["region=us-east-1"]
           (OptionWithInputVars region_world owner_input
              (New region_world "proj" [] empty_state).1 empty_state).1
           (OptionWithInputVars region_world owner_input
              (New region_world "proj" [] empty_state).1 empty_state).2 "owner").
  intros v value Hv. apply list_elem_of_singleton in Hv as ->.
  vm_compute. discriminate.
Defined.

(** The first "=" of a string cuts it in a part without "=" and a rest. *)
Lemma Index_equals_cut (s : string) (m : nat) :
  strings_Index s "=" = Some m ->
  s = substring 0 m s +:+ "=" +:+ slice_from (m + 1) s
  /\ no_equals (substring 0 m s).
Proof.
  unfold no_equals, strings_Index. revert m.
  induction s as [|c s IH]; intros m H; [done|].
  cbn [index String.prefix] in H.
  destruct (ascii_dec "=" c) as [<-|Hc].
  - assert (m = 0) as -> by (destruct s; cbn [String.prefix] in H; congruence).
    change (slice_from (0 + 1) (String "=" s)) with (slice_from 0 s).
    by rewrite slice_from_0.
  - destruct (index 0 "=" s) as [m'|] eqn:Hi; [|done].
    injection H as <-. destruct (IH m' eq_refl) as [IH1 IH2].
    change (slice_from (S m' + 1) (String c s)) with (slice_from (m' + 1) s).
    change (substring 0 (S m') (String c s)) with (String c (substring 0 m' s)).
    split.
    + change (String c s = String c (substring 0 m' s +:+ "=" +:+ slice_from (m' + 1) s)).
      by rewrite <- IH1.
    + cbn [index String.prefix]. destruct (ascii_dec "=" c); [done|].
      by rewrite IH2.
Qed.

(** A string [strings.Split] cuts in two at "=" is the two pieces joined
    by "=", and neither piece has a "=". *)
Lemma Split_pair (s a b : string) :
  strings_Split s "=" = [a; b] ->
  s = a +:+ "=" +:+ b /\ no_equals a /\ no_equals b.
Proof.
  unfold strings_Split.
  pose proof (genSplit_rounds (String.length s) 0 s "=") as _.
  destruct (String.length s) as [|n] eqn:Hlen; [done|].
  cbn [genSplit]. destruct (strings_Index s "=") as [m|] eqn:Hi; [|done].
  intros [= Ha Hb]. destruct (Index_equals_cut s m Hi) as [Hs Hna].
  rewrite Ha in Hs, Hna.
  assert (String.length (slice_from (m + 1) s) <= n) as Hrest.
  { apply (f_equal String.length) in Hs. rewrite !string_length_app in Hs.
    change (String.length "=") with 1 in Hs. lia. }
  destruct n as [|n].
  - cbn [genSplit] in Hb. injection Hb as Hb. rewrite Hb in Hs, Hrest.
    destruct b; [done | simpl in Hrest; lia].
  - cbn [genSplit] in Hb.
    destruct (strings_Index (slice_from (m + 1) s) "=") eqn:Hr.
    + injection Hb as _ Hb. by apply genSplit_nonempty in Hb.
    + injection Hb as Hb. rewrite Hb in Hs, Hr. done.
Qed.

(** X5. [OptionWithTFEnvVars] builds a new map at every call: applied a
    second time, it replaces the map of the first call, which stays in the
    store as it was, and the parser is left with the variables of the
    second project environment and of the process alone. A variable that
    only the first project environment had is no longer in the parser. *)
Theorem OptionWithTFEnvVars_replaces w first second p st :
  range_ok w ->
  let r1 := OptionWithTFEnvVars w first p st in
  let r2 := OptionWithTFEnvVars w second r1.1 r1.2 in
  tfEnvVars r2.1 <> None
  /\ tfEnvVars r2.1 <> tfEnvVars r1.1
  /\ field_content r2.2 (tfEnvVars r2.1)
     = project_vars second ∪ environ_vars (os_Environ w)
  /\ field_content r2.2 (tfEnvVars r1.1) = field_content r1.2 (tfEnvVars r1.1)
  /\ (forall name,
        second !! (TF_VAR_ +:+ name) = None ->
        environ_vars (os_Environ w) !! name = None ->
        field_content r2.2 (tfEnvVars r2.1) !! name = None).
Proof.
  intros Hw r1 r2.
  destruct (OptionWithTFEnvVars_spec w first p st Hw) as (A1&_&_&A4&_).
  destruct (OptionWithTFEnvVars_spec w second r1.1 r1.2 Hw) as (B1&B2&B3&_).
  fold r1 in A1, A4, B1, B2, B3. fold r2 in B1, B2, B3.
  rewrite B1, A1. cbn [tfEnvVars set_tfEnvVars field_content].
  rewrite B2, A4.
  refine (conj _ (conj _ (conj eq_refl (conj _ _)))); [done | | |].
  - intros [=]. lia.
  - apply B3. lia.
  - intros name Hs He.
    by rewrite lookup_union, lookup_project_vars, Hs, He.
Qed.

Lemma OptionWithTFEnvVars_replaces_witness :
  let r1 := OptionWithTFEnvVars tagged_world {[ "TF_VAR_owner" := "platform" ]}
              (New tagged_world "proj" [] empty_state).1 empty_state in
  let r2 := OptionWithTFEnvVars tagged_world ∅ r1.1 r1.2 in
  field_content r1.2 (tfEnvVars r1.1) !! "owner" = Some (cty_StringVal "platform")
  /\ field_content r2.2 (tfEnvVars r2.1) !! "owner" = None.
Proof.
  split; [by vm_compute|].
  apply (OptionWithTFEnvVars_replaces tagged_world
           {[ "TF_VAR_owner" := "platform" ]} ∅
           (New tagged_world "proj" [] empty_state).1 empty_state);
    [intros V m; reflexivity | by vm_compute | by vm_compute].
Defined.

(** X6. The variables [OptionWithTFEnvVars] leaves in the parser's map. A
    project variable [TF_VAR_name] sets [name] to its value as it is,
    whatever the process environment holds. Conversely every variable of
    the map is a string that comes from such a project variable or from an
    entry [TF_VAR_name=value] of the process environment: an entry without
    the prefix sets nothing. *)
Theorem OptionWithTFEnvVars_lookup w projectEnv p st name :
  range_ok w ->
  let r := OptionWithTFEnvVars w projectEnv p st in
  let m := field_content r.2 (tfEnvVars r.1) in
  (forall value, projectEnv !! (TF_VAR_ +:+ name) = Some value ->
     m !! name = Some (cty_StringVal value))
  /\ (forall v, m !! name = Some v ->
        exists value, v = cty_StringVal value
          /\ (projectEnv !! (TF_VAR_ +:+ name) = Some value
              \/ (TF_VAR_ +:+ name +:+ "=" +:+ value) ∈ os_Environ w)).
Proof.
  intros Hw r m.
  destruct (OptionWithTFEnvVars_spec w projectEnv p st Hw) as (H1&H&_).
  fold r in H1, H. unfold m. rewrite H1. cbn [tfEnvVars set_tfEnvVars field_content].
  rewrite H. split.
  - intros value Hv. apply lookup_union_Some_l. by rewrite lookup_project_vars, Hv.
  - intros v. rewrite lookup_union_Some_raw, lookup_project_vars.
    intros [Hv|[_ Hv]].
    + destruct (projectEnv !! (TF_VAR_ +:+ name)) as [value|]; [|done].
      injection Hv as <-. exists value. by split; [|left].
    + unfold environ_vars in Hv. rewrite fold_left_put in Hv.
      rewrite (right_id_L ∅ (∪)) in Hv.
      apply elem_of_list_to_map_2, elem_of_reverse, list_elem_of_omap in Hv
        as (e&He&Hentry).
      unfold environ_entry in Hentry.
      destruct (strings_HasPrefix e TF_VAR_) eqn:Hp; [|done].
      apply HasPrefix_split in Hp.
      destruct (strings_Split _ "=") as [|a [|b [|? ?]]] eqn:Hs; try done.
      injection Hentry as -> <-. apply Split_pair in Hs as (Hs&_).
      exists b. split; [done|]. right. by rewrite <- Hs, <- Hp.
Qed.

Lemma OptionWithTFEnvVars_lookup_witness :
  let r := OptionWithTFEnvVars tagged_world {[ "TF_VAR_tags" := "env=prod" ]}
             (New tagged_world "proj" [] empty_state).1 empty_state in
  let m := field_content r.2 (tfEnvVars r.1) in
  m !! "tags" = Some (cty_StringVal "env=prod")
  /\ (exists value, cty_StringVal "us-east-1" = cty_StringVal value
        /\ (({[ "TF_VAR_tags" := "env=prod" ]} : gmap string string)
              !! (TF_VAR_ +:+ "region") = Some value
            \/ (TF_VAR_ +:+ "region" +:+ "=" +:+ value) ∈ tagged_environ)).
Proof.
  destruct (OptionWithTFEnvVars_lookup tagged_world {[ "TF_VAR_tags" := "env=prod" ]}
              (New tagged_world "proj" [] empty_state).1 empty_state "tags")
    as [Hproject _].
  { intros V m. reflexivity. }
  destruct (OptionWithTFEnvVars_lookup tagged_world {[ "TF_VAR_tags" := "env=prod" ]}
              (New tagged_world "proj" [] empty_state).1 empty_state "region")
    as [_ Hprocess].
  { intros V m. reflexivity. }
  split.
  - apply Hproject. by vm_compute.
  - apply Hprocess. by vm_compute.
Defined.

(** X7. The spinner reaches the remote variable loader only when
    [OptionWithSpinner] comes before [OptionWithRemoteVarLoader] in the
    options of [New]: the loader is built when its option is applied, with
    the spinner the parser has then. The module loader, which [New] builds
    after all the options, gets the spinner in either order. *)
Theorem OptionWithRemoteVarLoader_spinner w path host token ws f st :
  host <> "" -> token <> "" ->
  let client := extclient_NewAuthedAPIClient host token in
  let before :=
    (New w path [OptionWithSpinner f; OptionWithRemoteVarLoader host token ws] st).1 in
  let after :=
    (New w path [OptionWithRemoteVarLoader host token ws; OptionWithSpinner f] st).1 in
  remoteVariablesLoader before
  = Some (NewRemoteVariablesLoader client ws [RemoteVariablesLoaderWithSpinner f])
  /\ remoteVariablesLoader after = Some (NewRemoteVariablesLoader client ws [])
  /\ moduleLoader before
     = Some (modules_NewModuleLoader path [modules_LoaderWithSpinner f])
  /\ moduleLoader after = moduleLoader before.
Proof.
  intros Hh Ht. unfold New, OptionWithRemoteVarLoader, OptionWithSpinner.
  cbn [for_acc]. unfold mbind, M_bind, mret, M_ret.
  apply String.eqb_neq in Hh, Ht. rewrite Hh, Ht. by cbn.
Qed.

Lemma OptionWithRemoteVarLoader_spinner_witness :
  let f := spinner_func 0 in
  let before :=
    (New zone_world "proj"
       [OptionWithSpinner f; OptionWithRemoteVarLoader "app.terraform.io" "token" "dev"]
       empty_state).1 in
  let after :=
    (New zone_world "proj"
       [OptionWithRemoteVarLoader "app.terraform.io" "token" "dev"; OptionWithSpinner f]
       empty_state).1 in
  (loader_opts <$> remoteVariablesLoader before)
  = Some [RemoteVariablesLoaderWithSpinner f]
  /\ (loader_opts <$> remoteVariablesLoader after) = Some [].
Proof.
  destruct (OptionWithRemoteVarLoader_spinner zone_world "proj"
              "app.terraform.io" "token" "dev" (spinner_func 0) empty_state)
    as (H1&H2&_); [done | done |].
  cbn zeta in *. by rewrite H1, H2.
Defined.


(** X8. The parser [New] builds from options of the package is well
    formed in the state [New] leaves: the maps of its fields [tfEnvVars]
    and [inputVars], when it has them, were allocated and are two different
    maps, so that what [loadVars] writes to the first never changes the
    second. The options cannot change the directory of the parser, and
    the module loader is always set, for this directory. *)
Theorem New_well_formed w initialPath_ options st :
  Forall (package_option w) options ->
  let r := New w initialPath_ options st in
  initialPath r.1 = initialPath_
  /\ (forall l, tfEnvVars r.1 = Some l -> l < next r.2)
  /\ (forall l, inputVars r.1 = Some l -> l < next r.2)
  /\ (forall l, tfEnvVars r.1 = Some l -> inputVars r.1 <> Some l)
  /\ (exists opts, moduleLoader r.1 = Some (modules_NewModuleLoader initialPath_ opts))
  /\ next st <= next r.2.
Proof.
  intros Ho r.
  destruct (New_spec w initialPath_ options st Ho) as (H1&_&H2&H3&H4).
  fold r in H1, H2, H3, H4.
  refine (conj H1 (conj H2 (conj H3 (conj H4 _)))).
  unfold r, New. unfold mbind, M_bind, mret, M_ret.
  match goal with |- context [for_acc options ?b ?p0 st] =>
    pose proof (New_options w options p0 st Ho) as (_&_&Hn&_);
    destruct (for_acc options b p0 st) as [p1 st1] end.
  cbn [fst snd] in *. split; [by eexists | exact Hn].
Qed.

Lemma New_well_formed_witness :
  let r := tagged_parser in
  initialPath r.1 = "proj"
  /\ (forall l, tfEnvVars r.1 = Some l -> l < next r.2)
  /\ (forall l, inputVars r.1 = Some l -> l < next r.2)
  /\ (forall l, tfEnvVars r.1 = Some l -> inputVars r.1 <> Some l)
  /\ (exists opts, moduleLoader r.1 = Some (modules_NewModuleLoader "proj" opts))
  /\ next empty_state <= next r.2.
Proof.
  apply (New_well_formed tagged_world "proj"
           [OptionWithTFEnvVars tagged_world ∅;
            OptionWithInputVars tagged_world {[ "owner" := "platform" ]}]
           empty_state).
  apply Forall_cons. split; [apply po_TFEnvVars|].
  apply Forall_cons. split; [apply po_InputVars|]. apply Forall_nil_2.
Defined.

(** * Loading the directory, tolerant and strict *)

Lemma parse_result_recognized w fullPath info result :
  parse_result w fullPath info = Some result ->
  fi_IsDir info = false
  /\ (strings_HasSuffix (fi_Name info) ".tf" = true
      \/ strings_HasSuffix (fi_Name info) ".tf.json" = true).
Proof.
  unfold parse_result, recognized, select_parseFunc.
  destruct (fi_IsDir info); [done|].
  destruct (strings_HasSuffix (fi_Name info) ".tf.json"); [by auto|].
  destruct (strings_HasSuffix (fi_Name info) ".tf"); [by auto | done].
Qed.

(** X9. In tolerant mode [loadDirectory] returns no error for a directory
    that can be listed. The files it returns are file objects the parser
    produced for entries that are not directories and whose name ends in
    .tf or .tf.json; and every file object the parser produced is returned,
    also when its parse reported errors: the file is then logged as
    skipped and returned all the same. (Entries of one directory have
    different paths; the last hypothesis says what the parser holds for a
    path parsed twice.) *)
Theorem loadDirectory_tolerant w fullPath st infos :
  range_ok w ->
  ioutil_ReadDir w fullPath = (infos, None) ->
  let r := loadDirectory w fullPath false st in
  let path info := filepath_Join w fullPath (fi_Name info) in
  r.1.2 = None
  /\ maps r.2 = maps st
  /\ (forall file, file ∈ r.1.1 ->
        exists info diag, info ∈ infos
          /\ fi_IsDir info = false
          /\ (strings_HasSuffix (fi_Name info) ".tf" = true
              \/ strings_HasSuffix (fi_Name info) ".tf.json" = true)
          /\ parse_result w fullPath info = Some (Some file, diag))
  /\ (forall info file diag, info ∈ infos ->
        parse_result w fullPath info = Some (Some file, diag) ->
        (forall info' file' diag', info' ∈ infos ->
           parse_result w fullPath info' = Some (Some file', diag') ->
           path info' = path info -> file' = file) ->
        file ∈ r.1.1
        /\ (HasErrors diag = true -> skipped_file (path info) diag ∈ logs r.2)).
Proof.
  intros Hw Hr r path.
  destruct (loadDirectory_spec w fullPath false st) as (H1&(_&H2&_)&H3).
  fold r in H1, H2, H3. rewrite (tolerant_directory_files _ _ _ Hr) in H1.
  rewrite H1. cbn [fst snd].
  refine (conj eq_refl (conj H2 (conj _ _))).
  - intros file Hin. apply list_elem_of_fmap in Hin as ([k file']&->&Hin).
    rewrite (Hw _ _) in Hin. apply elem_of_map_to_list in Hin.
    apply recorded_files in Hin as [Hin|(info&diag&Hin&Hp&_)]; [done|].
    exists info, diag. destruct (parse_result_recognized _ _ _ _ Hp) as [Hd Hs].
    done.
  - intros info file diag Hin Hp Hsame. split.
    + apply list_elem_of_fmap. exists (path info, file). split; [done|].
      rewrite (Hw _ _). apply elem_of_map_to_list.
      by apply (recorded_file_stays _ _ _ _ _ _ diag Hin Hp).
    + intros He. by apply (H3 eq_refl infos info (Some file) diag).
Qed.

Lemma loadDirectory_tolerant_witness :
  let r := loadDirectory partial_world "proj" false empty_state in
  {| Body := {| JustAttributes := (∅, []); Content := ([bucket_block], []) |} |}
    ∈ r.1.1
  /\ skipped_file "proj/bad.tf" [diag_error "Invalid block definition"] ∈ logs r.2.
Proof.
  destruct (loadDirectory_tolerant partial_world "proj" empty_state
              [file_info "bad.tf"; file_info "main.tf"])
    as (_&_&_&H); [by intros V m | done |].
  destruct (H (file_info "bad.tf")
              {| Body := {| JustAttributes := (∅, []);
                            Content := ([bucket_block], []) |} |}
              [diag_error "Invalid block definition"]) as [H1 H2].
  - apply elem_of_cons. by left.
  - by vm_compute.
  - intros info' file' diag' Hin.
    repeat (apply elem_of_cons in Hin as [->|Hin]);
      [| |by apply elem_of_nil in Hin]; vm_compute; [by intros [= <-] | done].
  - split; [exact H1|]. by apply H2.
Defined.

(** X10. In tolerant mode [parseDirectoryFiles] returns no error: the
    blocks are those of the files whose blocks can be loaded, each built
    by the block builder of the parser, in the order of the files and,
    within a file, of its blocks. A file whose blocks cannot be loaded
    adds nothing. The store of maps is left as it is. *)
Theorem parseDirectoryFiles_tolerant w p files st :
  stopOnHCLError p = false ->
  let r := parseDirectoryFiles w p files st in
  r.1 = (flat_map (fun file => NewBlock w (blockBuilder p) <$> yielded_blocks w file)
           files, None)
  /\ maps r.2 = maps st /\ written r.2 = written st.
Proof.
  intros Hs r. destruct (parseDirectoryFiles_spec w p files st) as (H1&_&H2&H3&_).
  fold r in H1, H2, H3. by rewrite H1, (files_blocks_tolerant _ _ _ _ Hs).
Qed.

Lemma parseDirectoryFiles_tolerant_witness :
  let p := (New partial_world "proj" [] empty_state).1 in
  let files := (loadDirectory partial_world "proj" false empty_state).1.1 in
  hclBlock <$> (parseDirectoryFiles partial_world p files empty_state).1.1
  = [web_block; bucket_block].
Proof.
  cbn zeta.
  rewrite (proj1 (parseDirectoryFiles_tolerant partial_world
                    (New partial_world "proj" [] empty_state).1
                    (loadDirectory partial_world "proj" false empty_state).1.1
                    empty_state eq_refl)).
  by vm_compute.
Defined.

(** X11. In strict mode [parseDirectoryFiles] stops at the first file
    whose blocks cannot be loaded: it returns the error of this file and
    no block, also when files before it had blocks, and the files after it
    are not looked at. *)
Theorem parseDirectoryFiles_strict w p before file after st fileBlocks err :
  stopOnHCLError p = true ->
  Forall (fun file => (loadBlocksFromFile w file).2 = None) before ->
  loadBlocksFromFile w file = (fileBlocks, Some err) ->
  (parseDirectoryFiles w p (before ++ file :: after) st).1 = ([], Some err).
Proof.
  intros Hs Hbefore Hfile.
  destruct (parseDirectoryFiles_spec w p (before ++ file :: after) st) as (->&_).
  assert (forall blocks,
            files_blocks w p (before ++ file :: after) blocks = ([], Some err)) as H;
    [|apply H].
  induction Hbefore as [|f before Hf _ IH]; intros blocks; cbn [app files_blocks].
  - by rewrite Hfile, Hs.
  - destruct (loadBlocksFromFile w f) as [bs o]. cbn [snd] in Hf. subst o.
    apply IH.
Qed.

Lemma parseDirectoryFiles_strict_witness :
  let p := (New partial_world "proj" [OptionStopOnHCLError] empty_state).1 in
  let good := {| Body := {| JustAttributes := (∅, []);
                            Content := ([web_block], []) |} |} in
  let bad := {| Body := {| JustAttributes := (∅, []);
                           Content := ([], [diag_error "Unsupported block type"]) |} |} in
  (parseDirectoryFiles partial_world p ([good] ++ bad :: [good]) empty_state).1
  = ([], Some (Diagnostics_error [diag_error "Unsupported block type"])).
Proof.
  apply (parseDirectoryFiles_strict partial_world _ _ _ _ _ []).
  - reflexivity.
  - by repeat constructor.
  - reflexivity.
Defined.

(** * What [ParseDirectory] returns and leaves *)

Lemma evaluate_effects w p blocks vars st :
  let r := evaluate w p blocks vars st in
  next r.2 = next st
  /\ (written r.2 = written st
      \/ writeWarning p <> None
         /\ exists manifest,
              ModuleLoader_Load w (moduleLoader p) = (manifest, None)
              /\ let v := Evaluator_MissingVars w
                            (new_evaluator w p blocks (content st vars) manifest) in
                 v <> [] /\ written r.2 = written st ++ [missing_vars_warning v])
  /\ ((ModuleLoader_Load w (moduleLoader p)).2 <> None \/ (os_Getwd w).2 <> None ->
      written r.2 = written st).
Proof.
  unfold evaluate, new_evaluator, missing_vars_warning.
  unfold mbind, M_bind, mret, M_ret.
  destruct (ModuleLoader_Load w (moduleLoader p)) as [manifest [err|]].
  { by split; [|split; [left|]]. }
  unfold log_Debugf, log_entry. cbn beta iota zeta.
  destruct (os_Getwd w) as [workingDir [err|]]; cbn [fst snd].
  { by split; [|split; [left|]]. }
  unfold map_load, content. cbn beta iota zeta. cbn [maps].
  match goal with |- context [Evaluator_Run w ?ev] =>
    destruct (Evaluator_Run w ev) as [root [err|]] end.
  all: match goal with |- context [Evaluator_MissingVars ?w' ?ev] =>
    destruct (Evaluator_MissingVars w' ev) as [|name v] eqn:Hv end.
  all: cbn [length Nat.ltb Nat.leb].
  all: destruct (writeWarning p) eqn:Hww; cbn; (split; [done|]);
    (split; [|by intros [?|?]]); try by left.
  all: right; split; [done|]; exists manifest; by rewrite Hv.
Qed.

(** What [ParseDirectory] leaves of the state: it allocates at most the
    map of the variables, and writes at most one warning, when it has
    reached the evaluator. *)
Lemma ParseDirectory_effects w p st :
  range_ok w -> wf_parser st p ->
  let r := ParseDirectory w p st in
  let env := field_content st (tfEnvVars p) in
  let inputs := field_content st (inputVars p) in
  next st <= next r.2
  /\ (written r.2 = written st
      \/ writeWarning p <> None
         /\ exists blocks vars manifest,
              directory_blocks w p = (blocks, None) /\ blocks <> []
              /\ resolved w p blocks (tfvarsPaths p) env inputs = (vars, None)
              /\ ModuleLoader_Load w (moduleLoader p) = (manifest, None)
              /\ let v := Evaluator_MissingVars w
                            (new_evaluator w p blocks vars manifest) in
                 v <> [] /\ written r.2 = written st ++ [missing_vars_warning v])
  /\ ((ModuleLoader_Load w (moduleLoader p)).2 <> None \/ (os_Getwd w).2 <> None ->
      written r.2 = written st).
Proof.
  intros Hw Hwf r env inputs.
  destruct r as [res st'] eqn:Heq. subst r. cbn [fst snd].
  unfold directory_blocks.
  unfold ParseDirectory in Heq. unfold mbind, M_bind, mret, M_ret in Heq.
  unfold log_Debugf at 1 in Heq.
  match type of Heq with context [log_entry ?e st] =>
    pose proof (log_entry_only_logs e st) as H0;
    destruct (log_entry e st) as [[] st0] end.
  cbn [fst snd] in H0.
  destruct (loadDirectory_spec w (initialPath p) (stopOnHCLError p) st0) as (Hd1&Hd2&_).
  destruct (loadDirectory w (initialPath p) (stopOnHCLError p) st0) as [[files err] st1].
  cbn [fst snd] in Hd1, Hd2. rewrite <- Hd1. cbn beta iota zeta in Heq.
  cbn beta iota zeta.
  assert (only_logs st st1) as H1 by (by eapply only_logs_trans).
  assert (forall st2, only_logs st st2 ->
            next st <= next st2 /\ written st2 = written st) as Hsame.
  { intros st2 (Hn&_&Hwr&_). split; [lia | done]. }
  destruct err as [err|].
  { injection Heq as <- <-. destruct (Hsame _ H1). by split; [|split; [left|]]. }
  destruct (parseDirectoryFiles_spec w p files st1) as [Hb1 Hb2].
  destruct (parseDirectoryFiles w p files st1) as [[blocks err] st2].
  cbn [fst snd] in Hb1, Hb2. rewrite <- Hb1. cbn beta iota zeta in Heq.
  assert (only_logs st st2) as H2 by (by eapply only_logs_trans).
  destruct err as [err|].
  { injection Heq as <- <-. destruct (Hsame _ H2). by split; [|split; [left|]]. }
  destruct blocks as [|b blocks].
  { cbn [Nat.eqb length] in Heq. injection Heq as <- <-.
    destruct (Hsame _ H2). by split; [|split; [left|]]. }
  cbn [Nat.eqb length] in Heq. unfold log_Debugf at 1 in Heq.
  match type of Heq with context [log_entry ?e st2] =>
    pose proof (log_entry_only_logs e st2) as H3;
    destruct (log_entry e st2) as [[] st3] end.
  cbn [fst snd] in H3.
  assert (only_logs st st3) as H3' by (by eapply only_logs_trans).
  assert (wf_parser st3 p) as Hwf3.
  { destruct H3' as (Hn&_). unfold wf_parser in *. by rewrite Hn. }
  pose proof (loadVars_next w p (b :: blocks) (tfvarsPaths p) st3 Hw Hwf3) as Hn4.
  destruct (loadVars_spec w p (b :: blocks) (tfvarsPaths p) st3 Hw Hwf3)
    as (Hv1&Hv2&_&Hw4&_).
  rewrite !(only_logs_field _ _ _ H3') in Hv1, Hv2. fold env inputs in Hv1, Hv2.
  destruct (loadVars w p (b :: blocks) (tfvarsPaths p) st3) as [[vars err] st4].
  cbn [fst snd] in Hn4, Hw4, Hv1, Hv2.
  injection Hv1 as Hdst Herr. rewrite <- Hdst in Hv2.
  destruct (Hsame _ H3') as [Hn3 Hw3].
  destruct err as [err|].
  { injection Heq as <- <-. split; [lia|].
    split; [left; congruence | intros _; congruence]. }
  destruct (evaluate_effects w p (b :: blocks) vars st4) as (Hn5&Hw5&Hf5).
  rewrite Heq in Hn5, Hw5, Hf5. cbn [fst snd] in Hn5, Hw5, Hf5.
  split; [lia|]. split; [|intros Hfail; rewrite (Hf5 Hfail); congruence].
  destruct Hw5 as [Hw5|(Hww&manifest&Hm&Hv&Hw5)]; [left; congruence|].
  right. split; [done|]. exists (b :: blocks), (content st4 vars), manifest.
  split; [done|]. split; [done|].
  split; [rewrite Hv2; by destruct (resolved _ _ _ _ _ _) as [? ?]; cbn in *; subst|].
  split; [done|]. split; [done|]. cbn zeta in Hw5. by rewrite Hw5, Hw4, Hw3.
Qed.

(** X12. [ParseDirectory] never returns a module together with an error:
    when the error is not nil the module is nil, also when the evaluator
    returned a module with its error. *)
Theorem ParseDirectory_error_without_module w p st :
  range_ok w -> wf_parser st p ->
  let r := ParseDirectory w p st in
  r.1.2 <> None -> r.1.1 = None.
Proof.
  intros Hw Hwf r. destruct (ParseDirectory_spec w p st Hw Hwf) as (H&_).
  fold r in H. rewrite H. unfold parsed, evaluation.
  destruct (directory_blocks w p) as [[|b blocks] [err|]]; try done.
  destruct (resolved w p _ _ _ _) as [vars [err|]]; [done|].
  destruct (ModuleLoader_Load w (moduleLoader p)) as [manifest [err|]]; [done|].
  destruct ((os_Getwd w).2); [done|].
  by destruct (Evaluator_Run w _) as [root [err|]].
Qed.

Lemma ParseDirectory_error_without_module_witness :
  let p := (New broken_world "proj" [OptionStopOnHCLError] empty_state).1 in
  let r := ParseDirectory broken_world p empty_state in
  r.1.2 = Some (Diagnostics_error [diag_error "Invalid block definition"])
  /\ r.1.1 = None.
Proof.
  split; [by vm_compute|].
  apply (ParseDirectory_error_without_module broken_world
           (New broken_world "proj" [OptionStopOnHCLError] empty_state).1 empty_state).
  - by intros V m.
  - repeat split; intros l; vm_compute; intros H; inversion H.
  - by vm_compute.
Defined.



Lemma parse_entries_none w fullPath strict infos hclParser :
  (forall info, info ∈ infos -> recognized w info = None) ->
  parse_entries w fullPath strict infos hclParser = inl hclParser.
Proof.
  induction infos as [|info infos IH]; intros H; [done|].
  cbn [parse_entries]. rewrite (H info); [|apply elem_of_cons; by left].
  apply IH. intros i Hi. apply H, elem_of_cons. by right.
Qed.

(** X14. A directory that can be listed and has nothing to parse (it is
    empty, or all its entries are directories or files whose names end
    neither in .tf nor in .tf.json) makes [ParseDirectory] return the error
    that no valid terraform file was found, in strict mode as in tolerant
    mode, and no warning is written. *)
Theorem ParseDirectory_nothing_to_parse w p st infos :
  range_ok w -> wf_parser st p ->
  ioutil_ReadDir w (initialPath p) = (infos, None) ->
  (forall info, info ∈ infos ->
     fi_IsDir info = true
     \/ strings_HasSuffix (fi_Name info) ".tf" = false
        /\ strings_HasSuffix (fi_Name info) ".tf.json" = false) ->
  let r := ParseDirectory w p st in
  r.1 = (None, Some no_valid_files) /\ written r.2 = written st.
Proof.
  intros Hw Hwf Hr Hnone r.
  assert (directory_blocks w p = ([], None)) as Hb.
  { unfold directory_blocks, directory_files. rewrite Hr, parse_entries_none.
    - assert (range_order w _ (hclparse_NewParser) = []) as ->; [|done].
      apply Permutation_nil_r. by rewrite (Hw _ _).
    - intros info Hin. unfold recognized, select_parseFunc.
      destruct (Hnone info Hin) as [->|[-> ->]]; [done|].
      by destruct (fi_IsDir info). }
  pose proof (ParseDirectory_stops w p st) as H. rewrite Hb in H.
  split; [by apply H|].
  destruct (ParseDirectory_effects w p st Hw Hwf)
    as (_&[Hsame|(_&bs&vs&m&Hbs&Hne&_)]&_); [done|].
  rewrite Hb in Hbs. by injection Hbs as <-.
Qed.

Lemma ParseDirectory_nothing_to_parse_witness :
  let p := (New malformed_world "proj/modules" [OptionStopOnHCLError] empty_state).1 in
  let r := ParseDirectory malformed_world p empty_state in
  r.1 = (None, Some no_valid_files) /\ written r.2 = [].
Proof.
  apply (ParseDirectory_nothing_to_parse malformed_world
           (New malformed_world "proj/modules" [OptionStopOnHCLError] empty_state).1
           empty_state []).
  - by intros V m.
  - repeat split; intros l; vm_compute; intros H; inversion H.
  - reflexivity.
  - intros info Hin. by apply elem_of_nil in Hin.
Defined.

Lemma files_blocks_same w p1 p2 files blocks :
  stopOnHCLError p1 = stopOnHCLError p2 -> blockBuilder p1 = blockBuilder p2 ->
  files_blocks w p1 files blocks = files_blocks w p2 files blocks.
Proof.
  intros Hs Hb. revert blocks.
  induction files as [|file files IH]; intros blocks; [done|].
  cbn [files_blocks]. rewrite Hs, Hb.
  destruct (loadBlocksFromFile w file) as [fileBlocks [err|]]; [|by rewrite IH].
  destruct (stopOnHCLError p2); [done | by rewrite IH].
Qed.

(** X15. The warning on variables without a value. [ParseDirectory] writes
    to the warning function at most once, only when the parser has one and
    only after the modules were loaded: the warning names the variables
    the evaluator, built from the blocks of the directory and the resolved
    variables, reports as missing. The warning changes nothing in what
    [ParseDirectory] returns: the parser without the warning function
    returns the same module and the same error. *)
Theorem ParseDirectory_missing_vars_warning w p st :
  range_ok w -> wf_parser st p ->
  let r := ParseDirectory w p st in
  let env := field_content st (tfEnvVars p) in
  let inputs := field_content st (inputVars p) in
  (writeWarning p = None -> written r.2 = written st)
  /\ (written r.2 = written st
      \/ exists blocks vars manifest,
           directory_blocks w p = (blocks, None)
           /\ resolved w p blocks (tfvarsPaths p) env inputs = (vars, None)
           /\ ModuleLoader_Load w (moduleLoader p) = (manifest, None)
           /\ let v := Evaluator_MissingVars w
                         (new_evaluator w p blocks vars manifest) in
              v <> [] /\ written r.2 = written st ++ [missing_vars_warning v])
  /\ r.1 = (ParseDirectory w (set_writeWarning None p) st).1.
Proof.
  intros Hw Hwf r env inputs.
  destruct (ParseDirectory_effects w p st Hw Hwf) as (_&Hwr&_). fold r in Hwr.
  split; [|split].
  - intros Hnone. by destruct Hwr as [Hsame|[Hsome _]].
  - destruct Hwr as [Hsame|(_&blocks&vars&manifest&H1&_&H2&H3&H4)]; [by left|].
    right. by exists blocks, vars, manifest.
  - unfold r. destruct (ParseDirectory_spec w p st Hw Hwf) as (->&_).
    destruct (ParseDirectory_spec w (set_writeWarning None p) st Hw Hwf) as (->&_).
    unfold parsed, directory_blocks.
    cbn [initialPath stopOnHCLError set_writeWarning].
    destruct (directory_files w (initialPath p) (stopOnHCLError p)) as [files [err|]];
      [done|].
    by rewrite (files_blocks_same w (set_writeWarning None p) p files []).
Qed.

Lemma ParseDirectory_missing_vars_warning_witness :
  let f := write_warning_func 0 in
  let r0 := New asking_world "proj" [OptionWithWarningFunc f] empty_state in
  let r := ParseDirectory asking_world r0.1 r0.2 in
  written r.2 = [missing_vars_warning ["zone"; "owner"]]
  /\ r.1 = (ParseDirectory asking_world (set_writeWarning None r0.1) r0.2).1.
Proof.
  split; [by vm_compute|].
  apply (ParseDirectory_missing_vars_warning asking_world
           (New asking_world "proj" [OptionWithWarningFunc (write_warning_func 0)]
              empty_state).1
           (New asking_world "proj" [OptionWithWarningFunc (write_warning_func 0)]
              empty_state).2).
  - by intros V m.
  - repeat split; intros l; vm_compute; intros H; inversion H.
Defined.

(** X16. When the modules cannot be loaded, or the working directory
    cannot be read, [ParseDirectory] returns no module and writes no
    warning: the evaluator is not asked for the missing variables. When
    the directory has blocks and the variables were resolved, the error is
    the one of the failed call, wrapped: for the modules before the one of
    the working directory. *)
Theorem ParseDirectory_stage_failure w p st :
  range_ok w -> wf_parser st p ->
  (ModuleLoader_Load w (moduleLoader p)).2 <> None \/ (os_Getwd w).2 <> None ->
  let r := ParseDirectory w p st in
  let env := field_content st (tfEnvVars p) in
  let inputs := field_content st (inputVars p) in
  r.1.1 = None /\ r.1.2 <> None /\ written r.2 = written st
  /\ (forall blocks vars,
        directory_blocks w p = (blocks, None) -> blocks <> [] ->
        resolved w p blocks (tfvarsPaths p) env inputs = (vars, None) ->
        r.1.2 = match (ModuleLoader_Load w (moduleLoader p)).2, (os_Getwd w).2 with
                | Some err, _ =>
                    Some (fmt_Errorf "Error loading Terraform modules: %s" [op_error err])
                | None, Some err =>
                    Some (fmt_Errorf
                            "Error could not evaluate current working directory %w"
                            [op_error err])
                | None, None => None
                end).
Proof.
  intros Hw Hwf Hfail r env inputs.
  destruct (ParseDirectory_effects w p st Hw Hwf) as (_&_&Hwr). fold r in Hwr.
  destruct (ParseDirectory_spec w p st Hw Hwf) as (H&_). fold r env inputs in H.
  rewrite H. unfold parsed, evaluation.
  refine (conj _ (conj _ (conj (Hwr Hfail) _))).
  - destruct (directory_blocks w p) as [[|b blocks] [err|]]; try done.
    destruct (resolved w p _ _ _ _) as [vars [err|]]; [done|].
    destruct (ModuleLoader_Load w (moduleLoader p)) as [manifest [err|]]; [done|].
    destruct ((os_Getwd w).2); [done|]. by destruct Hfail.
  - destruct (directory_blocks w p) as [[|b blocks] [err|]]; try done.
    destruct (resolved w p _ _ _ _) as [vars [err|]]; [done|].
    destruct (ModuleLoader_Load w (moduleLoader p)) as [manifest [err|]]; [done|].
    destruct ((os_Getwd w).2); [done|]. by destruct Hfail.
  - intros blocks vars -> Hne ->. destruct blocks as [|b blocks]; [done|].
    destruct (ModuleLoader_Load w (moduleLoader p)) as [manifest [err|]]; [done|].
    cbn [snd] in *. destruct ((os_Getwd w).2); [done|]. by destruct Hfail.
Qed.

Lemma ParseDirectory_stage_failure_witness :
  let r0 := New offline_world "proj" [OptionWithWarningFunc (write_warning_func 0)]
              empty_state in
  let r := ParseDirectory offline_world r0.1 r0.2 in
  r.1 = (None, Some (fmt_Errorf "Error loading Terraform modules: %s"
                       [op_error network_unreachable]))
  /\ written r.2 = [].
Proof.
  destruct (ParseDirectory_stage_failure offline_world
              (New offline_world "proj" [OptionWithWarningFunc (write_warning_func 0)]
                 empty_state).1
              (New offline_world "proj" [OptionWithWarningFunc (write_warning_func 0)]
                 empty_state).2) as (_&_&H3&_).
  - by intros V m.
  - repeat split; intros l; vm_compute; intros H; inversion H.
  - left. by vm_compute.
  - split; [by vm_compute | exact H3].
Defined.

(** * More on the resolution of variables *)

(** X17. [loadVars] writes to one map only, the map it returns, which is
    never the input map of the parser: the direct inputs are read and left
    as they are, as is every other map of the store. Nothing is written to
    the warning function, and the log only grows. *)
Theorem loadVars_frame w p blocks filenames st :
  range_ok w -> wf_parser st p ->
  let r := loadVars w p blocks filenames st in
  inputVars p <> Some r.1.1
  /\ field_content r.2 (inputVars p) = field_content st (inputVars p)
  /\ (forall l, l <> r.1.1 -> content r.2 l = content st l)
  /\ written r.2 = written st
  /\ logs st `prefix_of` logs r.2.
Proof.
  intros Hw Hwf r.
  destruct (loadVars_spec w p blocks filenames st Hw Hwf) as (H1&_&H3&H4&H5).
  fold r in H1, H3, H4, H5. rewrite H1. cbn [fst].
  assert (inputVars p <> Some (default (next st) (tfEnvVars p))) as Hne.
  { destruct Hwf as (_&Hi&Hd). destruct (tfEnvVars p) as [l|] eqn:Hl; cbn.
    - by eapply Hd.
    - intros Hli. apply Hi in Hli. lia. }
  refine (conj Hne (conj _ (conj H3 (conj H4 H5)))).
  destruct (inputVars p) as [li|]; [|done]. cbn. apply H3. congruence.
Qed.

Lemma loadVars_frame_witness :
  let p := tagged_parser.1 in
  let r := loadVars tagged_world p [] [] tagged_parser.2 in
  inputVars p <> Some r.1.1
  /\ field_content r.2 (inputVars p) = field_content tagged_parser.2 (inputVars p)
  /\ (forall l, l <> r.1.1 -> content r.2 l = content tagged_parser.2 l)
  /\ written r.2 = written tagged_parser.2
  /\ logs tagged_parser.2 `prefix_of` logs r.2.
Proof.
  apply (loadVars_frame tagged_world tagged_parser.1 [] [] tagged_parser.2).
  - by intros V m.
  - repeat split; intros l; vm_compute; intros H; inversion H; try lia.
    intros H'. inversion H'.
Defined.

Lemma default_files_warning w names dst st name err :
  range_ok w -> name ∈ names -> (file_vars w name).2 = Some err ->
  let r := for_each names (fun name =>
    err ← loadAndCombineVars w name dst;
    match err with
    | Some err =>
        log_Warnf "could not load vars from auto var file %s err: %s"
          [op_string name; op_error err]
    | None => mret tt
    end) st in
  skipped_var_file name (load_error err) ∈ logs r.2.
Proof.
  intros Hw Hin Herr. revert st.
  induction names as [|n names IH]; intros st; [by apply elem_of_nil in Hin|].
  cbn [for_each]. unfold mbind, M_bind, mret, M_ret.
  pose proof (loadAndCombineVars_spec w n dst st Hw) as H. cbn zeta in H.
  destruct (loadAndCombineVars w n dst st) as [e st1]. cbn [fst snd] in H.
  apply elem_of_cons in Hin as [<-|Hin].
  - destruct (file_vars w name) as [vars [e'|]]; [|done]. cbn [snd] in Herr.
    injection Herr as ->. destruct H as [-> _].
    unfold log_Warnf.
    match goal with |- context [log_entry ?x st1] =>
      destruct (log_entry x st1) as [[] st2] eqn:Hlog end.
    pose proof (default_files_spec w names dst st2 Hw) as (_&_&_&_&Hp).
    unfold mbind, M_bind, mret, M_ret, log_Warnf in Hp.
    eapply elem_of_prefix; [|exact Hp].
    injection Hlog as <-. cbn. apply elem_of_app. right. apply elem_of_cons. by left.
  - destruct e as [e|].
    + match goal with |- context [log_Warnf ?f ?o st1] =>
        destruct (log_Warnf f o st1) as [[] st2] end.
      apply IH. done.
    + apply IH. done.
Qed.

Lemma loadVars_files_default_warning w p filenames dst st name err :
  range_ok w -> name ∈ defaultVarFiles p -> (file_vars w name).2 = Some err ->
  skipped_var_file name (load_error err) ∈ logs (loadVars_files w p filenames dst st).2.
Proof.
  intros Hw Hin Herr. unfold loadVars_files. unfold mbind, M_bind, mret, M_ret.
  match goal with |- context [for_each (defaultVarFiles p) ?b st] =>
    pose proof (default_files_warning w (defaultVarFiles p) dst st name err Hw Hin Herr)
      as Hd;
    cbn zeta in Hd; unfold mbind, M_bind, mret, M_ret in Hd;
    destruct (for_each (defaultVarFiles p) b st) as [[] st1] end.
  cbn [snd] in Hd.
  match goal with |- context [for_return filenames ?b tt st1] =>
    pose proof (explicit_files_spec w filenames dst st1 Hw) as [(_&_&_&_&He) _];
    unfold mbind, M_bind, mret, M_ret in He;
    destruct (for_return filenames b tt st1) as [res st2] end.
  cbn [snd] in He.
  assert (skipped_var_file name (load_error err) ∈ logs st2) as H2
    by (by eapply elem_of_prefix).
  destruct res as [[]|result]; [|done].
  destruct (inputVars p) as [li|]; [|done].
  unfold map_load. cbn beta iota zeta.
  destruct (copy_entries_updates w (content st2 li) dst st2 Hw) as [_ H3].
  destruct (copy_entries w (content st2 li) dst st2) as [[] st3].
  cbn [snd] in *. by rewrite H3.
Qed.

Lemma merge_default_files_skip w before name after base err :
  (file_vars w name).2 = Some err ->
  merge_default_files w (before ++ name :: after) base
  = merge_default_files w (before ++ after) base.
Proof.
  intros Herr. unfold merge_default_files. rewrite !fold_left_app. cbn [fold_left].
  destruct (file_vars w name) as [vars [e|]]; done.
Qed.

(** X18. A default variable file that cannot be read is skipped: [loadVars]
    logs a warning for it and goes on, and returns the map and the error it
    returns when the file is not among the default variable files. *)
Theorem loadVars_skips_default_file w p blocks filenames st before name after err :
  range_ok w -> wf_parser st p -> remote_succeeds w p blocks ->
  defaultVarFiles p = before ++ name :: after ->
  name <> "" -> (os_ReadFile w name).2 = Some err ->
  let r := loadVars w p blocks filenames st in
  let r' := loadVars w (set_defaultVarFiles (before ++ after) p) blocks filenames st in
  r.1 = r'.1
  /\ content r.2 r.1.1 = content r'.2 r'.1.1
  /\ skipped_var_file name (load_error (read_error name err)) ∈ logs r.2.
Proof.
  intros Hw Hwf Hrem Hd Hn Hread r r'.
  assert (file_vars w name = (∅, Some (read_error name err))) as Hfile.
  { unfold file_vars. apply String.eqb_neq in Hn. rewrite Hn.
    destruct (os_ReadFile w name) as [src o]. cbn [snd] in Hread. by subst o. }
  destruct (loadVars_spec w p blocks filenames st Hw Hwf) as (A1&A2&_).
  destruct (loadVars_spec w (set_defaultVarFiles (before ++ after) p) blocks filenames
              st Hw Hwf) as (B1&B2&_).
  fold r in A1, A2. fold r' in B1, B2.
  cbn [tfEnvVars inputVars set_defaultVarFiles] in B1, B2.
  assert (resolved w (set_defaultVarFiles (before ++ after) p) blocks filenames
            (field_content st (tfEnvVars p)) (field_content st (inputVars p))
          = resolved w p blocks filenames
              (field_content st (tfEnvVars p)) (field_content st (inputVars p))) as Hsame.
  { unfold resolved, resolved_files.
    cbn [remoteVariablesLoader defaultVarFiles set_defaultVarFiles].
    rewrite Hd.
    destruct (remoteVariablesLoader p) as [loader|].
    - destruct (RemoteVariablesLoader_Load w loader blocks) as [remoteVars [e|]];
        [done|].
      by rewrite (merge_default_files_skip _ _ _ _ _ (read_error name err));
        [|rewrite Hfile].
    - by rewrite (merge_default_files_skip _ _ _ _ _ (read_error name err));
        [|rewrite Hfile]. }
  rewrite Hsame in B1, B2.
  split; [congruence|]. split; [rewrite A1, B1; cbn [fst]; congruence|].
  assert (name ∈ defaultVarFiles p) as Hin.
  { rewrite Hd. apply elem_of_app. right. apply elem_of_cons. by left. }
  assert ((file_vars w name).2 = Some (read_error name err)) as Herr
    by (by rewrite Hfile).
  assert (forall dst st1,
            skipped_var_file name (load_error (read_error name err))
            ∈ logs (match remoteVariablesLoader p with
                    | Some loader =>
                        let '(remoteVars, err) :=
                          RemoteVariablesLoader_Load w loader blocks in
                        match err with
                        | Some err =>
                            log_Warnf "could not load vars from Terraform Cloud: %s"
                              [op_error err] ;;
                            mret (dst, Some err)
                        | None =>
                            copy_entries w remoteVars dst ;;
                            loadVars_files w p filenames dst
                        end
                    | None => loadVars_files w p filenames dst
                    end st1).2) as Hrest.
  { intros dst st1. unfold mbind, M_bind, mret, M_ret.
    destruct (remoteVariablesLoader p) as [loader|] eqn:Hl.
    - specialize (Hrem loader Hl).
      destruct (RemoteVariablesLoader_Load w loader blocks) as [remoteVars o].
      cbn [snd] in Hrem. subst o.
      destruct (copy_entries w remoteVars dst st1) as [[] st2].
      by apply loadVars_files_default_warning.
    - by apply loadVars_files_default_warning. }
  unfold r, loadVars. unfold mbind, M_bind, mret, M_ret in *.
  destruct (tfEnvVars p) as [l|].
  - apply Hrest.
  - assert (make_map st = (next st, (make_map st).2)) as -> by done. apply Hrest.
Qed.

Lemma loadVars_skips_default_file_witness :
  let w := auto_dir_world in
  let r0 := New w "proj" [] empty_state in
  let r := loadVars w r0.1 [] [] r0.2 in
  let r' := loadVars w (set_defaultVarFiles (["proj/terraform.tfvars"] ++ []) r0.1)
              [] [] r0.2 in
  r.1 = r'.1
  /\ content r.2 r.1.1 = content r'.2 r'.1.1
  /\ skipped_var_file "proj/conf.auto.tfvars"
       (load_error (read_error "proj/conf.auto.tfvars" (errors_New "cannot read")))
     ∈ logs r.2.
Proof.
  apply (loadVars_skips_default_file auto_dir_world
           (New auto_dir_world "proj" [] empty_state).1 [] []
           (New auto_dir_world "proj" [] empty_state).2
           ["proj/terraform.tfvars"] "proj/conf.auto.tfvars" []).
  - by intros V m.
  - repeat split; intros l; vm_compute; intros H; inversion H.
  - intros loader. vm_compute. discriminate.
  - reflexivity.
  - discriminate.
  - reflexivity.
Defined.

Lemma merge_explicit_files_stops w before name after base err :
  Forall (readable w) before -> (file_vars w name).2 = Some err ->
  merge_explicit_files w (before ++ name :: after) base
  = ((merge_explicit_files w before base).1, Some (load_error err))
  /\ (merge_explicit_files w before base).2 = None.
Proof.
  intros Hbefore Herr. revert base.
  induction Hbefore as [|n before Hn _ IH]; intros base; cbn [app merge_explicit_files].
  - destruct (file_vars w name) as [vars [e|]]; [|done]. cbn [snd] in Herr.
    by injection Herr as ->.
  - unfold readable in Hn. destruct (file_vars w n) as [vars [e|]]; [done|].
    apply IH.
Qed.

(** X19. When an explicit variable file cannot be read, [loadVars] stops
    there and returns, with the error of this file, the map of what was
    merged before: it holds what resolution with the explicit files before
    this one and without the direct inputs gives. The explicit files after
    it and the direct inputs are not merged. *)
Theorem loadVars_explicit_failure w p blocks before name after st err :
  range_ok w -> wf_parser st p -> remote_succeeds w p blocks ->
  Forall (readable w) before ->
  name <> "" -> (os_ReadFile w name).2 = Some err ->
  let r := loadVars w p blocks (before ++ name :: after) st in
  let r' := loadVars w (set_inputVars None p) blocks before st in
  r.1.2 = Some (load_error (read_error name err))
  /\ r'.1.2 = None
  /\ content r.2 r.1.1 = content r'.2 r'.1.1.
Proof.
  intros Hw Hwf Hrem Hbefore Hn Hread r r'.
  assert ((file_vars w name).2 = Some (read_error name err)) as Hfile.
  { unfold file_vars. apply String.eqb_neq in Hn. rewrite Hn.
    destruct (os_ReadFile w name) as [src o]. cbn [snd] in Hread. by subst o. }
  assert (wf_parser st (set_inputVars None p)) as Hwf'.
  { destruct Hwf as (H1&_&_). by repeat split. }
  destruct (loadVars_spec w p blocks (before ++ name :: after) st Hw Hwf) as (A1&A2&_).
  destruct (loadVars_spec w (set_inputVars None p) blocks before st Hw Hwf')
    as (B1&B2&_).
  fold r in A1, A2. fold r' in B1, B2.
  cbn [tfEnvVars inputVars set_inputVars field_content] in B1, B2.
  set (env := field_content st (tfEnvVars p)) in *.
  set (inputs := field_content st (inputVars p)) in *.
  assert (resolved w p blocks (before ++ name :: after) env inputs
          = ((resolved w (set_inputVars None p) blocks before env ∅).1,
             Some (load_error (read_error name err)))
          /\ (resolved w (set_inputVars None p) blocks before env ∅).2 = None)
    as [Hres Hok].
  { unfold resolved, resolved_files.
    cbn [remoteVariablesLoader defaultVarFiles set_inputVars].
    assert (forall base,
              match merge_explicit_files w (before ++ name :: after)
                      (merge_default_files w (defaultVarFiles p) base) with
              | (m, Some err) => (m, Some err)
              | (m, None) => (inputs ∪ m, None)
              end
              = ((match merge_explicit_files w before
                          (merge_default_files w (defaultVarFiles p) base) with
                  | (m, Some err) => (m, Some err)
                  | (m, None) => (∅ ∪ m, None)
                  end).1, Some (load_error (read_error name err)))
              /\ (match merge_explicit_files w before
                          (merge_default_files w (defaultVarFiles p) base) with
                  | (m, Some err) => (m, Some err)
                  | (m, None) => (∅ ∪ m, None)
                  end).2 = None) as Hfiles.
    { intros base.
      destruct (merge_explicit_files_stops w before name after
                  (merge_default_files w (defaultVarFiles p) base) _ Hbefore Hfile)
        as [-> Hnone].
      destruct (merge_explicit_files w before _) as [m o]. cbn [fst snd] in *.
      subst o. cbn [fst snd]. by rewrite (left_id_L ∅ (∪)). }
    destruct (remoteVariablesLoader p) as [loader|] eqn:Hl; [|apply Hfiles].
    specialize (Hrem loader Hl).
    destruct (RemoteVariablesLoader_Load w loader blocks) as [remoteVars o].
    cbn [snd] in Hrem. subst o. apply Hfiles. }
  rewrite Hres in A1, A2. cbn [fst snd] in A1, A2.
  rewrite A1, B1. cbn [fst snd]. rewrite A2, B2. done.
Qed.

Lemma loadVars_explicit_failure_witness :
  let w := malformed_world in
  let r0 := New w "proj" [OptionWithInputVars w owner_input] empty_state in
  let r := loadVars w r0.1 [] (["proj/broken.tfvars"] ++ "proj/modules" :: []) r0.2 in
  r.1.2 = Some (load_error (read_error "proj/modules" (errors_New "cannot read")))
  /\ content r.2 r.1.1 !! "owner" = None.
Proof.
  destruct (loadVars_explicit_failure malformed_world
              (New malformed_world "proj"
                 [OptionWithInputVars malformed_world owner_input] empty_state).1 []
              ["proj/broken.tfvars"] "proj/modules" []
              (New malformed_world "proj"
                 [OptionWithInputVars malformed_world owner_input] empty_state).2
              (errors_New "cannot read")) as (H1&_&H3).
  - by intros V m.
  - repeat split; intros l; vm_compute; intros H; inversion H; lia.
  - intros loader. vm_compute. discriminate.
  - repeat constructor.
  - discriminate.
  - reflexivity.
  - split; [exact H1|]. cbn zeta in H3. rewrite H3. by vm_compute.
Defined.

(** X20. [loadAndCombineVars] merges a file all or nothing. When the file
    cannot be loaded the destination map is left as it was, and the error
    wraps the one of [loadVarFile]; when it can, every variable of the
    file is written over what the map held, and the other entries of the
    map stay. No other map of the store is touched. *)
Theorem loadAndCombineVars_all_or_nothing w filename dst st :
  range_ok w ->
  let r := loadAndCombineVars w filename dst st in
  let file := (loadVarFile w filename st).1 in
  (forall l, l <> dst -> content r.2 l = content st l)
  /\ match file.2 with
     | Some cause =>
         r.1 = Some (fmt_Errorf "failed to load the tfvars. %s" [op_error cause])
         /\ content r.2 dst = content st dst
     | None =>
         r.1 = None
         /\ forall k, content r.2 dst !! k
                      = match file.1 !! k with
                        | Some v => Some v
                        | None => content st dst !! k
                        end
     end.
Proof.
  intros Hw r file.
  destruct (loadVarFile_spec w filename st Hw) as (Hf&_). fold file in Hf.
  pose proof (loadAndCombineVars_spec w filename dst st Hw) as H. cbn zeta in H.
  fold r in H. rewrite Hf.
  destruct (file_vars w filename) as [vars [e|]]; cbn [fst snd].
  - destruct H as [-> H]. split; [|split; [done|]]; intros;
      by apply only_logs_content.
  - destruct H as [-> (Hc&_&_&Hframe&_)]. split; [exact Hframe|]. split; [done|].
    intros k. rewrite Hc, lookup_union. by destruct (vars !! k), (content st dst !! k).
Qed.

Lemma loadAndCombineVars_all_or_nothing_witness :
  let r0 := first_run in
  let r := loadAndCombineVars region_world "proj/missing.tfvars" 0 r0.2 in
  r.1 = Some (fmt_Errorf "failed to load the tfvars. %s"
                [op_error (read_error "proj/missing.tfvars" (errors_New "cannot read"))])
  /\ content r.2 0 = content r0.2 0.
Proof.
  destruct (loadAndCombineVars_all_or_nothing region_world "proj/missing.tfvars" 0
              first_run.2) as (_&H); [by intros V m|].
  exact H.
Defined.

(** * The sorting function of the logger *)

Lemma swap_keys_last (l1 l2 : list string) (a z : string) :
  swap_keys (l1 ++ a :: l2 ++ [z]) (length l1) (length (l1 ++ a :: l2 ++ [z]) - 1)
  = l1 ++ z :: l2 ++ [a].
Proof.
  unfold swap_keys.
  assert (length (l1 ++ a :: l2 ++ [z]) - 1 = length l1 + S (length l2)) as ->.
  { rewrite length_app. cbn [length]. rewrite length_app. cbn [length]. lia. }
  rewrite list_lookup_middle by done.
  assert ((l1 ++ a :: l2 ++ [z]) !! (length l1 + S (length l2)) = Some z) as ->.
  { rewrite lookup_app_r by lia.
    replace (length l1 + S (length l2) - length l1) with (S (length l2)) by lia.
    change ((l2 ++ z :: []) !! length l2 = Some z).
    by rewrite list_lookup_middle. }
  rewrite insert_app_r_alt by lia. rewrite Nat.sub_diag.
  change (<[0 := z]> (a :: l2 ++ [z])) with (z :: l2 ++ [z]).
  rewrite insert_app_r_alt by lia.
  replace (length l1 + S (length l2) - length l1) with (S (length l2)) by lia.
  change (<[S (length l2) := a]> (z :: l2 ++ [z]))
    with (z :: <[length l2 := a]> (l2 ++ [z])).
  rewrite insert_app_r_alt by lia. by rewrite Nat.sub_diag.
Qed.

(** The loop, started after a part of the slice without the key "msg". *)
Lemma SortingFunc_loop_spec (visited rest : list string) :
  "msg" ∉ visited ->
  let keys := visited ++ rest in
  let r := SortingFunc_loop keys (length visited) rest in
  r ≡ₚ keys
  /\ ("msg" ∈ rest -> last r = Some "msg")
  /\ ("msg" ∉ rest -> r = keys)
  /\ (last keys = Some "msg" -> r = keys).
Proof.
  revert visited. induction rest as [|key rest IH]; intros visited Hv keys r.
  { subst r. cbn. repeat split; try done. intros H. by apply elem_of_nil in H. }
  subst r. cbn [SortingFunc_loop].
  destruct (String.eqb key "msg") eqn:Hkey; cbn [andb].
  - apply String.eqb_eq in Hkey. subst key.
    destruct (length visited =? length keys - 1)%nat eqn:Hlast; cbn [negb].
    + apply Nat.eqb_eq in Hlast. subst keys. rewrite length_app in Hlast.
      cbn [length] in Hlast. destruct rest; [|cbn in Hlast; lia].
      cbn [SortingFunc_loop]. repeat split; try done.
      intros _. by rewrite last_snoc.
    + apply Nat.eqb_neq in Hlast. subst keys. rewrite length_app in Hlast.
      cbn [length] in Hlast.
      destruct (exists_last (l := rest)) as (l2&z&->); [by intros ->; cbn in Hlast; lia|].
      rewrite swap_keys_last. repeat split.
      * apply Permutation_app_head.
        rewrite !(Permutation_app_comm l2), <- !app_comm_cons. cbn.
        apply perm_swap.
      * intros _. by rewrite app_comm_cons, (assoc_L (++)), last_snoc.
      * intros H. exfalso. apply H, elem_of_cons. by left.
      * intros H. rewrite app_comm_cons, (assoc_L (++)), last_snoc in H.
        by injection H as ->.
  - apply String.eqb_neq in Hkey.
    assert ("msg" ∉ visited ++ [key]) as Hv'.
    { intros H. apply elem_of_app in H as [H|H]; [done|].
      apply list_elem_of_singleton in H. done. }
    specialize (IH (visited ++ [key]) Hv'). cbn zeta in IH.
    rewrite length_app in IH. cbn [length] in IH.
    replace (length visited + 1) with (S (length visited)) in IH by lia.
    rewrite <- (assoc_L (++)) in IH. cbn [app] in IH.
    destruct IH as (I1&I2&I3&I4). repeat split; try done.
    + intros H. apply I2. apply elem_of_cons in H as [H|H]; [done | exact H].
    + intros H. apply I3. intros H'. apply H, elem_of_cons. by right.
Qed.

(** X21. The sorting function of the logger puts the message last. It
    permutes the keys: none is lost or added. When the key "msg" is among
    them, it is the last key afterwards; a slice without it, or with it
    last already, is left as it is. Sorting twice is sorting once. *)
Theorem SortingFunc_message_last (keys : list string) :
  SortingFunc keys ≡ₚ keys
  /\ ("msg" ∈ keys -> last (SortingFunc keys) = Some "msg")
  /\ ("msg" ∉ keys -> SortingFunc keys = keys)
  /\ (last keys = Some "msg" -> SortingFunc keys = keys)
  /\ SortingFunc (SortingFunc keys) = SortingFunc keys.
Proof.
  assert (forall keys,
            SortingFunc keys ≡ₚ keys
            /\ ("msg" ∈ keys -> last (SortingFunc keys) = Some "msg")
            /\ ("msg" ∉ keys -> SortingFunc keys = keys)
            /\ (last keys = Some "msg" -> SortingFunc keys = keys)) as Hspec.
  { intros l. apply (SortingFunc_loop_spec [] l). intros H. by apply elem_of_nil in H. }
  destruct (Hspec keys) as (H1&H2&H3&H4).
  refine (conj H1 (conj H2 (conj H3 (conj H4 _)))).
  destruct (decide ("msg" ∈ keys)) as [Hin|Hnot].
  - apply (Hspec (SortingFunc keys)). by apply H2.
  - by rewrite !(H3 Hnot).
Qed.

Lemma SortingFunc_message_last_witness :
  SortingFunc ["level"; "msg"; "parser"; "time"] = ["level"; "time"; "parser"; "msg"]
  /\ last (SortingFunc ["level"; "msg"; "parser"; "time"]) = Some "msg".
Proof.
  split; [reflexivity|].
  apply (SortingFunc_message_last ["level"; "msg"; "parser"; "time"]).
  apply elem_of_cons. right. apply elem_of_cons. by left.
Defined.
